(** * aequitas-flow: sites, channels and networks

    A shallow embedding of [aequitas_flow/flow.py]: the object store of
    sites and channels, the operations of [Site], [Channel] and [Network],
    and the levelling pass [compute_order], followed by the properties of
    the specification that were checked against them. *)

From Stdlib Require Import ZArith String List Lia DecimalString.
From stdpp Require Import base gmap strings list sorting.

Local Open Scope Z_scope.
Local Set Warnings "-register-all,-clear-no-such-hyp".

(** ** Python values and exceptions *)

(** Objects are compared by identity ([__hash__] is [id(self)]); an address
    stands for that identity. *)
Definition addr := nat.

(** The positional arguments that reach [Site.__init__], [Network.site] and
    [Network.channel]. *)
Inductive PyVal :=
| VNone
| VStr (s : string)
| VInt (z : Z)
| VSite (a : addr)
| VChannel (a : addr)
| VList (l : list PyVal).

Inductive Exn :=
| AttributeError (msg : string)
| KeyError (msg : string)
| ValueError (msg : string)
| Exception_ (msg : string).

Inductive result (A : Type) :=
| Ok (a : A)
| Raise (e : Exn).
Arguments Ok {A} a.
Arguments Raise {A} e.

(** ** The data model *)

(** [Site._sites] starts as the empty dict and is replaced, for a group, by
    a set of [(id, site)] tuples. *)
Inductive SubSites :=
| SubDict (d : gmap string addr)
| SubSet (t : gset (string * addr)).

(** An attribute that [__init__] may leave unassigned is an [option]:
    [s_label = None] is a site without a [label] attribute, [Some None] is
    [label = None]. [s_source] is the attribute [_source] of a site, which
    only [Channel.discard_output] assigns. *)
Record Site := mkSite {
  s_id : string;
  s_label : option (option string);
  s_sites : SubSites;
  s_producer : option addr;
  s_level : Z;
  s_source : option PyVal
}.

(** [c_level] is assigned last by [Channel.__init__]; the object is created
    with it, since nothing reads the level of a channel under construction. *)
Record Channel := mkChannel {
  c_id : string;
  c_label : string;
  c_source : list addr;
  c_target : gset addr;
  c_level : Z
}.

(** The two mappings of a network are dicts in insertion order. *)
Record Network := mkNetwork {
  n_spec : string;
  n_sites : list (string * addr);
  n_channels : list (string * addr);
  n_name : option string;
  n_version : string;
  n_site_ix : Z;
  n_channel_ix : Z
}.

(** The store: every site and channel object ever created, the network
    they belong to, and the next free identity. *)
Record State := mkState {
  site_heap : gmap addr Site;
  chan_heap : gmap addr Channel;
  net : Network;
  next_obj : addr
}.

#[global] Instance Site_inhabited : Inhabited Site :=
  populate (mkSite "" None (SubDict ∅) None 0 None).
#[global] Instance Channel_inhabited : Inhabited Channel :=
  populate (mkChannel "" "" [] ∅ 0).

(** *** Insertion-ordered dicts *)

Fixpoint dict_get {V} (k : string) (d : list (string * V)) : option V :=
  match d with
  | [] => None
  | (k', v) :: d' => if decide (k = k') then Some v else dict_get k d'
  end.

(** [d[k] = v]: an existing key keeps its position. *)
Fixpoint dict_set {V} (k : string) (v : V) (d : list (string * V))
  : list (string * V) :=
  match d with
  | [] => [(k, v)]
  | (k', v') :: d' =>
      if decide (k = k') then (k, v) :: d' else (k', v') :: dict_set k v d'
  end.

Definition dict_values {V} (d : list (string * V)) : list V := map snd d.

(** *** Reading and writing objects *)

Definition site_of (σ : State) (a : addr) : Site := site_heap σ !!! a.
Definition chan_of (σ : State) (a : addr) : Channel := chan_heap σ !!! a.

Definition update_site (a : addr) (f : Site → Site) (σ : State) : State :=
  mkState (<[a := f (site_of σ a)]> (site_heap σ)) (chan_heap σ) (net σ)
          (next_obj σ).

Definition update_chan (a : addr) (f : Channel → Channel) (σ : State)
  : State :=
  mkState (site_heap σ) (<[a := f (chan_of σ a)]> (chan_heap σ)) (net σ)
          (next_obj σ).

Definition update_net (f : Network → Network) (σ : State) : State :=
  mkState (site_heap σ) (chan_heap σ) (f (net σ)) (next_obj σ).

Definition with_label (l : option string) (s : Site) : Site :=
  mkSite (s_id s) (Some l) (s_sites s) (s_producer s) (s_level s) (s_source s).
Definition with_sites (t : SubSites) (s : Site) : Site :=
  mkSite (s_id s) (s_label s) t (s_producer s) (s_level s) (s_source s).
Definition with_producer (p : option addr) (s : Site) : Site :=
  mkSite (s_id s) (s_label s) (s_sites s) p (s_level s) (s_source s).
Definition with_level (l : Z) (s : Site) : Site :=
  mkSite (s_id s) (s_label s) (s_sites s) (s_producer s) l (s_source s).
Definition with_source_attr (v : PyVal) (s : Site) : Site :=
  mkSite (s_id s) (s_label s) (s_sites s) (s_producer s) (s_level s) (Some v).

Definition with_c_label (l : string) (c : Channel) : Channel :=
  mkChannel (c_id c) l (c_source c) (c_target c) (c_level c).
Definition with_c_source (l : list addr) (c : Channel) : Channel :=
  mkChannel (c_id c) (c_label c) l (c_target c) (c_level c).
Definition with_c_target (t : gset addr) (c : Channel) : Channel :=
  mkChannel (c_id c) (c_label c) (c_source c) t (c_level c).
Definition with_c_level (l : Z) (c : Channel) : Channel :=
  mkChannel (c_id c) (c_label c) (c_source c) (c_target c) l.

Definition site_level (σ : State) (a : addr) : Z := s_level (site_of σ a).
Definition chan_level (σ : State) (a : addr) : Z := c_level (chan_of σ a).
Definition producer (σ : State) (a : addr) : option addr :=
  s_producer (site_of σ a).
Definition sources (σ : State) (c : addr) : list addr := c_source (chan_of σ c).
Definition targets (σ : State) (c : addr) : gset addr := c_target (chan_of σ c).

Definition set_site_level (a : addr) (l : Z) : State → State :=
  update_site a (with_level l).
Definition set_chan_level (a : addr) (l : Z) : State → State :=
  update_chan a (with_c_level l).

(** ** Operations that may raise

    A method is a function from the store to the store it leaves behind
    and either its return value or the exception it raised; what was
    written before a [raise] stays written. *)

Definition M (A : Type) : Type := State → State * result A.

Definition ret {A} (a : A) : M A := λ σ, (σ, Ok a).
Definition raise {A} (e : Exn) : M A := λ σ, (σ, Raise e).
Definition bind {A B} (m : M A) (k : A → M B) : M B :=
  λ σ, match m σ with
       | (σ', Ok a) => k a σ'
       | (σ', Raise e) => (σ', Raise e)
       end.
Definition gets {A} (f : State → A) : M A := λ σ, (σ, Ok (f σ)).
Definition modify (f : State → State) : M unit := λ σ, (f σ, Ok tt).

Notation "'do' x <- m ; k" := (bind m (λ x, k))
  (at level 10, x name, m at level 100, k at level 200).
Notation "'do_' m ; k" := (bind m (λ _, k))
  (at level 10, m at level 100, k at level 200).

(** [for x in l: body(x)], stopping at the first exception. *)
Fixpoint for_each {A} (body : A → M unit) (l : list A) : M unit :=
  match l with
  | [] => ret tt
  | x :: l' => do_ body x; for_each body l'
  end.

(** Decimal rendering of a Python int inside an f-string. *)
Definition str_of_int (z : Z) : string := NilZero.string_of_int (Z.to_int z).

Fixpoint join (sep : string) (l : list string) : string :=
  match l with
  | [] => ""
  | [x] => x
  | x :: l' => x +:+ sep +:+ join sep l'
  end.

(** ** Site *)

(** [Network._next_site_ix] *)
Definition next_site_ix : M string := λ σ,
  let n := net σ in
  let ix := n_site_ix n + 1 in
  (update_net (λ n, mkNetwork (n_spec n) (n_sites n) (n_channels n) (n_name n)
                              (n_version n) ix (n_channel_ix n)) σ,
   Ok ("_s" +:+ str_of_int ix)).

(** [Network._next_channel_ix] *)
Definition next_channel_ix : M string := λ σ,
  let n := net σ in
  let ix := n_channel_ix n + 1 in
  (update_net (λ n, mkNetwork (n_spec n) (n_sites n) (n_channels n) (n_name n)
                              (n_version n) (n_site_ix n) ix) σ,
   Ok ("_c" +:+ str_of_int ix)).

Definition is_site (v : PyVal) : bool :=
  match v with VSite _ => true | _ => false end.

Definition site_addrs (args : list PyVal) : list addr :=
  omap (λ v, match v with VSite a => Some a | _ => None end) args.

(** A new [Site] object holding the attributes assigned before the
    dispatch on [args]. *)
Definition alloc_site (id : string) : M addr := λ σ,
  let a := next_obj σ in
  (mkState (<[a := mkSite id None (SubDict ∅) None 4000 None]> (site_heap σ))
           (chan_heap σ) (net σ) (S a),
   Ok a).

(** [Site.__init__(self, nw, *args)] *)
Definition Site_init (args : list PyVal) : M addr :=
  do id <- next_site_ix;
  do self <- alloc_site id;
  match args with
  | [] =>
      do_ modify (update_site self (with_label None)); ret self
  | [VStr l] =>
      do_ modify (update_site self (with_label (Some l))); ret self
  | _ =>
      if forallb is_site args then
        do_ modify (λ σ,
              update_site self
                (with_sites
                   (SubSet (list_to_set
                              (map (λ a, (s_id (site_of σ a), a))
                                   (site_addrs args))))) σ);
        ret self
      else raise (AttributeError "Invalid arguments for Site initialization.")
  end.

(** [Site.site(self, id)] for a string [id]. A string is a key of the dict
    or it is not; it is never a member of a set of tuples. *)
Definition Site_site (self : addr) (id : string) : M addr := λ σ,
  let not_found :=
    AttributeError ("Site '" +:+ s_id (site_of σ self)
                    +:+ "' does not contain the site '" +:+ id +:+ "'") in
  match s_sites (site_of σ self) with
  | SubDict d =>
      match d !! id with
      | Some a => (σ, Ok a)
      | None => (σ, Raise not_found)
      end
  | SubSet _ => (σ, Raise not_found)
  end.

(** [Site.sites(self, *ids)] *)
Fixpoint Site_sites (self : addr) (ids : list string) : M (list addr) :=
  match ids with
  | [] => ret []
  | id :: ids' =>
      do a <- Site_site self id;
      do l <- Site_sites self ids';
      ret (a :: l)
  end.

(** [Site._label(self)]: reading [self.label] raises when [__init__] never
    assigned it. *)
Definition Site_label (self : addr) : M string := λ σ,
  match s_label (site_of σ self) with
  | None => (σ, Raise (AttributeError "'Site' object has no attribute 'label'"))
  | Some (Some l) => (σ, Ok l)
  | Some None => (σ, Ok (s_id (site_of σ self)))
  end.

(** [Site.__str__] and [Site.__repr__] both return [self._label()]. *)
Definition Site_str : addr → M string := Site_label.
Definition Site_repr : addr → M string := Site_label.

(** ** Channel *)

(** The [source] and [target] arguments of a channel: a site or a list of
    such arguments (the methods recurse into lists). *)
Inductive SiteArg :=
| One (s : addr)
| Many (l : list SiteArg).

(** The sites of an argument in the order the methods reach them. *)
Fixpoint flatten (x : SiteArg) : list addr :=
  match x with
  | One s => [s]
  | Many l => concat (map flatten l)
  end.

Definition alloc_chan (id : string) (label : string) : M addr := λ σ,
  let a := next_obj σ in
  (mkState (site_heap σ) (<[a := mkChannel id label [] ∅ (-1)]> (chan_heap σ))
           (net σ) (S a),
   Ok a).

(** [Channel.add_input(self, sites)]; the method returns [self]. *)
Fixpoint add_input (self : addr) (sites : SiteArg) : M unit :=
  match sites with
  | Many l => for_each (add_input self) l
  | One s => λ σ,
      if bool_decide (s ∈ sources σ self) then (σ, Ok tt)
      else (update_chan self (with_c_source (sources σ self ++ [s])) σ, Ok tt)
  end.

(** [list.remove(x)]: drops the first occurrence. *)
Fixpoint list_remove (x : addr) (l : list addr) : option (list addr) :=
  match l with
  | [] => None
  | y :: l' => if decide (x = y) then Some l' else cons y <$> list_remove x l'
  end.

(** [Channel.discard_input(self, sites)] *)
Fixpoint discard_input (self : addr) (sites : SiteArg) : M unit :=
  match sites with
  | Many l => for_each (discard_input self) l
  | One s => λ σ,
      match list_remove s (sources σ self) with
      | Some l => (update_chan self (with_c_source l) σ, Ok tt)
      | None => (σ, Raise (ValueError "list.remove(x): x not in list"))
      end
  end.

Fixpoint map_M {A B} (f : A → M B) (l : list A) : M (list B) :=
  match l with
  | [] => ret []
  | x :: l' => do y <- f x; do ys <- map_M f l'; ret (y :: ys)
  end.

(** [repr] of a list and of a set of sites; a set is rendered in the order
    [elements] enumerates it. *)
Definition list_repr (l : list string) : string := "[" +:+ join ", " l +:+ "]".
Definition set_repr (l : list string) : string :=
  match l with
  | [] => "set()"
  | _ => "{" +:+ join ", " l +:+ "}"
  end.

(** [Channel.__str__(self)] *)
Definition Channel_str (self : addr) : M string :=
  do c <- gets (λ σ, chan_of σ self);
  do src <- map_M Site_repr (c_source c);
  do tgt <- map_M Site_repr (elements (c_target c));
  ret (c_id c +:+ ": " +:+ list_repr src +:+ " --> " +:+ set_repr tgt).

(** [Channel.__repr__(self)] *)
Definition Channel_repr (self : addr) : M string :=
  do c <- gets (λ σ, chan_of σ self);
  do src <- map_M Site_repr (c_source c);
  do tgt <- map_M Site_repr (elements (c_target c));
  ret ("<" +:+ c_label c +:+ ": " +:+ list_repr src +:+ " --> "
       +:+ set_repr tgt +:+ ">").

(** The message of the single-producer exception, an f-string over the
    site and its current producer. *)
Definition producer_conflict (s p : addr) : M unit :=
  do s_str <- Site_str s;
  do p_str <- Channel_str p;
  raise (Exception_
           ("A site can only be the output of one channel. Source of "
            +:+ s_str +:+ " is " +:+ p_str)).

(** [Channel.add_output(self, sites)] *)
Fixpoint add_output (self : addr) (sites : SiteArg) : M unit :=
  match sites with
  | Many l => for_each (add_output self) l
  | One s => λ σ,
      let claim σ :=
        update_chan self (with_c_target ({[s]} ∪ targets σ self))
          (update_site s (with_producer (Some self)) σ) in
      match producer σ s with
      | None => (claim σ, Ok tt)
      | Some p =>
          if decide (p = self) then (claim σ, Ok tt)
          else producer_conflict s p σ
      end
  end.

(** [Channel.discard_output(self, sites)] *)
Fixpoint discard_output (self : addr) (sites : SiteArg) : M unit :=
  match sites with
  | Many l => for_each (discard_output self) l
  | One s => λ σ,
      if bool_decide (s ∈ targets σ self) then
        (update_chan self (with_c_target (targets σ self ∖ {[s]}))
           (update_site s (with_source_attr VNone) σ), Ok tt)
      else (σ, Ok tt)
  end.

(** [Channel.__init__(self, nw, source, target, label=None)] *)
Definition Channel_init (source target : SiteArg) (label : option string)
  : M addr :=
  do id <- next_channel_ix;
  do self <- alloc_chan id (default id label);
  do_ add_input self source;
  do_ add_output self target;
  do_ modify (set_chan_level self (-1));
  ret self.

(** ** Network *)

Definition IMPLEMENTED_SPECS : list string := ["IF0.1"; "IF0.2"].

(** The store of a network that has no sites and no channels yet. *)
Definition empty_network (spec : string) (name : option string) : State :=
  mkState ∅ ∅ (mkNetwork spec [] [] name "0.0.1" (-1) (-1)) 0%nat.

Definition register_site (id : string) (a : addr) : State → State :=
  update_net (λ n, mkNetwork (n_spec n) (dict_set id a (n_sites n))
                             (n_channels n) (n_name n) (n_version n)
                             (n_site_ix n) (n_channel_ix n)).

Definition set_channels (d : list (string * addr)) : State → State :=
  update_net (λ n, mkNetwork (n_spec n) (n_sites n) d (n_name n) (n_version n)
                             (n_site_ix n) (n_channel_ix n)).

Definition register_channel (id : string) (a : addr) (σ : State) : State :=
  set_channels (dict_set id a (n_channels (net σ))) σ.

(** [Network.site(self, *args, create=False)]; a call that matches no
    branch falls off the end of the method and returns [None]. *)
Definition Network_site (args : list PyVal) (create : bool) : M PyVal :=
  match args with
  | [VStr k] => λ σ,
      match dict_get k (n_sites (net σ)) with
      | Some a => (σ, Ok (VSite a))
      | None =>
          if create then
            (do new <- Site_init args;
             do id <- gets (λ σ, s_id (site_of σ new));
             do_ modify (register_site id new);
             ret (VSite new)) σ
          else
            (σ, Raise (KeyError ("Key " +:+ k +:+ " is not a recognized site.")))
      end
  | _ => ret VNone
  end.

(** The second branch of [Network.channel]: [Channel(self, *args)] on two
    arguments, registered under its identifier. *)
Definition create_channel (source target : SiteArg) : M addr :=
  do new <- Channel_init source target None;
  do id <- gets (λ σ, c_id (chan_of σ new));
  do_ modify (register_channel id new);
  ret new.

(** An argument of the documented type of [source] and [target]: a site or
    a list of such. *)
Fixpoint site_arg (v : PyVal) : option SiteArg :=
  match v with
  | VSite a => Some (One a)
  | VList l =>
      Many <$> (fix go (l : list PyVal) : option (list SiteArg) :=
                  match l with
                  | [] => Some []
                  | v :: l' =>
                      match site_arg v, go l' with
                      | Some x, Some xs => Some (x :: xs)
                      | _, _ => None
                      end
                  end) l
  | _ => None
  end.

(** [Network.channel(self, *args, id=None)]. The two-argument branch is
    modelled for endpoints of the documented type; the result is [None]
    for a two-argument call with any other endpoint, which the model does
    not cover. *)
Definition Network_channel (args : list PyVal) : option (M PyVal) :=
  match args with
  | [VStr k] => Some (λ σ,
      match dict_get k (n_channels (net σ)) with
      | Some a => (σ, Ok (VChannel a))
      | None =>
          (σ, Raise (KeyError ("Key " +:+ k +:+ " is not a recognized channel.")))
      end)
  | [source; target] =>
      match site_arg source, site_arg target with
      | Some s, Some t => Some (do new <- create_channel s t; ret (VChannel new))
      | _, _ => None
      end
  | _ => Some (ret VNone)
  end.

(** The loop of [Network.__init__] over [site_ids]: every site is linked to
    the one before it. *)
Fixpoint link_sites (site_ids : list string) (tail : option addr)
    (channel_ids : list string) : M unit :=
  match site_ids with
  | [] => ret tt
  | sn :: rest =>
      do v <- Network_site [VStr sn] true;
      match v with
      | VSite site =>
          match tail with
          | None => link_sites rest (Some site) channel_ids
          | Some t =>
              do c <- create_channel (One t) (One site);
              match channel_ids with
              | l :: ids' =>
                  do_ modify (update_chan c (with_c_label l));
                  link_sites rest (Some site) ids'
              | [] => link_sites rest (Some site) []
              end
          end
      | _ => ret tt
      end
  end.

(** [Network.__init__(self, spec, name, site_ids, channel_ids)] *)
Definition Network_init (spec : string) (name : option string)
    (site_ids channel_ids : option (list string)) : State * result unit :=
  if bool_decide (spec ∈ IMPLEMENTED_SPECS) then
    match site_ids with
    | Some ids =>
        link_sites ids None (default [] channel_ids) (empty_network spec name)
    | None => (empty_network spec name, Ok tt)
    end
  else
    (empty_network spec name,
     Raise (AttributeError ("Unknown specification: " +:+ spec +:+ ". "))).

(** ** The levelling pass *)

Definition site_values (σ : State) : list addr := dict_values (n_sites (net σ)).
Definition chan_values (σ : State) : list addr :=
  dict_values (n_channels (net σ)).

(** First loop of the reset: a site without producer gets [-1], the others
    [1000]. *)
Definition reset_site (σ : State) (s : addr) : State :=
  match producer σ s with
  | None => set_site_level s (-1) σ
  | Some _ => set_site_level s 1000 σ
  end.

(** [s._level = 0 if s._level == -1 else s._level] *)
Definition seed_source (σ : State) (s : addr) : State :=
  set_site_level s (if site_level σ s =? -1 then 0 else site_level σ s) σ.

(** Second loop of the reset. *)
Definition reset_channel (σ : State) (c : addr) : State :=
  let σ1 := set_chan_level c 1000 σ in
  foldl seed_source σ1 (sources σ1 c).

Definition reset_order (σ : State) : State :=
  foldl reset_channel (foldl reset_site σ (site_values σ)) (chan_values σ).

(** [for s in c._target: s._level = lvl] *)
Definition promote (lvl : Z) (c : addr) (σ : State) : State :=
  foldl (λ σ s, set_site_level s lvl σ) σ (elements (targets σ c)).

(** The body of the loop over the channels at step [i]; the state of the
    loop is the flag [done] and the store. *)
Definition visit (i : Z) (acc : bool * State) (c : addr) : bool * State :=
  let '(done, σ) := acc in
  if chan_level σ c <? i then (done, σ)
  else if existsb (λ s, i <? site_level σ s) (sources σ c) then (done, σ)
  else (false, promote (i + 1) c (set_chan_level c i σ)).

(** One iteration of the [while] loop, after [done = True]. *)
Definition pass (i : Z) (σ : State) : bool * State :=
  foldl (visit i) (true, σ) (chan_values σ).

Definition channel_count (σ : State) : Z :=
  Z.of_nat (length (n_channels (net σ))).

(** [while not done and i < len(self._channels) + 10]. The loop is run on
    a budget of iterations and yields [None] when the budget is used up
    while its condition still holds. *)
Fixpoint relax (fuel : nat) (done : bool) (i : Z) (σ : State)
  : option (Z * State) :=
  if negb done && (i <? channel_count σ + 10) then
    match fuel with
    | O => None
    | S fuel' =>
        let '(done', σ') := pass i σ in
        relax fuel' done' (i + 1) σ'
    end
  else Some (i, σ).

(** [sorted(l, key=key)]: a stable sort. *)
Fixpoint insert_by {A} (key : A → Z) (x : A) (l : list A) : list A :=
  match l with
  | [] => [x]
  | y :: l' => if key x <=? key y then x :: l else y :: insert_by key x l'
  end.

Definition sorted_by {A} (key : A → Z) (l : list A) : list A :=
  foldr (insert_by key) [] l.

(** The final sort: channels by level, the sources of each channel by
    descending level. *)
Definition sort_structure (σ : State) : State :=
  let σ1 :=
    set_channels (sorted_by (λ kv, chan_level σ (snd kv)) (n_channels (net σ)))
                 σ in
  foldl (λ σ c,
           update_chan c
             (with_c_source (sorted_by (λ s, - site_level σ s) (sources σ c)))
             σ)
        σ1 (chan_values σ1).

(** What [compute_order] prints. *)
Inductive Warning :=
| FailedStructure
| OrphanedSites (sites : string)
| UnreachableChannels (channels : string).

Definition render (w : Warning) : string :=
  match w with
  | FailedStructure => "Warning: failed to compute network structure."
  | OrphanedSites l => "Warning: There are orphaned sites. " +:+ l
  | UnreachableChannels l => "Warning: There are unreachable channels.  " +:+ l
  end.

Definition is_orphaned (σ : State) (s : addr) : bool := site_level σ s =? -1.
Definition is_unreachable (σ : State) (c : addr) : bool :=
  chan_level σ c =? 1000.

(** A [print] of a list of objects renders each of them, and that may
    raise. *)
Definition report {A} (any : bool) (l : list A) (repr : A → M string)
    (w : string → Warning) (σ : State) : result (list Warning) :=
  if any then
    match map_M repr l σ with
    | (_, Ok rs) => Ok [w (list_repr rs)]
    | (_, Raise e) => Raise e
    end
  else Ok [].

Record Outcome := mkOutcome {
  out_state : State;
  out_steps : Z;
  out_printed : list Warning;
  out_raised : option Exn
}.

(** The evaluation of the result at the end of [compute_order]; [i] is the
    counter of the loop. *)
Definition evaluate (i : Z) (σ : State) : Outcome :=
  let w1 := if channel_count σ + 1 <? i then [FailedStructure] else [] in
  match report (existsb (is_orphaned σ) (site_values σ))
               (filter (λ s, is_orphaned σ s = true) (site_values σ))
               Site_repr OrphanedSites σ with
  | Raise e => mkOutcome σ i w1 (Some e)
  | Ok w2 =>
      match report (existsb (is_unreachable σ) (chan_values σ))
                   (filter (λ c, is_unreachable σ c = true) (chan_values σ))
                   Channel_repr UnreachableChannels σ with
      | Raise e => mkOutcome σ i (w1 ++ w2) (Some e)
      | Ok w3 => mkOutcome σ i (w1 ++ w2 ++ w3) None
      end
  end.

(** [Network.compute_order(self)] on a budget of loop iterations. *)
Definition compute_order_fuel (fuel : nat) (σ : State) : option Outcome :=
  match relax fuel false 0 (reset_order σ) with
  | Some (i, σ') => Some (evaluate i (sort_structure σ'))
  | None => None
  end.

(** [Network.compute_order(self)]: the loop never needs more iterations
    than its own cap. *)
Definition compute_order (σ : State) : option Outcome :=
  compute_order_fuel (length (n_channels (net σ)) + 10) σ.

(** ** Example networks *)

(** A network with two labeled sites and the group of both. *)
Definition group_example : State * result addr :=
  (do a <- Site_init [VStr "Site A"];
   do b <- Site_init [VStr "Site B"];
   Site_init [VSite a; VSite b]) (empty_network "IF0.2" None).


(** The network of the channel tests: two sites, a channel from the first
    to the second, and the second discarded from the channel's output. *)
Definition discard_example : State * result unit :=
  (do s1 <- Site_init [VStr "Source Site"];
   do s2 <- Site_init [VStr "Target Site"];
   do c <- Channel_init (One s1) (One s2) None;
   discard_output c (One s2)) (empty_network "IF0.2" None).

(** Three sites [A], [B], [S] (objects 0, 1, 2), a channel from [A] to [S]
    (object 3) and a channel from [A] without targets (object 4). *)
Definition conflict_example : State * result unit :=
  (do a <- Site_init [VStr "A"];
   do b <- Site_init [VStr "B"];
   do s <- Site_init [VStr "S"];
   do c1 <- Channel_init (One a) (One s) None;
   do c2 <- Channel_init (One a) (Many []) None;
   ret tt) (empty_network "IF0.2" None).

(** ** Vocabulary of the statements *)

(** The site has a [label] attribute. *)
Definition has_label (σ : State) (s : addr) : Prop :=
  is_Some (s_label (site_of σ s)).

(** The text [msg] contains [name]. *)
Definition mentions (msg name : string) : Prop :=
  ∃ before after, msg = before +:+ name +:+ after.

(** The sites a channel refers to. *)
Definition endpoints (σ : State) (c : addr) : list addr :=
  sources σ c ++ elements (targets σ c).

(** The store in which [Channel.__init__] starts to add its inputs: the
    identifier is drawn and the object exists. *)
Definition channel_created (label : option string) (σ : State) : State :=
  let id := "_c" +:+ str_of_int (n_channel_ix (net σ) + 1) in
  mkState (site_heap σ)
          (<[next_obj σ := mkChannel id (default id label) [] ∅ (-1)]>
             (chan_heap σ))
          (mkNetwork (n_spec (net σ)) (n_sites (net σ)) (n_channels (net σ))
                     (n_name (net σ)) (n_version (net σ)) (n_site_ix (net σ))
                     (n_channel_ix (net σ) + 1))
          (S (next_obj σ)).

(** [σ'] differs from [σ] in levels only: same network, and the same
    objects once their levels are blanked. *)
Definition levels_only (σ σ' : State) : Prop :=
  net σ' = net σ
  ∧ (∀ a, with_level 0 (site_of σ' a) = with_level 0 (site_of σ a))
  ∧ (∀ c, with_c_level 0 (chan_of σ' c) = with_c_level 0 (chan_of σ c)).

(** The level the first loop of the reset gives a site. *)
Definition reset_level (σ : State) (s : addr) : Z :=
  match producer σ s with None => -1 | Some _ => 1000 end.

(** The test of [visit]: the channel is not below step [i] and none of
    its sources is above it. *)
Definition fires (i : Z) (σ : State) (c : addr) : bool :=
  negb (chan_level σ c <? i)
  && negb (existsb (λ s, i <? site_level σ s) (sources σ c)).

(** What [visit] does to the store when the test holds. *)
Definition resolve (i : Z) (c : addr) (σ : State) : State :=
  promote (i + 1) c (set_chan_level c i σ).

(** The site is a source of a channel of the network. *)
Definition is_source (σ : State) (s : addr) : Prop :=
  Exists (λ c, s ∈ sources σ c) (chan_values σ).

(** The level of a site when the relaxation starts. *)
Definition level_after_reset (σ : State) (s : addr) : Z :=
  let base :=
    if decide (s ∈ site_values σ) then reset_level σ s else site_level σ s in
  if decide (base = -1 ∧ is_source σ s) then 0 else base.

(** Two sites registered in the network and a channel between them that
    was constructed on its own, as the channel tests do, and is therefore
    in no mapping of the network. *)
Definition unregistered_channel_example : State * result addr :=
  (do _a <- Network_site [VStr "Site A"] true;
   do _b <- Network_site [VStr "Site B"] true;
   Channel_init (One 0%nat) (One 1%nat) None) (empty_network "IF0.2" None).

(** The entries of the channel mapping that step [i] does not skip as
    already resolved. *)
Definition pending (i : Z) (σ : State) : nat :=
  length (filter (λ c, i ≤ chan_level σ c) (chan_values σ)).

(** The channels of [cyc] depend on one another in a cycle: each is a
    channel of the network and has a source that is a target of a channel
    of [cyc], has that channel as its producer, and is a target of no
    channel of the network outside [cyc]. That source is a site of the
    network, which the reset puts at [1000], or else a site outside the
    site mapping, which the reset does not reach, that is at [1000] or
    above (a site is constructed at [4000]). *)
Definition dependency_cycle (σ : State) (cyc : list addr) : Prop :=
  cyc ≠ []
  ∧ ∀ c, c ∈ cyc →
      c ∈ chan_values σ
      ∧ ∃ s c', s ∈ sources σ c
                ∧ (s ∈ site_values σ ∨ 1000 ≤ site_level σ s)
                ∧ c' ∈ cyc ∧ s ∈ targets σ c' ∧ producer σ s = Some c'
                ∧ ∀ d, d ∈ chan_values σ → s ∈ targets σ d → d ∈ cyc.

(** Every site that a warning would print has a label. *)
Definition printable (σ : State) : Prop :=
  (∀ s, s ∈ site_values σ → has_label σ s)
  ∧ (∀ c s, c ∈ chan_values σ → s ∈ endpoints σ c → has_label σ s).

(** Two sites and two channels, each channel taking the target of the
    other as its source. *)
Definition cycle_example : State * result unit :=
  (do _a <- Network_site [VStr "A"] true;
   do _b <- Network_site [VStr "B"] true;
   do _c1 <- create_channel (One 0%nat) (One 1%nat);
   do _c2 <- create_channel (One 1%nat) (One 0%nat);
   ret tt) (empty_network "IF0.2" None).

(** A channel that became its own dependency through a site outside the
    site mapping: [d] takes [A] to the site [S], which was constructed
    directly, and [e] takes [A] to [B]; after a first run of
    [compute_order], which leaves [S] at [1], [S] is added to the sources
    of [d]. *)
Definition stale_level_example : State :=
  let σ1 :=
    fst ((do _a <- Network_site [VStr "A"] true;
          do _s <- Site_init [VStr "S"];
          do _b <- Network_site [VStr "B"] true;
          do _d <- create_channel (One 0%nat) (One 1%nat);
          do _e <- create_channel (One 0%nat) (One 2%nat);
          ret tt) (empty_network "IF0.2" None)) in
  match compute_order σ1 with
  | Some out => fst (add_input 3%nat (One 1%nat) (out_state out))
  | None => σ1
  end.

(** A site that has a producer, that only channels of [cyc] can promote,
    and that is in the site mapping or else at [1000] or above. *)
Definition blocked (σ : State) (cyc : list addr) (s : addr) : Prop :=
  (s ∈ site_values σ ∨ 1000 ≤ site_level σ s) ∧ producer σ s ≠ None
  ∧ ∀ d, d ∈ chan_values σ → s ∈ targets σ d → d ∈ cyc.

(** What the loop keeps true of a cycle [cyc] of [σ] when it is at step
    [i] in the store [σ']. *)
Definition cycle_inv (σ : State) (cyc : list addr) (i : Z) (σ' : State)
  : Prop :=
  levels_only σ σ'
  ∧ (∀ c, c ∈ cyc → chan_level σ' c = 1000)
  ∧ (i < 1000 → ∀ s, blocked σ cyc s → 1000 ≤ site_level σ' s).

(** Membership and similar decidable facts about a given store are
    settled by evaluation. *)
Ltac by_eval := apply (bool_decide_unpack _); vm_compute; exact I.

(** The site is a target of a channel of [l] that passes the test of step
    [i] in [σ]. *)
Definition promoted_by (i : Z) (σ : State) (l : list addr) (t : addr) : bool :=
  existsb (λ c, fires i σ c && bool_decide (t ∈ targets σ c)) l.

(** No channel of [l] that passes the test of step [i] has a target that
    is itself ready at step [i]. *)
Definition targets_late (i : Z) (σ : State) (l : list addr) : Prop :=
  ∀ c t, c ∈ l → fires i σ c = true → t ∈ targets σ c → i < site_level σ t.

(** The store holds a linear chain: the channels of the network are [cs]
    in this order, channel number [j] has site number [j] of [ss] as its
    only source and site number [j + 1] as its only target, the sites of
    [ss] are distinct sites of the network, the first one without producer
    and every other one produced by the channel before it. *)
Definition linear_chain (σ : State) (ss cs : list addr) : Prop :=
  chan_values σ = cs
  ∧ length ss = S (length cs)
  ∧ NoDup ss ∧ NoDup cs
  ∧ (∀ s, s ∈ ss → s ∈ site_values σ)
  ∧ (∀ s, ss !! 0%nat = Some s → producer σ s = None)
  ∧ (∀ j c, cs !! j = Some c →
       ∃ s t, ss !! j = Some s ∧ ss !! S j = Some t
              ∧ sources σ c = [s] ∧ targets σ c = {[t]}
              ∧ producer σ t = Some c).

(** The levels of a chain of [σ] when its first [m] channels are
    resolved. *)
Definition chain_state (σ : State) (ss cs : list addr) (m : nat)
    (σ' : State) : Prop :=
  levels_only σ σ'
  ∧ (∀ j s, ss !! j = Some s →
            site_level σ' s = if decide (j ≤ m)%nat then Z.of_nat j else 1000)
  ∧ (∀ j c, cs !! j = Some c →
            chan_level σ' c = if decide (j < m)%nat then Z.of_nat j else 1000).

(** The network [Network(site_ids=["a", "b", "c"])]. *)
Definition chain_example : State * result unit :=
  Network_init "IF0.2" None (Some ["a"; "b"; "c"]) None.

(** Every site in the target set of a channel is an existing object that
    has this channel as its producer. *)
Definition consistent (σ : State) : Prop :=
  ∀ c t, t ∈ targets σ c → producer σ t = Some c ∧ (t < next_obj σ)%nat.

(** The sites of an argument are existing objects. *)
Definition existing (σ : State) (x : SiteArg) : Prop :=
  Forall (λ s, (s < next_obj σ)%nat) (flatten x).

(** The targets of the channels of the network are sites of the
    network. *)
Definition registered_targets (σ : State) : Prop :=
  ∀ c t, c ∈ chan_values σ → t ∈ targets σ c → t ∈ site_values σ.

(** What the loop keeps true of the channels of the network [σ] when it is
    at step [i] in the store [σ']: a resolved channel has a level between
    [0] and [i], above the levels of its sources and one below the level of
    its targets; the targets of a channel at [1000] are at [1000] too, or
    at [1001] once step [1000] has been reached. *)
Definition order_inv (σ : State) (i : Z) (σ' : State) : Prop :=
  levels_only σ σ'
  ∧ ∀ c, c ∈ chan_values σ →
      chan_level σ' c ≤ 1000
      ∧ (chan_level σ' c < 1000 →
         0 ≤ chan_level σ' c ≤ i
         ∧ (∀ s, s ∈ sources σ c → site_level σ' s ≤ chan_level σ' c)
         ∧ (∀ t, t ∈ targets σ c → site_level σ' t = chan_level σ' c + 1))
      ∧ (chan_level σ' c = 1000 →
         ∀ t, t ∈ targets σ c →
              site_level σ' t = 1000 ∨ (1000 ≤ i ∧ site_level σ' t = 1001)).

(** The store after [Network.site(k, create=True)] made a site for the
    unknown key [k]. *)
Definition site_registered (k : string) (σ : State) : State :=
  let new := next_obj σ in
  let id := "_s" +:+ str_of_int (n_site_ix (net σ) + 1) in
  mkState (<[new := mkSite id (Some (Some k)) (SubDict ∅) None 4000 None]>
             (site_heap σ))
          (chan_heap σ)
          (mkNetwork (n_spec (net σ)) (dict_set id new (n_sites (net σ)))
                     (n_channels (net σ)) (n_name (net σ))
                     (n_version (net σ)) (n_site_ix (net σ) + 1)
                     (n_channel_ix (net σ)))
          (S new).

(** Every source of a channel of the network is a site of the network. *)
Definition registered_sources (σ : State) : Prop :=
  ∀ c s, c ∈ chan_values σ → s ∈ sources σ c → s ∈ site_values σ.

(** Two stores hold the same graph: the same sites in the site mapping,
    the same channels in the channel mapping up to their order, the same
    producer for every site and, for every channel, the same targets and
    the same sources up to their order. *)
Definition same_graph (σ σ' : State) : Prop :=
  site_values σ' = site_values σ
  ∧ chan_values σ' ≡ₚ chan_values σ
  ∧ (∀ s, producer σ' s = producer σ s)
  ∧ (∀ c, targets σ' c = targets σ c ∧ sources σ' c ≡ₚ sources σ c).

(** Every site and every channel has the same level in both stores. *)
Definition same_levels (σ σ' : State) : Prop :=
  (∀ s, site_level σ' s = site_level σ s)
  ∧ (∀ c, chan_level σ' c = chan_level σ c).

(** [nw.compute_order(); nw.compute_order()]: the outcomes of the two
    calls. *)
Definition compute_order_twice (σ : State) : option (Outcome * Outcome) :=
  match compute_order σ with
  | Some out1 =>
      match compute_order (out_state out1) with
      | Some out2 => Some (out1, out2)
      | None => None
      end
  | None => None
  end.

(** The network [Network(site_ids=["a"])]: a chain of one site and no
    channel. *)
Definition single_site_example : State * result unit :=
  Network_init "IF0.2" None (Some ["a"]) None.
(** * Properties *)

(** ** Reading the store after a write *)

Lemma site_of_update_site a f σ b :
  site_of (update_site a f σ) b
  = if decide (a = b) then f (site_of σ a) else site_of σ b.
Proof.
  unfold site_of, update_site; simpl.
  destruct (decide (a = b)) as [->|Hne].
  - apply lookup_total_insert_eq.
  - by apply lookup_total_insert_ne.
Qed.

Lemma chan_of_update_chan a f σ b :
  chan_of (update_chan a f σ) b
  = if decide (a = b) then f (chan_of σ a) else chan_of σ b.
Proof.
  unfold chan_of, update_chan; simpl.
  destruct (decide (a = b)) as [->|Hne].
  - apply lookup_total_insert_eq.
  - by apply lookup_total_insert_ne.
Qed.

Lemma site_of_new h ch n k a (s : Site) :
  site_of (mkState (<[a := s]> h) ch n k) a = s.
Proof. apply lookup_total_insert_eq. Qed.

Lemma chan_of_new h sh n k a (c : Channel) :
  chan_of (mkState sh (<[a := c]> h) n k) a = c.
Proof. apply lookup_total_insert_eq. Qed.

Lemma site_of_update_chan a f σ b : site_of (update_chan a f σ) b = site_of σ b.
Proof. reflexivity. Qed.

Lemma chan_of_update_site a f σ b : chan_of (update_site a f σ) b = chan_of σ b.
Proof. reflexivity. Qed.

Lemma site_of_update_net f σ b : site_of (update_net f σ) b = site_of σ b.
Proof. reflexivity. Qed.

Lemma chan_of_update_net f σ b : chan_of (update_net f σ) b = chan_of σ b.
Proof. reflexivity. Qed.

(** ** Site *)

Section site_construction.
Variable σ : State.

(** The identity and the store a constructor call starts from once the
    identifier is drawn. *)
Let self := next_obj σ.

(** An unlabeled leaf answers its identifier. *)
Lemma label_of_unlabeled_leaf :
  ∃ σ', Site_init [] σ = (σ', Ok self)
        ∧ Site_label self σ' = (σ', Ok (s_id (site_of σ' self))).
Proof.
  eexists; split; [reflexivity|].
  unfold Site_label. by rewrite site_of_update_site, decide_True.
Qed.

(** A labeled leaf answers its label. *)
Lemma label_of_labeled_leaf l :
  ∃ σ', Site_init [VStr l] σ = (σ', Ok self)
        ∧ Site_label self σ' = (σ', Ok l).
Proof.
  eexists; split; [reflexivity|].
  unfold Site_label. by rewrite site_of_update_site, decide_True.
Qed.

(** The group branch of [__init__] is taken for one or more sites. *)
Lemma Site_init_group args :
  args ≠ [] → forallb is_site args = true →
  Site_init args σ
  = (do id <- next_site_ix;
     do self <- alloc_site id;
     do_ modify (λ σ,
           update_site self
             (with_sites
                (SubSet (list_to_set
                           (map (λ a, (s_id (site_of σ a), a))
                                (site_addrs args))))) σ);
     ret self) σ.
Proof.
  intros Hne Hall. unfold Site_init.
  destruct args as [|v args]; [done|].
  destruct v; try discriminate Hall.
  simpl in Hall. unfold bind at 1 2; simpl.
  unfold bind at 3 4; simpl.
  destruct args; simpl in *; by rewrite ?Hall.
Qed.

(** A group never gets a [label] attribute, so its label accessor raises;
    and it holds its children in a set of tuples, so no identifier is
    found in it. *)
Lemma group_site_accessors args :
  args ≠ [] → forallb is_site args = true →
  ∃ σ', Site_init args σ = (σ', Ok self)
        ∧ snd (Site_label self σ')
          = Raise (AttributeError "'Site' object has no attribute 'label'")
        ∧ ∀ id, ∃ msg, Site_site self id σ' = (σ', Raise (AttributeError msg)).
Proof.
  intros Hne Hall. rewrite Site_init_group by done.
  eexists; split; [reflexivity|]. split.
  - unfold Site_label. rewrite site_of_update_site, decide_True by done.
    by rewrite site_of_new.
  - intros id. unfold Site_site.
    rewrite site_of_update_site, decide_True by done. simpl. eauto.
Qed.
End site_construction.

(** C7, on the code: the group [Site(nw, a, b)] holds [(a.id, a)] and
    [(b.id, b)] as tuples of a set (as the repository's own test of group
    creation checks), and asking it for the child identifier ["_s0"] is
    answered by the not-found error instead of the child. *)
Example group_lookup_of_child_fails :
  snd group_example = Ok 2%nat
  ∧ s_sites (site_of (fst group_example) 2%nat)
    = SubSet {[ ("_s0", 0%nat); ("_s1", 1%nat) ]}
  ∧ s_id (site_of (fst group_example) 0%nat) = "_s0"
  ∧ snd (Site_site 2%nat "_s0" (fst group_example))
    = Raise (AttributeError "Site '_s2' does not contain the site '_s0'").
Proof. vm_compute. done. Qed.

(** C8, on the code: the label accessor of the group of the example raises
    instead of answering the identifier ["_s2"], while it answers the label
    of a labeled child. *)
Example group_label_raises :
  snd group_example = Ok 2%nat
  ∧ s_id (site_of (fst group_example) 2%nat) = "_s2"
  ∧ snd (Site_label 2%nat (fst group_example))
    = Raise (AttributeError "'Site' object has no attribute 'label'")
  ∧ snd (Site_label 0%nat (fst group_example)) = Ok "Site A".
Proof. vm_compute. done. Qed.

(** ** Channel *)

Lemma SiteArg_induction (P : SiteArg → Prop) :
  (∀ s, P (One s)) → (∀ l, Forall P l → P (Many l)) → ∀ x, P x.
Proof.
  intros Hone Hmany. fix IH 1. intros [s|l]; [apply Hone|apply Hmany].
  induction l as [|y l IHl]; constructor; [apply IH|apply IHl].
Qed.

Lemma bind_ext {A B} (m m' : M A) (k k' : A → M B) σ :
  m σ = m' σ → (∀ a σ', k a σ' = k' a σ') → bind m k σ = bind m' k' σ.
Proof.
  intros Hm Hk. unfold bind. rewrite Hm.
  destruct (m' σ) as [σ' [a|e]]; [apply Hk|done].
Qed.

Lemma for_each_app {A} (f : A → M unit) l1 l2 σ :
  for_each f (l1 ++ l2) σ
  = bind (for_each f l1) (λ _, for_each f l2) σ.
Proof.
  revert σ. induction l1 as [|x l1 IH]; intros σ; simpl; [done|].
  unfold bind in *. destruct (f x σ) as [σ' [[]|e]]; [apply IH|done].
Qed.

Lemma for_each_cons {A} (f : A → M unit) x l σ :
  for_each f (x :: l) σ = bind (f x) (λ _, for_each f l) σ.
Proof. reflexivity. Qed.

Lemma for_each_one {A} (f : A → M unit) x σ : for_each f [x] σ = f x σ.
Proof.
  simpl. unfold bind, ret. by destruct (f x σ) as [σ' [[]|e]].
Qed.

(** A list argument is processed site by site, in the order of [flatten]. *)
Lemma add_output_flatten self x σ :
  add_output self x σ
  = for_each (λ s, add_output self (One s)) (flatten x) σ.
Proof.
  revert σ. induction x as [s|l IH] using SiteArg_induction; intros σ.
  - symmetry. apply (for_each_one (λ s, add_output self (One s))).
  - simpl. induction IH as [|y l Hy _ IHl] in σ |- *; [done|].
    simpl. rewrite for_each_app. apply bind_ext; [apply Hy|].
    intros _ σ'. apply IHl.
Qed.

(** [discard_output] empties the target set of the site but leaves its
    producer in place: it assigns the attribute [_source] of the site. *)
Lemma discard_output_keeps_producer σ c s :
  s ∈ targets σ c →
  ∃ σ', discard_output c (One s) σ = (σ', Ok tt)
        ∧ (s ∉ targets σ' c)
        ∧ producer σ' s = producer σ s
        ∧ s_source (site_of σ' s) = Some VNone.
Proof.
  intros Hin. simpl. rewrite bool_decide_eq_true_2 by done.
  eexists; split; [reflexivity|]. unfold targets, producer.
  rewrite chan_of_update_chan, decide_True by done.
  rewrite site_of_update_chan, site_of_update_site, decide_True by done.
  simpl. split; [|done].
  intros [_ Hn]%elem_of_difference. apply Hn. by apply elem_of_singleton.
Qed.

(** C1, on the code: after [channel.discard_output(site2)] the site is out
    of the target set, but its producer is still the channel (object 2), and
    a new channel targeting it is refused with the single-producer
    exception. *)
Example discard_output_leaves_producer :
  let σ := fst discard_example in
  snd discard_example = Ok tt
  ∧ targets σ 2%nat = ∅
  ∧ producer σ 1%nat = Some 2%nat
  ∧ s_source (site_of σ 1%nat) = Some VNone
  ∧ snd (Channel_init (One 0%nat) (One 1%nat) None σ)
    = Raise (Exception_
               ("A site can only be the output of one channel. "
                +:+ "Source of Target Site is _c0: [Source Site] --> set()")).
Proof. vm_compute. done. Qed.

(** *** The single-producer check *)

Lemma append_assoc (a b c : string) : (a +:+ b) +:+ c = a +:+ b +:+ c.
Proof.
  induction a as [|x a IH]; [done|].
  change (String x ((a +:+ b) +:+ c) = String x (a +:+ b +:+ c)).
  by rewrite IH.
Qed.

(** Rendering sites reads the store and leaves it as it is. *)
Lemma Site_label_state s σ : fst (Site_label s σ) = σ.
Proof. unfold Site_label. by destruct (s_label (site_of σ s)) as [[l|]|]. Qed.

Lemma map_M_repr_state l σ : fst (map_M Site_repr l σ) = σ.
Proof.
  induction l as [|s l IH]; simpl; [done|]. unfold bind.
  pose proof (Site_label_state s σ) as Hs. unfold Site_repr in *.
  destruct (Site_label s σ) as [σ1 [r|e]]; simpl in Hs; subst σ1; [|done].
  destruct (map_M Site_label l σ) as [σ2 [rs|e]]; simpl in IH; by subst σ2.
Qed.

Lemma Site_label_ok s σ :
  has_label σ s → ∃ r, Site_label s σ = (σ, Ok r).
Proof.
  intros [l Hl]. unfold Site_label. rewrite Hl. destruct l; eauto.
Qed.

Lemma map_M_repr_ok l σ :
  Forall (has_label σ) l → ∃ rs, map_M Site_repr l σ = (σ, Ok rs).
Proof.
  induction 1 as [|s l Hs _ [rs IH]]; simpl; [by eexists|].
  destruct (Site_label_ok s σ Hs) as [r Hr].
  unfold bind, Site_repr in *. rewrite Hr, IH. by eexists.
Qed.

Lemma Channel_str_state c σ : fst (Channel_str c σ) = σ.
Proof.
  unfold Channel_str, bind, gets; simpl.
  pose proof (map_M_repr_state (c_source (chan_of σ c)) σ) as H1.
  destruct (map_M Site_repr (c_source (chan_of σ c)) σ) as [σ1 [r1|e]];
    simpl in H1; subst σ1; [|done].
  pose proof (map_M_repr_state (elements (c_target (chan_of σ c))) σ) as H2.
  destruct (map_M Site_repr (elements (c_target (chan_of σ c))) σ)
    as [σ2 [r2|e]]; simpl in H2; by subst σ2.
Qed.

Lemma Channel_str_ok c σ :
  Forall (has_label σ) (endpoints σ c) →
  ∃ rest, Channel_str c σ = (σ, Ok (c_id (chan_of σ c) +:+ rest)).
Proof.
  intros [Hs Ht]%Forall_app.
  destruct (map_M_repr_ok _ _ Hs) as [r1 H1].
  destruct (map_M_repr_ok _ _ Ht) as [r2 H2].
  unfold Channel_str, bind, gets; simpl.
  unfold sources in H1; unfold targets in H2. rewrite H1, H2. by eexists.
Qed.

(** The check always ends in an exception and writes nothing; with labels
    on the site and on the endpoints of its producer it is the
    single-producer exception, and its message names the producer. *)
Lemma producer_conflict_raises s p σ :
  ∃ e, producer_conflict s p σ = (σ, Raise e)
       ∧ (has_label σ s → Forall (has_label σ) (endpoints σ p) →
          ∃ msg, e = Exception_ msg ∧ mentions msg (c_id (chan_of σ p))).
Proof.
  unfold producer_conflict, bind, Site_str.
  pose proof (Site_label_state s σ) as Hs.
  destruct (Site_label s σ) as [σ1 [r|e]] eqn:Hlab; simpl in Hs; subst σ1.
  - pose proof (Channel_str_state p σ) as Hp.
    destruct (Channel_str p σ) as [σ2 [r'|e]] eqn:Hstr; simpl in Hp; subst σ2.
    + eexists; split; [reflexivity|]. intros _ Hends.
      destruct (Channel_str_ok p σ Hends) as [rest Hrest].
      rewrite Hrest in Hstr. injection Hstr as <-.
      eexists; split; [reflexivity|].
      exists ("A site can only be the output of one channel. Source of "
              +:+ r +:+ " is "), rest.
      by rewrite !append_assoc.
    + eexists; split; [reflexivity|]. intros _ Hends.
      destruct (Channel_str_ok p σ Hends) as [rest Hrest]. congruence.
  - eexists; split; [reflexivity|]. intros Hl.
    destruct (Site_label_ok s σ Hl) as [r Hr]. congruence.
Qed.

Lemma add_output_one self s σ :
  add_output self (One s) σ
  = match producer σ s with
    | Some p =>
        if decide (p = self) then
          (update_chan self (with_c_target ({[s]} ∪ targets σ self))
             (update_site s (with_producer (Some self)) σ), Ok tt)
        else producer_conflict s p σ
    | None =>
        (update_chan self (with_c_target ({[s]} ∪ targets σ self))
           (update_site s (with_producer (Some self)) σ), Ok tt)
    end.
Proof. simpl. by destruct (producer σ s). Qed.

(** Sites that are free, or already produced by the channel, are taken one
    after the other. *)
Lemma add_output_free self pre σ :
  Forall (λ t, producer σ t = None ∨ producer σ t = Some self) pre →
  ∃ σ1, for_each (λ s, add_output self (One s)) pre σ = (σ1, Ok tt)
        ∧ net σ1 = net σ
        ∧ (∀ t, t ∉ pre → site_of σ1 t = site_of σ t)
        ∧ (∀ t, t ∈ pre →
                site_of σ1 t = with_producer (Some self) (site_of σ t))
        ∧ (∀ c, c ≠ self → chan_of σ1 c = chan_of σ c).
Proof.
  revert σ. induction pre as [|x pre IH]; intros σ Hfree.
  - exists σ. repeat split; try done. intros t Ht. by apply elem_of_nil in Ht.
  - apply Forall_cons in Hfree as [Hx Hfree].
    set (σ' := update_chan self (with_c_target ({[x]} ∪ targets σ self))
                 (update_site x (with_producer (Some self)) σ)).
    assert (Hstep : add_output self (One x) σ = (σ', Ok tt)).
    { rewrite add_output_one.
      destruct Hx as [-> | ->]; [done|]. by rewrite decide_True. }
    assert (Hsite : ∀ t, site_of σ' t
                         = if decide (x = t)
                           then with_producer (Some self) (site_of σ x)
                           else site_of σ t).
    { intros t. unfold σ'.
      by rewrite site_of_update_chan, site_of_update_site. }
    destruct (IH σ') as (σ1 & Hrun & Hnet & Hout & Hin & Hchan).
    { eapply Forall_impl; [exact Hfree|]. intros t Ht. unfold producer.
      rewrite Hsite. destruct (decide (x = t)); [by right|exact Ht]. }
    exists σ1. split; [|split; [|split; [|split]]].
    + rewrite for_each_cons. unfold bind. cbv beta. by rewrite Hstep.
    + by rewrite Hnet.
    + intros t Ht. apply not_elem_of_cons in Ht as [Hne Ht].
      rewrite Hout, Hsite by done. by rewrite decide_False.
    + intros t Ht. destruct (decide (t ∈ pre)) as [Hpre|Hpre].
      * rewrite Hin, Hsite by done. by destruct (decide (x = t)) as [->|].
      * apply elem_of_cons in Ht as [->|Ht]; [|done].
        rewrite Hout, Hsite by done. by rewrite decide_True.
    + intros c Hc. rewrite Hchan by done. unfold σ'.
      rewrite chan_of_update_chan, decide_False by done. done.
Qed.

(** The target set of the channel after it took the sites. *)
Lemma add_output_takes self l σ :
  Forall (λ t, producer σ t = None ∨ producer σ t = Some self) l →
  ∃ σ1, for_each (λ s, add_output self (One s)) l σ = (σ1, Ok tt)
        ∧ chan_of σ1 self
          = with_c_target (list_to_set l ∪ targets σ self) (chan_of σ self)
        ∧ net σ1 = net σ
        ∧ (∀ t, t ∉ l → site_of σ1 t = site_of σ t)
        ∧ (∀ t, t ∈ l → site_of σ1 t = with_producer (Some self) (site_of σ t))
        ∧ (∀ c, c ≠ self → chan_of σ1 c = chan_of σ c).
Proof.
  intros Hfree.
  destruct (add_output_free self l σ Hfree) as (σ1 & Hrun & Hnet & Hout & Hin & Hc).
  exists σ1. split; [done|]. split; [|done].
  clear Hnet Hout Hin Hc. revert σ σ1 Hfree Hrun.
  induction l as [|x l IH]; intros σ σ1 Hfree Hrun.
  - simpl in Hrun. injection Hrun as <-. unfold with_c_target, targets.
    rewrite list_to_set_nil, (left_id_L ∅ (∪)). by destruct (chan_of σ self).
  - apply Forall_cons in Hfree as [Hx Hfree].
    rewrite for_each_cons in Hrun. unfold bind in Hrun.
    rewrite add_output_one in Hrun.
    set (σ' := update_chan self (with_c_target ({[x]} ∪ targets σ self))
                 (update_site x (with_producer (Some self)) σ)) in *.
    assert (Hstep : for_each (λ s, add_output self (One s)) l σ' = (σ1, Ok tt)).
    { destruct Hx as [Hx|Hx]; rewrite Hx in Hrun; [done|].
      by rewrite decide_True in Hrun. }
    assert (Hself : chan_of σ' self
                    = with_c_target ({[x]} ∪ targets σ self) (chan_of σ self)).
    { unfold σ'. by rewrite chan_of_update_chan, decide_True. }
    rewrite (IH σ' σ1); [|..|exact Hstep].
    + unfold targets. rewrite Hself. unfold with_c_target; simpl.
      f_equal. set_solver.
    + eapply Forall_impl; [exact Hfree|]. intros t Ht. unfold producer, σ'.
      rewrite site_of_update_chan, site_of_update_site.
      destruct (decide (x = t)); [by right|exact Ht].
Qed.

Lemma add_input_frame self x σ :
  ∃ σ', add_input self x σ = (σ', Ok tt)
        ∧ site_heap σ' = site_heap σ ∧ net σ' = net σ
        ∧ next_obj σ' = next_obj σ
        ∧ ∀ c, c ≠ self → chan_of σ' c = chan_of σ c.
Proof.
  revert σ. induction x as [s|l IH] using SiteArg_induction; intros σ.
  - simpl. case_bool_decide; eexists; (split; [reflexivity|]);
      repeat split; try done.
    intros c Hc. by rewrite chan_of_update_chan, decide_False.
  - simpl. induction IH as [|y l Hy _ IHl] in σ |- *.
    + exists σ. by repeat split.
    + destruct (Hy σ) as (σ1 & Hrun1 & Hs1 & Hn1 & Ho1 & Hc1).
      destruct (IHl σ1) as (σ2 & Hrun2 & Hs2 & Hn2 & Ho2 & Hc2).
      exists σ2. simpl. unfold bind. rewrite Hrun1, Hrun2.
      repeat split; try congruence.
      intros c Hc. by rewrite Hc2, Hc1.
Qed.

Lemma Channel_init_steps source target label σ :
  Channel_init source target label σ
  = match add_input (next_obj σ) source (channel_created label σ) with
    | (σ1, Ok _) =>
        match add_output (next_obj σ) target σ1 with
        | (σ2, Ok _) => (set_chan_level (next_obj σ) (-1) σ2, Ok (next_obj σ))
        | (σ2, Raise e) => (σ2, Raise e)
        end
    | (σ1, Raise e) => (σ1, Raise e)
    end.
Proof.
  unfold Channel_init, bind, channel_created; simpl.
  destruct (add_input _ _ _) as [σ1 [[]|e]]; [|done].
  by destruct (add_output _ _ _) as [σ2 [[]|e]].
Qed.

(** C2, as the code has it. A channel [c2] that reaches, in the argument of
    [add_output], a site [s] produced by another channel [c1] after only
    sites that are free or its own, fails there: the producer of [s] is
    still [c1], the network and every other channel are as before, and the
    message names [c1] when the sites involved carry a label. The sites
    before [s] have been taken by [c2] and stay so: each has [c2] as its
    producer and the target set of [c2] has grown by exactly these sites,
    while its identifier, label, sources and level are as before; with
    none before [s] the store is unchanged. Constructing a new channel with the single
    target [s] fails in the same way and leaves every site, both mappings
    and every existing channel as they were. *)
Theorem second_producer_refused :
  (∀ σ c1 c2 x pre s post,
     flatten x = pre ++ s :: post →
     Forall (λ t, producer σ t = None ∨ producer σ t = Some c2) pre →
     producer σ s = Some c1 → c1 ≠ c2 →
     ∃ σ' e, add_output c2 x σ = (σ', Raise e)
       ∧ producer σ' s = Some c1
       ∧ net σ' = net σ
       ∧ (∀ t, t ∉ pre → site_of σ' t = site_of σ t)
       ∧ (∀ t, t ∈ pre →
               site_of σ' t = with_producer (Some c2) (site_of σ t))
       ∧ (∀ c, c ≠ c2 → chan_of σ' c = chan_of σ c)
       ∧ chan_of σ' c2
         = with_c_target (list_to_set pre ∪ targets σ c2) (chan_of σ c2)
       ∧ (pre = [] → σ' = σ)
       ∧ (has_label σ s → Forall (has_label σ) (endpoints σ c1) →
          ∃ msg, e = Exception_ msg ∧ mentions msg (c_id (chan_of σ c1))))
  ∧ (∀ σ c1 source s label,
       producer σ s = Some c1 → c1 ≠ next_obj σ →
       ∃ σ' e, Channel_init source (One s) label σ = (σ', Raise e)
         ∧ site_heap σ' = site_heap σ
         ∧ n_sites (net σ') = n_sites (net σ)
         ∧ n_channels (net σ') = n_channels (net σ)
         ∧ (∀ c, c ≠ next_obj σ → chan_of σ' c = chan_of σ c)
         ∧ (has_label σ s → Forall (has_label σ) (endpoints σ c1) →
            ∃ msg, e = Exception_ msg ∧ mentions msg (c_id (chan_of σ c1)))).
Proof.
  split.
  - intros σ c1 c2 x pre s post Hflat Hfree Hprod Hne.
    assert (Hs : s ∉ pre).
    { intros Hin. rewrite Forall_forall in Hfree.
      destruct (Hfree s Hin); congruence. }
    destruct (add_output_takes c2 pre σ Hfree)
      as (σ1 & Hrun & Hself & Hnet & Hout & Hin & Hchan).
    assert (Hprod1 : producer σ1 s = Some c1).
    { unfold producer. by rewrite Hout. }
    destruct (producer_conflict_raises s c1 σ1) as (e & Hraise & Hmsg).
    exists σ1, e.
    split; [|split; [exact Hprod1|split; [exact Hnet|split; [exact Hout|
      split; [exact Hin|split; [exact Hchan|split; [exact Hself|split]]]]]]].
    + rewrite add_output_flatten, Hflat, for_each_app. unfold bind.
      rewrite Hrun, for_each_cons. unfold bind. cbv beta.
      rewrite add_output_one, Hprod1, decide_False by done.
      by rewrite Hraise.
    + intros ->. simpl in Hrun. by injection Hrun.
    + intros Hl Hends.
      assert (Hlab : ∀ t, has_label σ t → has_label σ1 t).
      { intros t. unfold has_label. destruct (decide (t ∈ pre)).
        - by rewrite Hin.
        - by rewrite Hout. }
      assert (Hc1 : chan_of σ1 c1 = chan_of σ c1) by by apply Hchan.
      rewrite <- Hc1. apply Hmsg; [by apply Hlab|].
      unfold endpoints, sources, targets. rewrite Hc1.
      eapply Forall_impl; [exact Hends|]. exact Hlab.
  - intros σ c1 source s label Hprod Hne.
    rewrite Channel_init_steps.
    destruct (add_input_frame (next_obj σ) source (channel_created label σ))
      as (σc & Hrun & Hsites & Hnet & _ & Hchan).
    rewrite Hrun.
    assert (Hprodc : producer σc s = Some c1).
    { unfold producer, site_of. by rewrite Hsites. }
    assert (Hc1 : chan_of σc c1 = chan_of σ c1).
    { rewrite Hchan by done. unfold chan_of, channel_created; simpl.
      by rewrite lookup_total_insert_ne. }
    destruct (producer_conflict_raises s c1 σc) as (e & Hraise & Hmsg).
    exists σc, e.
    rewrite add_output_one, Hprodc, decide_False, Hraise by done.
    split; [done|]. split; [done|]. rewrite Hnet.
    split; [done|]. split; [done|]. split.
    + intros c Hc. rewrite Hchan by done. unfold chan_of, channel_created; simpl.
      by rewrite lookup_total_insert_ne.
    + intros Hl Hends. rewrite <- Hc1. apply Hmsg.
      * unfold has_label, site_of in *. by rewrite Hsites.
      * unfold endpoints, sources, targets. rewrite Hc1.
        eapply Forall_impl; [exact Hends|].
        intros t. unfold has_label, site_of. by rewrite Hsites.
Qed.

Lemma second_producer_refused_witness :
  let σ := fst conflict_example in
  (flatten (Many [One 1; One 2]) = [1] ++ 2 :: [])%nat
  ∧ producer σ 2%nat = Some 3%nat
  ∧ ∃ σ' e, add_output 4%nat (Many [One 1%nat; One 2%nat]) σ = (σ', Raise e)
            ∧ producer σ' 2%nat = Some 3%nat
            ∧ chan_of σ' 4%nat
              = with_c_target (list_to_set [1%nat] ∪ targets σ 4%nat)
                              (chan_of σ 4%nat)
            ∧ ∃ msg, e = Exception_ msg ∧ mentions msg "_c0".
Proof.
  intros σ. split; [reflexivity|]. split; [vm_compute; reflexivity|].
  destruct (proj1 second_producer_refused σ 3%nat 4%nat
              (Many [One 1%nat; One 2%nat]) [1%nat] 2%nat [])
    as (σ' & e & Hrun & Hprod & _ & _ & _ & _ & Hself & _ & Hmsg).
  - reflexivity.
  - constructor; [left; vm_compute; reflexivity|constructor].
  - vm_compute; reflexivity.
  - discriminate.
  - exists σ', e. split; [exact Hrun|]. split; [exact Hprod|].
    split; [exact Hself|].
    apply Hmsg.
    + vm_compute. eauto.
    + repeat constructor; vm_compute; eauto.
Defined.

(** C2 fails as stated: in the network of [conflict_example], channel 4
    is asked to produce the list [[B, S]] while [S] is produced by channel
    3. The call raises at [S], but [B], which had no producer before, is
    now produced by channel 4 and sits in its target set. *)
Lemma conflict_in_list_modifies_graph :
  let σ := fst conflict_example in
  let r := add_output 4%nat (Many [One 1%nat; One 2%nat]) σ in
  producer σ 2%nat = Some 3%nat
  ∧ snd r = Raise (Exception_
                     ("A site can only be the output of one channel. "
                      +:+ "Source of S is _c0: [A] --> {S}"))
  ∧ producer (fst r) 2%nat = Some 3%nat
  ∧ producer σ 1%nat = None ∧ producer (fst r) 1%nat = Some 4%nat
  ∧ targets σ 4%nat = ∅ ∧ targets (fst r) 4%nat = {[1%nat]}.
Proof. vm_compute. done. Qed.

(** ** Network: lookup and creation *)

(** C10. A call of [Network.site] whose arguments are not a single string
    returns [None] and changes nothing; so does a call of
    [Network.channel] whose arguments are neither a single string nor two
    in number. *)
Theorem unmatched_calls_return_None (args : list PyVal) :
  (∀ k, args ≠ [VStr k]) →
  (∀ create σ, Network_site args create σ = (σ, Ok VNone))
  ∧ (length args ≠ 2%nat →
     ∃ m, Network_channel args = Some m ∧ ∀ σ, m σ = (σ, Ok VNone)).
Proof.
  intros Hshape. split.
  - intros create σ. destruct args as [|[] [|]]; try done.
    by destruct (Hshape s).
  - intros Hlen. exists (ret VNone). split; [|done].
    destruct args as [|v [|w [|p l]]]; try done; destruct v; try done.
    by destruct (Hshape s).
Qed.

Lemma unmatched_calls_return_None_witness :
  (∀ k, [VInt 1; VInt 2; VInt 3] ≠ [VStr k])
  ∧ (∀ create σ,
       Network_site [VInt 1; VInt 2; VInt 3] create σ = (σ, Ok VNone))
  ∧ ∃ m, Network_channel [VInt 1; VInt 2; VInt 3] = Some m
         ∧ ∀ σ, m σ = (σ, Ok VNone).
Proof.
  assert (Hshape : ∀ k, [VInt 1; VInt 2; VInt 3] ≠ [VStr k]) by done.
  split; [exact Hshape|].
  destruct (unmatched_calls_return_None _ Hshape) as [Hsite Hchan].
  split; [exact Hsite|]. apply Hchan. simpl. lia.
Defined.

(** ** The levelling pass *)

(** *** Writes of levels *)

Lemma site_level_set_site_level a l σ b :
  site_level (set_site_level a l σ) b
  = if decide (a = b) then l else site_level σ b.
Proof.
  unfold site_level, set_site_level. rewrite site_of_update_site.
  by destruct (decide (a = b)).
Qed.

Lemma chan_level_set_chan_level a l σ b :
  chan_level (set_chan_level a l σ) b
  = if decide (a = b) then l else chan_level σ b.
Proof.
  unfold chan_level, set_chan_level. rewrite chan_of_update_chan.
  by destruct (decide (a = b)).
Qed.

Lemma levels_only_refl σ : levels_only σ σ.
Proof. by repeat split. Qed.

Lemma levels_only_trans σ1 σ2 σ3 :
  levels_only σ1 σ2 → levels_only σ2 σ3 → levels_only σ1 σ3.
Proof.
  intros (Hn & Hs & Hc) (Hn' & Hs' & Hc'). repeat split.
  - congruence.
  - intros a. by rewrite Hs', Hs.
  - intros c. by rewrite Hc', Hc.
Qed.

Lemma levels_only_set_site_level a l σ : levels_only σ (set_site_level a l σ).
Proof.
  repeat split. intros b. unfold set_site_level.
  rewrite site_of_update_site. by destruct (decide (a = b)) as [->|].
Qed.

Lemma levels_only_set_chan_level a l σ : levels_only σ (set_chan_level a l σ).
Proof.
  repeat split. intros b. unfold set_chan_level.
  rewrite chan_of_update_chan. by destruct (decide (a = b)) as [->|].
Qed.

Lemma levels_only_foldl {A} (f : State → A → State) l σ :
  (∀ σ x, levels_only σ (f σ x)) → levels_only σ (foldl f σ l).
Proof.
  intros Hf. revert σ. induction l as [|x l IH]; intros σ; simpl.
  - apply levels_only_refl.
  - eapply levels_only_trans; [apply Hf|apply IH].
Qed.

Section levels_only_facts.
Context {σ σ' : State} (H : levels_only σ σ').

Lemma levels_only_producer s : producer σ' s = producer σ s.
Proof.
  destruct H as (_ & Hs & _). exact (f_equal s_producer (Hs s)).
Qed.

Lemma levels_only_sources c : sources σ' c = sources σ c.
Proof.
  destruct H as (_ & _ & Hc). exact (f_equal c_source (Hc c)).
Qed.

Lemma levels_only_targets c : targets σ' c = targets σ c.
Proof.
  destruct H as (_ & _ & Hc). exact (f_equal c_target (Hc c)).
Qed.

Lemma levels_only_chan_values : chan_values σ' = chan_values σ.
Proof. destruct H as (Hn & _). unfold chan_values. by rewrite Hn. Qed.

Lemma levels_only_site_values : site_values σ' = site_values σ.
Proof. destruct H as (Hn & _). unfold site_values. by rewrite Hn. Qed.

Lemma levels_only_channel_count : channel_count σ' = channel_count σ.
Proof. destruct H as (Hn & _). unfold channel_count. by rewrite Hn. Qed.

Lemma levels_only_has_label s : has_label σ' s ↔ has_label σ s.
Proof.
  destruct H as (_ & Hs & _). unfold has_label.
  pose proof (f_equal s_label (Hs s)) as Hl. simpl in Hl. by rewrite Hl.
Qed.

Lemma levels_only_reset_level s : reset_level σ' s = reset_level σ s.
Proof. unfold reset_level. by rewrite levels_only_producer. Qed.

End levels_only_facts.

(** *** The reset *)

Lemma reset_site_eq σ s : reset_site σ s = set_site_level s (reset_level σ s) σ.
Proof. unfold reset_site, reset_level. by destruct (producer σ s). Qed.

Lemma levels_only_reset_site σ s : levels_only σ (reset_site σ s).
Proof. rewrite reset_site_eq. apply levels_only_set_site_level. Qed.

Lemma reset_sites_spec l σ :
  levels_only σ (foldl reset_site σ l)
  ∧ (∀ c, chan_level (foldl reset_site σ l) c = chan_level σ c)
  ∧ ∀ b, site_level (foldl reset_site σ l) b
         = if decide (b ∈ l) then reset_level σ b else site_level σ b.
Proof.
  split; [apply levels_only_foldl, levels_only_reset_site|].
  revert σ. induction l as [|x l IH]; intros σ; cbn [foldl].
  - split; [done|]. intros b.
    case_decide as Hb; [by apply elem_of_nil in Hb|done].
  - destruct (IH (reset_site σ x)) as [Hc Hs]. split.
    + intros c. rewrite Hc. by rewrite reset_site_eq.
    + intros b. rewrite Hs.
      rewrite (levels_only_reset_level (levels_only_reset_site σ x)).
      rewrite reset_site_eq, site_level_set_site_level.
      destruct (decide (b ∈ l)), (decide (x = b)) as [->|];
        repeat case_decide; set_solver.
Qed.

Lemma levels_only_seed_source σ s : levels_only σ (seed_source σ s).
Proof. apply levels_only_set_site_level. Qed.

Lemma seed_sources_spec l σ :
  levels_only σ (foldl seed_source σ l)
  ∧ (∀ c, chan_level (foldl seed_source σ l) c = chan_level σ c)
  ∧ ∀ b, site_level (foldl seed_source σ l) b
         = if decide (site_level σ b = -1 ∧ b ∈ l) then 0
           else site_level σ b.
Proof.
  split; [apply levels_only_foldl, levels_only_seed_source|].
  revert σ. induction l as [|x l IH]; intros σ; cbn [foldl].
  - split; [done|]. intros b.
    case_decide as Hb; [|done]. destruct Hb as [_ Hb]. by apply elem_of_nil in Hb.
  - destruct (IH (seed_source σ x)) as [Hc Hs]. split.
    + intros c. by rewrite Hc.
    + intros b. rewrite Hs. unfold seed_source.
      rewrite site_level_set_site_level.
      destruct (decide (x = b)) as [->|Hne].
      * destruct (Z.eqb_spec (site_level σ b) (-1)) as [Heq|Hneq].
        -- rewrite decide_False by (intros [? _]; lia).
           rewrite decide_True; [done|]. split; [done|]. by left.
        -- rewrite decide_False by tauto. by rewrite decide_False by tauto.
      * repeat case_decide; try done; exfalso; set_solver.
Qed.

Lemma reset_channel_spec σ c :
  levels_only σ (reset_channel σ c)
  ∧ (∀ d, chan_level (reset_channel σ c) d
          = if decide (c = d) then 1000 else chan_level σ d)
  ∧ ∀ b, site_level (reset_channel σ c) b
         = if decide (site_level σ b = -1 ∧ b ∈ sources σ c) then 0
           else site_level σ b.
Proof.
  unfold reset_channel.
  destruct (seed_sources_spec (sources (set_chan_level c 1000 σ) c)
              (set_chan_level c 1000 σ)) as (Hl & Hc & Hs).
  split; [|split].
  - eapply levels_only_trans; [apply levels_only_set_chan_level|exact Hl].
  - intros d. by rewrite Hc, chan_level_set_chan_level.
  - intros b. rewrite Hs.
    by rewrite (levels_only_sources (levels_only_set_chan_level c 1000 σ)).
Qed.

Lemma reset_channels_spec cs σ :
  levels_only σ (foldl reset_channel σ cs)
  ∧ (∀ d, chan_level (foldl reset_channel σ cs) d
          = if decide (d ∈ cs) then 1000 else chan_level σ d)
  ∧ ∀ b, site_level (foldl reset_channel σ cs) b
         = if decide (site_level σ b = -1 ∧ Exists (λ c, b ∈ sources σ c) cs)
           then 0 else site_level σ b.
Proof.
  split; [apply levels_only_foldl; intros; apply reset_channel_spec|].
  revert σ. induction cs as [|c cs IH]; intros σ; cbn [foldl].
  - split.
    + intros d. case_decide as Hd; [by apply elem_of_nil in Hd|done].
    + intros b. case_decide as Hb; [|done].
      destruct Hb as [_ Hex]. by apply Exists_nil in Hex.
  - destruct (reset_channel_spec σ c) as (Hl & Hc1 & Hs1).
    destruct (IH (reset_channel σ c)) as [Hc Hs]. split.
    + intros d. rewrite Hc, Hc1.
      destruct (decide (c = d)) as [->|];
        repeat case_decide; try done; exfalso; set_solver.
    + intros b. rewrite Hs, Hs1.
      assert (Hex : Exists (λ c0, b ∈ sources (reset_channel σ c) c0) cs
                    ↔ Exists (λ c0, b ∈ sources σ c0) cs).
      { apply Exists_proper; [|done]. intros d.
        by rewrite (levels_only_sources Hl). }
      destruct (decide (site_level σ b = -1 ∧ b ∈ sources σ c)) as [[? ?]|Hn].
      * rewrite decide_False by (intros [? _]; lia).
        rewrite decide_True; [done|]. split; [done|]. by apply Exists_cons_hd.
      * repeat case_decide; try done; exfalso;
          rewrite ?Exists_cons in *; tauto.
Qed.

Lemma reset_order_spec σ :
  levels_only σ (reset_order σ)
  ∧ (∀ d, chan_level (reset_order σ) d
          = if decide (d ∈ chan_values σ) then 1000 else chan_level σ d)
  ∧ ∀ b, site_level (reset_order σ) b = level_after_reset σ b.
Proof.
  unfold reset_order.
  destruct (reset_sites_spec (site_values σ) σ) as (Hl1 & Hc1 & Hs1).
  destruct (reset_channels_spec (chan_values σ)
              (foldl reset_site σ (site_values σ))) as (Hl2 & Hc2 & Hs2).
  split; [by eapply levels_only_trans|]. split.
  - intros d. by rewrite Hc2, Hc1.
  - intros b. rewrite Hs2, Hs1. unfold level_after_reset, is_source.
    assert (Hex : Exists (λ c, b ∈ sources (foldl reset_site σ (site_values σ)) c)
                    (chan_values σ)
                  ↔ Exists (λ c, b ∈ sources σ c) (chan_values σ)).
    { apply Exists_proper; [|done]. intros d.
      by rewrite (levels_only_sources Hl1). }
    repeat case_decide; try done; exfalso; tauto.
Qed.

(** *** One visit *)

Lemma promote_list_spec lvl l σ :
  levels_only σ (foldl (λ σ s, set_site_level s lvl σ) σ l)
  ∧ (∀ d, chan_level (foldl (λ σ s, set_site_level s lvl σ) σ l) d
          = chan_level σ d)
  ∧ ∀ b, site_level (foldl (λ σ s, set_site_level s lvl σ) σ l) b
         = if decide (b ∈ l) then lvl else site_level σ b.
Proof.
  split; [apply levels_only_foldl; intros; apply levels_only_set_site_level|].
  revert σ. induction l as [|x l IH]; intros σ; cbn [foldl].
  - split; [done|]. intros b.
    case_decide as Hb; [by apply elem_of_nil in Hb|done].
  - destruct (IH (set_site_level x lvl σ)) as [Hc Hs]. split.
    + intros d. by rewrite Hc.
    + intros b. rewrite Hs, site_level_set_site_level.
      destruct (decide (x = b)) as [->|Hne].
      * rewrite (decide_True (P := b ∈ b :: l)) by by left.
        by case_decide.
      * repeat case_decide; try done; exfalso;
          rewrite ?elem_of_cons in *; intuition congruence.
Qed.

Lemma resolve_spec i c σ :
  levels_only σ (resolve i c σ)
  ∧ (∀ d, chan_level (resolve i c σ) d
          = if decide (c = d) then i else chan_level σ d)
  ∧ ∀ b, site_level (resolve i c σ) b
         = if decide (b ∈ targets σ c) then i + 1 else site_level σ b.
Proof.
  unfold resolve, promote.
  pose proof (levels_only_set_chan_level c i σ) as Hl.
  destruct (promote_list_spec (i + 1)
              (elements (targets (set_chan_level c i σ) c))
              (set_chan_level c i σ)) as (Hl' & Hc & Hs).
  split; [by eapply levels_only_trans|]. split.
  - intros d. by rewrite Hc, chan_level_set_chan_level.
  - intros b. rewrite Hs, (levels_only_targets Hl).
    repeat case_decide; try done; exfalso;
      rewrite ?elem_of_elements in *; tauto.
Qed.

Lemma visit_eq i d σ c :
  visit i (d, σ) c = if fires i σ c then (false, resolve i c σ) else (d, σ).
Proof.
  unfold visit, fires, resolve.
  destruct (chan_level σ c <? i); [done|].
  by destruct (existsb _ _).
Qed.

Lemma levels_only_visits i l d σ :
  levels_only σ (snd (foldl (visit i) (d, σ) l)).
Proof.
  revert d σ. induction l as [|c l IH]; intros d σ; cbn [foldl].
  - apply levels_only_refl.
  - rewrite visit_eq. destruct (fires i σ c); [|apply IH].
    eapply levels_only_trans; [apply resolve_spec|apply IH].
Qed.

(** A loop over the channels that ends with the flag still set has
    resolved nothing and written nothing. *)
Lemma quiet_visits i l d σ :
  fst (foldl (visit i) (d, σ) l) = true →
  d = true ∧ snd (foldl (visit i) (d, σ) l) = σ
  ∧ Forall (λ c, fires i σ c = false) l.
Proof.
  revert d σ. induction l as [|c l IH]; intros d σ; cbn [foldl].
  - simpl. intros ->. by repeat split.
  - rewrite visit_eq. destruct (fires i σ c) eqn:Hf.
    + intros Hq. by destruct (IH _ _ Hq) as [? _].
    + intros Hq. destruct (IH _ _ Hq) as (-> & Hs & Hall).
      split; [done|]. split; [done|]. by constructor.
Qed.

Lemma levels_only_pass i σ : levels_only σ (snd (pass i σ)).
Proof. apply levels_only_visits. Qed.

(** *** The loop *)

Lemma relax_unfold fuel done i σ :
  relax fuel done i σ
  = if negb done && (i <? channel_count σ + 10) then
      match fuel with
      | O => None
      | S fuel' => relax fuel' (fst (pass i σ)) (i + 1) (snd (pass i σ))
      end
    else Some (i, σ).
Proof. destruct fuel; simpl; [done|]. by destruct (pass i σ). Qed.

Lemma relax_returns fuel done i σ :
  channel_count σ + 10 - i ≤ Z.of_nat fuel →
  ∃ r, relax fuel done i σ = Some r.
Proof.
  revert done i σ. induction fuel as [|fuel IH]; intros done i σ Hfuel;
    rewrite relax_unfold.
  - destruct done; simpl; [by eexists|].
    destruct (Z.ltb_spec i (channel_count σ + 10)); [lia|by eexists].
  - destruct (negb done && _); [|by eexists]. apply IH.
    rewrite (levels_only_channel_count (levels_only_pass i σ)). lia.
Qed.

Lemma relax_fuel fuel fuel' done i σ r r' :
  relax fuel done i σ = Some r → relax fuel' done i σ = Some r' → r = r'.
Proof.
  revert fuel' done i σ. induction fuel as [|fuel IH];
    intros fuel' done i σ H1 H2;
    rewrite relax_unfold in H1; rewrite relax_unfold in H2;
    destruct (negb done && _); try congruence;
    destruct fuel'; try congruence.
  by eapply IH.
Qed.

Lemma relax_bounds fuel done i σ j σ' :
  relax fuel done i σ = Some (j, σ') →
  i ≤ j ∧ j ≤ Z.max i (channel_count σ + 10) ∧ levels_only σ σ'.
Proof.
  revert done i σ. induction fuel as [|fuel IH]; intros done i σ;
    rewrite relax_unfold.
  - destruct (negb done && _); [done|]. intros [= <- <-].
    split; [lia|]. split; [lia|apply levels_only_refl].
  - destruct (negb done && _) eqn:Hcond.
    + intros Hrun. apply IH in Hrun as (Hle & Hcap & Hl).
      rewrite (levels_only_channel_count (levels_only_pass i σ)) in Hcap.
      apply andb_true_iff in Hcond as [_ Hlt]. apply Z.ltb_lt in Hlt.
      split; [lia|]. split; [lia|].
      eapply levels_only_trans; [apply levels_only_pass|exact Hl].
    + intros [= <- <-]. split; [lia|]. split; [lia|apply levels_only_refl].
Qed.

(** *** The final sort and the evaluation *)

Lemma insert_by_perm {A} (key : A → Z) x l : insert_by key x l ≡ₚ x :: l.
Proof.
  induction l as [|y l IH]; simpl; [done|].
  destruct (key x <=? key y); [done|]. by rewrite IH, Permutation_swap.
Qed.

Lemma sorted_by_perm {A} (key : A → Z) l : sorted_by key l ≡ₚ l.
Proof.
  induction l as [|x l IH]; simpl; [done|].
  by rewrite insert_by_perm, IH.
Qed.

Lemma sort_sources_spec (l : list addr) σ :
  let σ' :=
    foldl (λ σ c,
             update_chan c
               (with_c_source (sorted_by (λ s, - site_level σ s) (sources σ c)))
               σ) σ l in
  site_heap σ' = site_heap σ ∧ net σ' = net σ
  ∧ ∀ c, chan_level σ' c = chan_level σ c ∧ targets σ' c = targets σ c
         ∧ sources σ' c ≡ₚ sources σ c.
Proof.
  revert σ. induction l as [|x l IH]; intros σ; cbn [foldl]; [done|].
  cbv zeta in IH.
  match goal with |- context [foldl _ ?σ1 l] =>
    destruct (IH σ1) as (Hs & Hn & Hc) end.
  split; [by rewrite Hs|]. split; [by rewrite Hn|].
  intros c. destruct (Hc c) as (Hlev & Htgt & Hsrc).
  rewrite Hlev, Htgt, Hsrc. unfold chan_level, targets, sources.
  rewrite chan_of_update_chan. destruct (decide (x = c)) as [->|]; [|done].
  simpl. split; [done|]. split; [done|]. apply sorted_by_perm.
Qed.

Lemma sort_structure_spec σ :
  site_heap (sort_structure σ) = site_heap σ
  ∧ n_sites (net (sort_structure σ)) = n_sites (net σ)
  ∧ n_channels (net (sort_structure σ))
    = sorted_by (λ kv, chan_level σ (snd kv)) (n_channels (net σ))
  ∧ ∀ c, chan_level (sort_structure σ) c = chan_level σ c
         ∧ targets (sort_structure σ) c = targets σ c
         ∧ sources (sort_structure σ) c ≡ₚ sources σ c.
Proof.
  unfold sort_structure. cbv zeta.
  match goal with |- context [foldl _ ?σ1 ?l] =>
    destruct (sort_sources_spec l σ1) as (Hs & Hn & Hc) end.
  rewrite Hs, Hn. by repeat split; try apply Hc.
Qed.

Lemma sort_structure_site_level σ s :
  site_level (sort_structure σ) s = site_level σ s.
Proof.
  unfold site_level, site_of.
  by destruct (sort_structure_spec σ) as (-> & _).
Qed.

Lemma sort_structure_chan_level σ c :
  chan_level (sort_structure σ) c = chan_level σ c.
Proof. by destruct (sort_structure_spec σ) as (_ & _ & _ & Hc), (Hc c). Qed.

Lemma sort_structure_channel_count σ :
  channel_count (sort_structure σ) = channel_count σ.
Proof.
  unfold channel_count.
  destruct (sort_structure_spec σ) as (_ & _ & -> & _).
  by rewrite sorted_by_perm.
Qed.

Lemma evaluate_state i σ : out_state (evaluate i σ) = σ.
Proof.
  unfold evaluate. destruct (report _ _ Site_repr _ _); [|done].
  by destruct (report _ _ Channel_repr _ _).
Qed.

Lemma evaluate_steps i σ : out_steps (evaluate i σ) = i.
Proof.
  unfold evaluate. destruct (report _ _ Site_repr _ _); [|done].
  by destruct (report _ _ Channel_repr _ _).
Qed.

Lemma compute_order_fuel_inv fuel σ out :
  compute_order_fuel fuel σ = Some out →
  ∃ i σ', relax fuel false 0 (reset_order σ) = Some (i, σ')
          ∧ out = evaluate i (sort_structure σ').
Proof.
  unfold compute_order_fuel.
  destruct (relax fuel false 0 (reset_order σ)) as [[i σ']|]; [|done].
  intros [= <-]. by exists i, σ'.
Qed.

Lemma compute_order_returns σ :
  ∃ i σ', relax (length (n_channels (net σ)) + 10) false 0 (reset_order σ)
          = Some (i, σ')
          ∧ compute_order σ = Some (evaluate i (sort_structure σ')).
Proof.
  destruct (relax_returns (length (n_channels (net σ)) + 10) false 0
              (reset_order σ)) as [[i σ'] Hrun].
  { destruct (reset_order_spec σ) as (Hl & _).
    rewrite (levels_only_channel_count Hl). unfold channel_count. lia. }
  exists i, σ'. split; [done|].
  unfold compute_order, compute_order_fuel. by rewrite Hrun.
Qed.


(** *** Networks without channels *)

(** C6, as the code has it. With an empty channel mapping the loop makes
    one iteration and promotes nothing: every site of the network without
    a producer is left at [-1] and every one with a producer at [1000]; no
    other site and no channel changes its level. *)
Theorem no_channels_no_promotion (σ : State) :
  n_channels (net σ) = [] →
  ∃ out, compute_order σ = Some out
    ∧ out_steps out = 1
    ∧ (∀ s, s ∈ site_values σ →
            site_level (out_state out) s
            = match producer σ s with None => -1 | Some _ => 1000 end)
    ∧ (∀ s, s ∉ site_values σ →
            site_level (out_state out) s = site_level σ s)
    ∧ (∀ c, chan_level (out_state out) c = chan_level σ c).
Proof.
  intros Hempty.
  destruct (compute_order_returns σ) as (i & σ' & Hrun & Hout).
  destruct (reset_order_spec σ) as (Hl & Hc & Hs).
  assert (Hnone : chan_values (reset_order σ) = []).
  { rewrite (levels_only_chan_values Hl). unfold chan_values.
    by rewrite Hempty. }
  rewrite Hempty in Hrun. simpl in Hrun.
  unfold channel_count in Hrun.
  destruct Hl as (Hnet & _). rewrite Hnet, Hempty in Hrun. simpl in Hrun.
  unfold pass in Hrun. rewrite Hnone in Hrun. simpl in Hrun.
  injection Hrun as <- <-.
  exists (evaluate 1 (sort_structure (reset_order σ))). split; [done|].
  rewrite evaluate_steps, evaluate_state. split; [done|].
  assert (Hlev : ∀ s, site_level (sort_structure (reset_order σ)) s
                      = if decide (s ∈ site_values σ) then reset_level σ s
                        else site_level σ s).
  { intros s. rewrite sort_structure_site_level, Hs.
    unfold level_after_reset, is_source, chan_values. rewrite Hempty.
    case_decide as Hsrc; [|done]. destruct Hsrc as [_ Hsrc].
    by apply Exists_nil in Hsrc. }
  split; [|split].
  - intros s Hin. by rewrite Hlev, decide_True.
  - intros s Hin. by rewrite Hlev, decide_False.
  - intros c. rewrite sort_structure_chan_level, Hc.
    unfold chan_values. rewrite Hempty.
    case_decide as Hin; [by apply elem_of_nil in Hin|done].
Qed.

Lemma no_channels_no_promotion_witness :
  let σ := fst unregistered_channel_example in
  n_channels (net σ) = []
  ∧ ∃ out, compute_order σ = Some out
      ∧ site_level (out_state out) 0%nat = -1
      ∧ site_level (out_state out) 1%nat = 1000.
Proof.
  intros σ. split; [reflexivity|].
  destruct (no_channels_no_promotion σ) as (out & Hout & _ & Hin & _);
    [reflexivity|].
  exists out. split; [exact Hout|]. split.
  - rewrite (Hin 0%nat); [reflexivity|]. vm_compute. by left.
  - rewrite (Hin 1%nat); [reflexivity|]. vm_compute. by right; left.
Defined.

(** C6 fails as stated: the network of [unregistered_channel_example] has
    an empty channel mapping, and [compute_order] leaves its site
    [Site B], whose producer is the channel built outside the mapping, at
    [1000] and not at [-1]. *)
Lemma produced_site_without_channels :
  let σ := fst unregistered_channel_example in
  n_channels (net σ) = []
  ∧ site_values σ = [0%nat; 1%nat]
  ∧ producer σ 1%nat = Some 2%nat
  ∧ (λ out, site_level (out_state out) 1%nat) <$> compute_order σ
    = Some 1000.
Proof. vm_compute. done. Qed.

(** *** Every productive iteration resolves a channel for good *)

Lemma fires_level i σ c : fires i σ c = true → i ≤ chan_level σ c.
Proof.
  unfold fires. intros [H _]%andb_true_iff.
  apply negb_true_iff, Z.ltb_ge in H. lia.
Qed.

Lemma fires_sources i σ c s :
  fires i σ c = true → s ∈ sources σ c → site_level σ s ≤ i.
Proof.
  unfold fires. intros [_ H]%andb_true_iff Hin.
  apply negb_true_iff in H.
  destruct (Z.ltb_spec i (site_level σ s)) as [Hlt|]; [|done].
  assert (existsb (λ s, i <? site_level σ s) (sources σ c) = true);
    [|congruence].
  apply existsb_exists. exists s. split; [by apply list_elem_of_In|].
  by apply Z.ltb_lt.
Qed.

Lemma fires_iff i σ c :
  fires i σ c = true
  ↔ i ≤ chan_level σ c ∧ ∀ s, s ∈ sources σ c → site_level σ s ≤ i.
Proof.
  split.
  - intros H. split; [by apply fires_level|]. intros s. by apply fires_sources.
  - intros [Hc Hs]. unfold fires. apply andb_true_iff. split.
    + apply negb_true_iff, Z.ltb_ge. lia.
    + apply negb_true_iff. apply not_true_is_false.
      intros (s & Hin & Hlt)%existsb_exists.
      apply list_elem_of_In, Hs in Hin. apply Z.ltb_lt in Hlt. lia.
Qed.

(** After the visits of step [i] a channel has its old level or has been
    resolved at [i] from a level that was not below [i]; a cleared flag
    tells that a channel of the list was resolved. *)
Lemma visits_chan_levels i l d σ :
  let r := foldl (visit i) (d, σ) l in
  (∀ c, chan_level (snd r) c = chan_level σ c
        ∨ (chan_level (snd r) c = i ∧ i ≤ chan_level σ c))
  ∧ (fst r = false →
     d = false ∨ ∃ c, c ∈ l ∧ chan_level (snd r) c = i ∧ i ≤ chan_level σ c).
Proof.
  revert d σ. induction l as [|x l IH]; intros d σ; cbn [foldl].
  - simpl. split; [by left|]. intros ->. by left.
  - rewrite visit_eq. destruct (fires i σ x) eqn:Hf.
    + destruct (IH false (resolve i x σ)) as (Hlev & _). cbv zeta in *.
      destruct (resolve_spec i x σ) as (_ & Hc & _).
      apply fires_level in Hf.
      assert (Hall : ∀ c, chan_level (foldl (visit i) (false, resolve i x σ) l).2 c
                          = chan_level σ c
                          ∨ (chan_level (foldl (visit i) (false, resolve i x σ) l).2 c = i
                             ∧ i ≤ chan_level σ c)).
      { intros c. specialize (Hlev c). rewrite Hc in Hlev.
        destruct (decide (x = c)) as [->|]; [right|done].
        split; [|done]. destruct Hlev as [?|[? _]]; done. }
      split; [exact Hall|]. intros _. right. exists x.
      split; [by left|]. specialize (Hlev x). rewrite Hc, decide_True in Hlev by done.
      split; [|done]. by destruct Hlev as [?|[? _]].
    + destruct (IH d σ) as (Hlev & Hflag). cbv zeta in *.
      split; [exact Hlev|]. intros Hq.
      destruct (Hflag Hq) as [?|(c & ? & ?)]; [by left|right].
      exists c. split; [by right|done].
Qed.

Lemma filter_length_le {A} (P Q : A → Prop) `{∀ x, Decision (P x)}
    `{∀ x, Decision (Q x)} (l : list A) :
  (∀ x, x ∈ l → Q x → P x) →
  (length (filter Q l) ≤ length (filter P l))%nat
  ∧ ((∃ x, x ∈ l ∧ P x ∧ ¬ Q x) →
     (length (filter Q l) < length (filter P l))%nat).
Proof.
  induction l as [|y l IH]; intros Himp.
  - split; [done|]. intros (x & Hx & _). by apply elem_of_nil in Hx.
  - destruct IH as [IHle IHlt].
    { intros x Hx. apply Himp. by right. }
    rewrite !filter_cons.
    destruct (decide (Q y)) as [HQ|HQ], (decide (P y)) as [HP|HP]; simpl.
    + split; [lia|]. intros (x & [->|Hx]%elem_of_cons & HPx & HQx); [done|].
      assert (length (filter Q l) < length (filter P l))%nat by eauto. lia.
    + destruct HP. apply Himp; [by left|done].
    + split; [lia|]. intros _. lia.
    + split; [lia|]. intros (x & [->|Hx]%elem_of_cons & HPx & HQx); [done|].
      eauto.
Qed.

Lemma pass_pending i σ :
  (pending (i + 1) (snd (pass i σ))
   + (if fst (pass i σ) then 0 else 1) ≤ pending i σ)%nat.
Proof.
  unfold pending. rewrite (levels_only_chan_values (levels_only_pass i σ)).
  destruct (visits_chan_levels i (chan_values σ) true σ) as (Hlev & Hflag).
  cbv zeta in *. fold (pass i σ) in Hlev, Hflag.
  destruct (filter_length_le (λ c, i ≤ chan_level σ c)
              (λ c, i + 1 ≤ chan_level (snd (pass i σ)) c) (chan_values σ))
    as [Hle Hlt].
  { intros c _ Hc. destruct (Hlev c) as [Heq|[Heq ?]]; lia. }
  destruct (fst (pass i σ)); [lia|].
  destruct Hflag as [?|(c & Hin & Heq & Hold)]; [done..|].
  assert (∃ x, x ∈ chan_values σ ∧ i ≤ chan_level σ x
               ∧ ¬ i + 1 ≤ chan_level (snd (pass i σ)) x) as Hex.
  { exists c. split; [done|]. split; [done|]. lia. }
  apply Hlt in Hex. lia.
Qed.

Lemma relax_steps fuel done i σ j σ' :
  relax fuel done i σ = Some (j, σ') →
  j ≤ i + (if done then 0 else Z.of_nat (pending i σ) + 1).
Proof.
  revert done i σ. induction fuel as [|fuel IH]; intros done i σ;
    rewrite relax_unfold.
  - destruct (negb done && _); [done|]. intros [= <- <-].
    destruct done; lia.
  - destruct (negb done && _) eqn:Hcond.
    + apply andb_true_iff in Hcond as [Hd _]. apply negb_true_iff in Hd as ->.
      intros Hrun. apply IH in Hrun.
      pose proof (pass_pending i σ). destruct (fst (pass i σ)); lia.
    + intros [= <- <-]. destruct done; lia.
Qed.

(** The counter of the loop never exceeds the number of channels by more
    than one. *)
Lemma compute_order_steps σ out :
  compute_order σ = Some out → out_steps out ≤ channel_count σ + 1.
Proof.
  intros (i & σ' & Hrun & ->)%compute_order_fuel_inv.
  rewrite evaluate_steps. apply relax_steps in Hrun.
  assert (pending 0 (reset_order σ) ≤ length (chan_values (reset_order σ)))%nat
    by apply length_filter.
  destruct (reset_order_spec σ) as (Hl & _).
  rewrite (levels_only_chan_values Hl) in *.
  unfold channel_count, chan_values, dict_values in *.
  rewrite length_map in *. lia.
Qed.

(** *** What the evaluation prints *)

Lemma report_items {A} any (l : list A) repr W σ w :
  report any l repr W σ = Ok w → ∀ x, x ∈ w → ∃ t, x = W t.
Proof.
  unfold report. destruct any.
  - destruct (map_M repr l σ) as [σ' [rs|e]]; [|done].
    intros [= <-] x ->%list_elem_of_singleton. by eexists.
  - intros [= <-] x Hx. by apply elem_of_nil in Hx.
Qed.

Lemma evaluate_failed i σ :
  FailedStructure ∈ out_printed (evaluate i σ) → channel_count σ + 1 < i.
Proof.
  unfold evaluate.
  destruct (Z.ltb_spec (channel_count σ + 1) i) as [Hlt|Hge]; [done|].
  intros Hin. exfalso.
  destruct (report _ _ Site_repr _ _) as [w2|e] eqn:H2; simpl in Hin.
  - destruct (report _ _ Channel_repr _ _) as [w3|e] eqn:H3; simpl in Hin.
    + apply elem_of_app in Hin as [Hin|Hin].
      * by destruct (report_items _ _ _ _ _ _ H2 _ Hin).
      * by destruct (report_items _ _ _ _ _ _ H3 _ Hin).
    + by destruct (report_items _ _ _ _ _ _ H2 _ Hin).
  - by apply elem_of_nil in Hin.
Qed.

(** The structure-computation warning is never printed. *)
Lemma failed_structure_never_printed σ out :
  compute_order σ = Some out → FailedStructure ∉ out_printed out.
Proof.
  intros Hout Hin. pose proof (compute_order_steps σ out Hout) as Hsteps.
  apply compute_order_fuel_inv in Hout as (i & σ' & Hrun & ->).
  apply evaluate_failed in Hin. rewrite evaluate_steps in Hsteps.
  rewrite sort_structure_channel_count in Hin.
  apply relax_bounds in Hrun as (_ & _ & Hl).
  destruct (reset_order_spec σ) as (Hl0 & _).
  rewrite (levels_only_channel_count Hl), (levels_only_channel_count Hl0) in Hin.
  lia.
Qed.

Lemma Channel_repr_ok c σ :
  Forall (has_label σ) (endpoints σ c) → ∃ r, Channel_repr c σ = (σ, Ok r).
Proof.
  intros [Hs Ht]%Forall_app.
  destruct (map_M_repr_ok _ _ Hs) as [r1 H1].
  destruct (map_M_repr_ok _ _ Ht) as [r2 H2].
  unfold Channel_repr, bind, gets; simpl.
  unfold sources in H1; unfold targets in H2. rewrite H1, H2. by eexists.
Qed.

Lemma map_M_ok {A} (repr : A → M string) l σ :
  Forall (λ x, ∃ r, repr x σ = (σ, Ok r)) l →
  ∃ rs, map_M repr l σ = (σ, Ok rs).
Proof.
  induction 1 as [|x l [r Hr] _ [rs IH]]; simpl; [by eexists|].
  unfold bind. rewrite Hr, IH. by eexists.
Qed.

(** With labels on all that is printed the evaluation raises nothing, and
    it reports unreachable channels when there is one. *)
Lemma evaluate_printable i σ :
  printable σ →
  out_raised (evaluate i σ) = None
  ∧ (∀ c, c ∈ chan_values σ → chan_level σ c = 1000 →
          ∃ t, UnreachableChannels t ∈ out_printed (evaluate i σ)).
Proof.
  intros [Hsites Hchans]. unfold evaluate.
  assert (H2 : ∃ w2, report (existsb (is_orphaned σ) (site_values σ))
                       (filter (λ s, is_orphaned σ s = true) (site_values σ))
                       Site_repr OrphanedSites σ = Ok w2).
  { unfold report. destruct (existsb _ _); [|by eexists].
    destruct (map_M_repr_ok
                (filter (λ s, is_orphaned σ s = true) (site_values σ)) σ)
      as [rs ->]; [|by eexists].
    apply Forall_forall. intros s [_ Hs]%list_elem_of_filter. by apply Hsites. }
  destruct H2 as [w2 ->].
  assert (H3 : ∃ rs, map_M Channel_repr
                       (filter (λ c, is_unreachable σ c = true) (chan_values σ))
                       σ = (σ, Ok rs)).
  { apply map_M_ok, Forall_forall.
    intros c [_ Hc]%list_elem_of_filter. apply Channel_repr_ok.
    apply Forall_forall. intros s. by apply Hchans. }
  destruct H3 as [rs H3]. unfold report.
  destruct (existsb (is_unreachable σ) (chan_values σ)) eqn:Hany.
  - rewrite H3. simpl. split; [done|]. intros _ _ _. eexists.
    rewrite !elem_of_app. right; right. by apply list_elem_of_singleton.
  - simpl. split; [done|]. intros c Hin Hlev. exfalso.
    assert (existsb (is_unreachable σ) (chan_values σ) = true); [|congruence].
    apply existsb_exists. exists c. split; [by apply list_elem_of_In|].
    unfold is_unreachable. by apply Z.eqb_eq.
Qed.

(** *** Cycles *)

Lemma nonempty_elem {A} (l : list A) : l ≠ [] → ∃ x, x ∈ l.
Proof. destruct l as [|x l]; [done|]. intros _. exists x. by left. Qed.

Section cycle.
Context (σ : State) (cyc : list addr) (Hcyc : dependency_cycle σ cyc).

Lemma cycle_registered c : c ∈ cyc → c ∈ chan_values σ.
Proof. intros Hc. by destruct Hcyc as (_ & H), (H c Hc). Qed.

Lemma cycle_member_blocked c :
  c ∈ cyc → ∃ s, s ∈ sources σ c ∧ blocked σ cyc s.
Proof.
  intros Hc. destruct Hcyc as (_ & H).
  destruct (H c Hc) as (_ & s & c' & Hsrc & Hreg & _ & _ & Hprod & Honly).
  exists s. split; [done|]. split; [done|]. split; [congruence|done].
Qed.

Lemma cycle_inv_reset : cycle_inv σ cyc 0 (reset_order σ).
Proof.
  destruct (reset_order_spec σ) as (Hl & Hc & Hs).
  split; [done|]. split.
  - intros c Hin. rewrite Hc, decide_True; [done|by apply cycle_registered].
  - intros _ s (Hreg & Hprod & _). rewrite Hs. unfold level_after_reset.
    destruct (decide (s ∈ site_values σ)) as [Hin|Hout].
    + unfold reset_level. destruct (producer σ s); [|by destruct Hprod].
      by rewrite decide_False by (intros [? _]; lia).
    + destruct Hreg as [Hin|Hlev]; [done|].
      rewrite decide_False by (intros [? _]; lia). exact Hlev.
Qed.

Lemma cycle_inv_visit i d σ' c :
  c ∈ chan_values σ →
  cycle_inv σ cyc i σ' → cycle_inv σ cyc i (snd (visit i (d, σ') c)).
Proof.
  intros Hreg (Hl & Hchan & Hsite). rewrite visit_eq.
  destruct (fires i σ' c) eqn:Hf; [|done]. simpl.
  destruct (resolve_spec i c σ') as (Hl' & Hc & Hs).
  split; [by eapply levels_only_trans|].
  destruct (Z.lt_ge_cases i 1000) as [Hlt|Hge].
  - assert (Hout : c ∉ cyc).
    { intros Hin. destruct (cycle_member_blocked c Hin) as (s & Hsrc & Hb).
      rewrite <- (levels_only_sources Hl) in Hsrc.
      pose proof (fires_sources _ _ _ _ Hf Hsrc).
      pose proof (Hsite Hlt s Hb). lia. }
    split.
    + intros x Hx. rewrite Hc, decide_False by congruence. by apply Hchan.
    + intros _ s Hb. rewrite Hs, decide_False; [by apply Hsite|].
      rewrite (levels_only_targets Hl). intros Hin.
      destruct Hb as (_ & _ & Honly). by apply Hout, Honly.
  - split; [|lia]. intros x Hx. rewrite Hc.
    destruct (decide (c = x)) as [->|]; [|by apply Hchan].
    apply fires_level in Hf. rewrite Hchan in Hf by done. lia.
Qed.

Lemma cycle_inv_visits i l d σ' :
  Forall (λ c, c ∈ chan_values σ) l →
  cycle_inv σ cyc i σ' → cycle_inv σ cyc i (snd (foldl (visit i) (d, σ') l)).
Proof.
  intros Hall. revert d σ'.
  induction Hall as [|c l Hc _ IH]; intros d σ' Hinv; cbn [foldl]; [done|].
  destruct (visit i (d, σ') c) as [d1 σ1] eqn:Hv. apply IH.
  change σ1 with (snd (d1, σ1)). rewrite <- Hv. by apply cycle_inv_visit.
Qed.

Lemma cycle_inv_pass i σ' :
  cycle_inv σ cyc i σ' → cycle_inv σ cyc (i + 1) (snd (pass i σ')).
Proof.
  intros Hinv. destruct (cycle_inv_visits i (chan_values σ') true σ')
    as (Hl & Hchan & Hsite); [|done|].
  { destruct Hinv as (Hl & _). rewrite (levels_only_chan_values Hl).
    by apply Forall_forall. }
  split; [done|]. split; [done|]. intros Hlt. apply Hsite. lia.
Qed.

Lemma cycle_inv_relax fuel done i σ' j σ'' :
  cycle_inv σ cyc i σ' → relax fuel done i σ' = Some (j, σ'') →
  cycle_inv σ cyc j σ''.
Proof.
  revert done i σ'. induction fuel as [|fuel IH]; intros done i σ' Hinv;
    rewrite relax_unfold; destruct (negb done && _); try done;
    try by intros [= <- <-].
  apply IH. by apply cycle_inv_pass.
Qed.

(** C5, as the code has it. The channels of a dependency cycle, whose
    blocking sources are sites of the network or sites outside the site
    mapping at [1000] or above, are left at [1000] by [compute_order]. The structure-computation warning is not
    printed (the counter of the loop cannot exceed the number of channels
    by more than one); when the sites to print have labels, nothing is
    raised and the cycle is reported by the warning about unreachable
    channels. *)
Theorem cycle_stays_unreachable :
  ∃ out, compute_order σ = Some out
    ∧ (∀ c, c ∈ cyc → chan_level (out_state out) c = 1000)
    ∧ (FailedStructure ∉ out_printed out)
    ∧ (printable σ →
       out_raised out = None
       ∧ ∃ t, UnreachableChannels t ∈ out_printed out).
Proof.
  destruct (compute_order_returns σ) as (i & σ' & Hrun & Hout).
  exists (evaluate i (sort_structure σ')). split; [done|].
  destruct (cycle_inv_relax _ _ _ _ _ _ cycle_inv_reset Hrun)
    as (Hl & Hchan & _).
  assert (Hlev : ∀ c, c ∈ cyc → chan_level (sort_structure σ') c = 1000).
  { intros c Hc. rewrite sort_structure_chan_level. by apply Hchan. }
  split; [by rewrite evaluate_state|].
  split; [by eapply failed_structure_never_printed|].
  intros [Hsites Hchans].
  destruct (sort_structure_spec σ') as (Hheap & Hns & Hnc & Hcs).
  assert (Hvals : chan_values (sort_structure σ') ≡ₚ chan_values σ).
  { unfold chan_values, dict_values. rewrite Hnc, sorted_by_perm.
    by destruct Hl as (-> & _). }
  destruct (evaluate_printable i (sort_structure σ')) as (Hraise & Hprint).
  { split.
    - intros s Hs. unfold has_label, site_of. rewrite Hheap.
      apply (levels_only_has_label Hl).
      apply Hsites. unfold site_values in *. rewrite Hns in Hs.
      by destruct Hl as (<- & _).
    - intros c s Hc Hs. unfold has_label, site_of. rewrite Hheap.
      apply (levels_only_has_label Hl). apply (Hchans c).
      + by rewrite <- Hvals.
      + destruct (Hcs c) as (_ & Htgt & Hsrc). unfold endpoints in *.
        rewrite Htgt, Hsrc in Hs.
        by rewrite <- (levels_only_sources Hl), <- (levels_only_targets Hl). }
  split; [done|].
  destruct (nonempty_elem cyc) as [c Hc]; [apply Hcyc|].
  apply (Hprint c).
  - rewrite Hvals. by apply cycle_registered.
  - by apply Hlev.
Qed.

End cycle.

Lemma elem_of_two {A} (x a b : A) : x ∈ [a; b] → x = a ∨ x = b.
Proof.
  rewrite !elem_of_cons. intros [?|[?|Hx]]; [by left|by right|].
  destruct (proj1 (elem_of_nil x) Hx).
Qed.

Lemma cycle_example_channels : chan_values (fst cycle_example) = [2%nat; 3%nat].
Proof. vm_compute. reflexivity. Qed.

Lemma cycle_example_is_cycle :
  dependency_cycle (fst cycle_example) [2%nat; 3%nat].
Proof.
  split; [done|]. intros c Hc. rewrite cycle_example_channels.
  apply elem_of_two in Hc as [-> | ->].
  - split; [by left|]. exists 0%nat, 3%nat.
    repeat (split; [by_eval|]). intros d Hd.
    apply elem_of_two in Hd as [-> | ->]; by_eval.
  - split; [by right; left|]. exists 1%nat, 2%nat.
    repeat (split; [by_eval|]). intros d Hd.
    apply elem_of_two in Hd as [-> | ->]; by_eval.
Qed.

Lemma cycle_stays_unreachable_witness :
  let σ := fst cycle_example in
  dependency_cycle σ [2%nat; 3%nat]
  ∧ ∃ out, compute_order σ = Some out
      ∧ chan_level (out_state out) 2%nat = 1000
      ∧ chan_level (out_state out) 3%nat = 1000
      ∧ (FailedStructure ∉ out_printed out).
Proof.
  intros σ. split; [exact cycle_example_is_cycle|].
  destruct (cycle_stays_unreachable σ [2%nat; 3%nat] cycle_example_is_cycle)
    as (out & Hout & Hlev & Hfailed & _).
  exists out. split; [exact Hout|].
  split; [apply Hlev; by_eval|]. split; [apply Hlev; by_eval|exact Hfailed].
Defined.

(** C5 fails as stated: in the network of [cycle_example] each of the two
    channels has the target of the other as its only source. Both are left
    at [1000], but the loop stops after its first iteration and the only
    warning printed is the one about unreachable channels. *)
Lemma cycle_prints_no_failure :
  let σ := fst cycle_example in
  (λ out, (out_steps out, out_printed out, out_raised out,
           chan_level (out_state out) 2%nat, chan_level (out_state out) 3%nat))
    <$> compute_order σ
  = Some (1, [UnreachableChannels "[<_c0: [A] --> {B}>, <_c1: [B] --> {A}>]"],
          None, 1000, 1000).
Proof. vm_compute. done. Qed.

(** The side condition on the blocking source is needed. In
    [stale_level_example] the channel [d] has the site [S] as a source
    and as its only target and is the producer of [S]; but [S] is not in
    the site mapping, the reset does not reach it, and it still has the
    level [1] of the run before. The loop resolves [d] at step [1] and
    nothing is printed. *)
Lemma stale_level_resolves_cycle :
  let σ := stale_level_example in
  chan_values σ = [3%nat; 4%nat]
  ∧ sources σ 3%nat = [0%nat; 1%nat] ∧ targets σ 3%nat = {[1%nat]}
  ∧ producer σ 1%nat = Some 3%nat
  ∧ site_values σ = [0%nat; 2%nat] ∧ site_level σ 1%nat = 1
  ∧ (λ out, (out_steps out, chan_level (out_state out) 3%nat,
             site_level (out_state out) 1%nat, out_printed out,
             out_raised out)) <$> compute_order σ
    = Some (3, 1, 2, [], None).
Proof. vm_compute. done. Qed.

(** *** A step of the loop, whatever the order of the channels *)

Lemma existsb_ext {A} (f g : A → bool) l :
  (∀ x, f x = g x) → existsb f l = existsb g l.
Proof. intros H. induction l as [|x l IH]; simpl; [done|]. by rewrite H, IH. Qed.

Lemma fires_ext i σ σ' c :
  chan_level σ' c = chan_level σ c ∨ (chan_level σ' c = i ∧ i ≤ chan_level σ c) →
  sources σ' c = sources σ c →
  (∀ s, s ∈ sources σ c → site_level σ' s ≤ i ↔ site_level σ s ≤ i) →
  fires i σ' c = fires i σ c.
Proof.
  intros Hc Hsrc Hs. apply eq_true_iff_eq. rewrite !fires_iff, Hsrc.
  split; intros [Hlev Hready]; (split; [lia|]); intros s Hin;
    apply Hs; auto.
Qed.

(** When the targets of the channels that pass the test are not ready
    themselves, the visits of a step amount to resolving all channels that
    pass the test in the store the step started from. *)
Lemma visits_parallel i l d σ :
  targets_late i σ l →
  let r := foldl (visit i) (d, σ) l in
  levels_only σ (snd r)
  ∧ (∀ c, chan_level (snd r) c
          = if bool_decide (c ∈ l) && fires i σ c then i else chan_level σ c)
  ∧ (∀ t, site_level (snd r) t
          = if promoted_by i σ l t then i + 1 else site_level σ t)
  ∧ fst r = d && negb (existsb (fires i σ) l).
Proof.
  intros Hlate. cbv zeta.
  split; [apply levels_only_visits|]. revert d σ Hlate.
  induction l as [|x l IH]; intros d σ Hlate; cbn [foldl].
  - simpl. split; [done|]. split; [done|]. by rewrite andb_true_r.
  - rewrite visit_eq. destruct (fires i σ x) eqn:Hx.
    + destruct (resolve_spec i x σ) as (Hl & Hc & Hs).
      assert (Hfires : ∀ c, fires i (resolve i x σ) c = fires i σ c).
      { intros c. apply fires_ext.
        - rewrite Hc. destruct (decide (x = c)) as [->|]; [right|by left].
          split; [done|]. by apply fires_level.
        - apply (levels_only_sources Hl).
        - intros s _. rewrite Hs. case_decide as Ht; [|done].
          assert (i < site_level σ s) by (apply (Hlate x); [by left|done..]).
          lia. }
      destruct (IH false (resolve i x σ)) as (Hc' & Hs' & Hd').
      { intros c t Hin. rewrite Hfires, (levels_only_targets Hl), Hs.
        intros Hf Ht. case_decide; [lia|]. apply (Hlate c); [by right|done..]. }
      split; [|split].
      * intros c. rewrite Hc', Hfires, Hc.
        destruct (decide (x = c)) as [->|Hne].
        -- rewrite Hx. rewrite (bool_decide_eq_true_2 (c ∈ c :: l)) by by left.
           simpl. by destruct (bool_decide (c ∈ l)).
        -- assert (bool_decide (c ∈ x :: l) = bool_decide (c ∈ l)) as ->; [|done].
           apply bool_decide_ext. rewrite elem_of_cons. naive_solver.
      * intros t. rewrite Hs'. unfold promoted_by. cbn [existsb]. rewrite Hx.
        assert (Hext : existsb (λ c, fires i (resolve i x σ) c
                                     && bool_decide (t ∈ targets (resolve i x σ) c)) l
                       = existsb (λ c, fires i σ c && bool_decide (t ∈ targets σ c)) l).
        { apply existsb_ext. intros c.
          by rewrite Hfires, (levels_only_targets Hl). }
        rewrite Hext, Hs. cbn [andb].
        destruct (decide (t ∈ targets σ x)) as [Hin|Hin];
          [rewrite (bool_decide_eq_true_2 _ Hin)
          |rewrite (bool_decide_eq_false_2 _ Hin)];
          simpl; by repeat case_match.
      * rewrite Hd'. cbn [existsb]. rewrite Hx. simpl. by rewrite andb_false_r.
    + destruct (IH d σ) as (Hc' & Hs' & Hd').
      { intros c t Hin. apply Hlate. by right. }
      split; [|split].
      * intros c. rewrite Hc'. destruct (decide (x = c)) as [->|Hne].
        -- by rewrite Hx, !andb_false_r.
        -- assert (bool_decide (c ∈ x :: l) = bool_decide (c ∈ l)) as ->; [|done].
           apply bool_decide_ext. rewrite elem_of_cons. naive_solver.
      * intros t. rewrite Hs'. unfold promoted_by. cbn [existsb].
        by rewrite Hx.
      * rewrite Hd'. cbn [existsb]. by rewrite Hx.
Qed.

(** *** Linear chains *)

Lemma visits_none i l d σ :
  Forall (λ c, fires i σ c = false) l → foldl (visit i) (d, σ) l = (d, σ).
Proof.
  induction 1 as [|c l Hc _ IH]; cbn [foldl]; [done|].
  by rewrite visit_eq, Hc.
Qed.

Section chain.
Context (σ : State) (ss cs : list addr) (Hchain : linear_chain σ ss cs).
Context (Hshort : (length ss ≤ 1001)%nat).

Lemma chain_channel j c :
  cs !! j = Some c →
  ∃ s t, ss !! j = Some s ∧ ss !! S j = Some t ∧ sources σ c = [s]
         ∧ targets σ c = {[t]} ∧ producer σ t = Some c.
Proof. apply Hchain. Qed.

Lemma chain_count σ' :
  levels_only σ σ' → channel_count σ' = Z.of_nat (length cs).
Proof.
  intros Hl. rewrite (levels_only_channel_count Hl).
  destruct Hchain as (<- & _). unfold channel_count, chan_values, dict_values.
  by rewrite length_map.
Qed.

Lemma chain_reset : (1 ≤ length cs)%nat → chain_state σ ss cs 0 (reset_order σ).
Proof.
  intros Hne. destruct (reset_order_spec σ) as (Hl & Hc & Hs).
  destruct Hchain as (Hvals & Hlen & Hnd & _ & Hreg & Hroot & Hlink).
  split; [done|]. split.
  - intros j s Hj. rewrite Hs. unfold level_after_reset.
    rewrite (decide_True (P := s ∈ site_values σ))
      by (eapply Hreg, list_elem_of_lookup_2, Hj).
    unfold reset_level. destruct j as [|j].
    + rewrite (Hroot s Hj). rewrite decide_True; [done|]. split; [done|].
      destruct (lookup_lt_is_Some_2 cs 0%nat) as [c Hc0]; [lia|].
      destruct (Hlink _ _ Hc0) as (s' & t & Hs' & _ & Hsrc & _).
      assert (s' = s) as -> by congruence.
      unfold is_source. apply Exists_exists. exists c. split.
      * rewrite Hvals. by eapply list_elem_of_lookup_2.
      * rewrite Hsrc. by left.
    + destruct (lookup_lt_is_Some_2 cs j) as [c Hcj].
      { apply lookup_lt_Some in Hj. lia. }
      destruct (Hlink _ _ Hcj) as (s' & t & _ & Ht & _ & _ & Hprod).
      assert (t = s) as -> by congruence. rewrite Hprod.
      rewrite decide_False by (intros [? _]; lia).
      by rewrite decide_False by lia.
  - intros j c Hj. rewrite Hc, decide_True.
    + by rewrite decide_False by lia.
    + rewrite Hvals. by eapply list_elem_of_lookup_2.
Qed.

Lemma chain_fires m σ' j c :
  chain_state σ ss cs m σ' → (m < length cs)%nat → cs !! j = Some c →
  fires (Z.of_nat m) σ' c = bool_decide (j = m).
Proof.
  intros (Hl & Hs & Hc) Hm Hj.
  destruct Hchain as (_ & Hlen & _).
  destruct (chain_channel j c Hj) as (s & t & Hsj & _ & Hsrc & _).
  pose proof (lookup_lt_Some _ _ _ Hj) as Hjlt.
  apply eq_true_iff_eq. rewrite fires_iff, bool_decide_eq_true.
  rewrite (levels_only_sources Hl), Hsrc, (Hc j c Hj).
  split.
  - intros [Hlev Hready].
    specialize (Hready s (list_elem_of_here _ _)). rewrite (Hs j s Hsj) in Hready.
    repeat case_decide; lia.
  - intros ->. rewrite decide_False by lia. split; [lia|].
    intros s' ->%list_elem_of_singleton. rewrite (Hs m s Hsj).
    rewrite decide_True by lia. lia.
Qed.

Lemma chain_pass m σ' :
  chain_state σ ss cs m σ' → (m < length cs)%nat →
  fst (pass (Z.of_nat m) σ') = false
  ∧ chain_state σ ss cs (S m) (snd (pass (Z.of_nat m) σ')).
Proof.
  intros Hst Hm. pose proof Hst as (Hl & Hs & Hc).
  destruct Hchain as (Hvals & Hlen & Hnds & Hndc & _).
  assert (Hcs : chan_values σ' = cs) by by rewrite (levels_only_chan_values Hl).
  destruct (lookup_lt_is_Some_2 cs m Hm) as [km Hkm].
  destruct (chain_channel m km Hkm) as (sm & tm & Hsm & Htm & _ & Htgt & _).
  assert (Hfired : ∀ c, c ∈ cs → fires (Z.of_nat m) σ' c = bool_decide (c = km)).
  { intros c (j & Hj)%list_elem_of_lookup_1.
    rewrite (chain_fires m σ' j c Hst Hm Hj). apply bool_decide_ext. split.
    - intros ->. congruence.
    - intros ->. by eapply NoDup_lookup. }
  destruct (visits_parallel (Z.of_nat m) cs true σ') as (_ & Hc' & Hs' & Hd').
  { intros c t Hin Hf Ht. rewrite Hfired, bool_decide_eq_true in Hf by done.
    subst c. rewrite (levels_only_targets Hl), Htgt in Ht.
    apply elem_of_singleton in Ht as ->.
    rewrite (Hs (S m) tm Htm), decide_False by lia. lia. }
  cbv zeta in *. unfold pass. rewrite Hcs.
  assert (Hprom : ∀ t, promoted_by (Z.of_nat m) σ' cs t = bool_decide (t = tm)).
  { intros t. apply eq_true_iff_eq.
    unfold promoted_by. rewrite existsb_exists, bool_decide_eq_true. split.
    - intros (c & Hin%list_elem_of_In & [Hf Ht]%andb_true_iff).
      rewrite Hfired, bool_decide_eq_true in Hf by done. subst c.
      rewrite bool_decide_eq_true, (levels_only_targets Hl), Htgt in Ht.
      by apply elem_of_singleton in Ht.
    - intros ->. exists km. split.
      + by eapply list_elem_of_In, list_elem_of_lookup_2.
      + rewrite Hfired by by eapply list_elem_of_lookup_2.
        rewrite bool_decide_eq_true_2 by done.
        rewrite bool_decide_eq_true_2; [done|].
        rewrite (levels_only_targets Hl), Htgt. by apply elem_of_singleton. }
  split.
  - rewrite Hd'. apply andb_false_iff. right. apply negb_false_iff.
    apply existsb_exists. exists km. split.
    + by eapply list_elem_of_In, list_elem_of_lookup_2.
    + rewrite Hfired by by eapply list_elem_of_lookup_2.
      by apply bool_decide_eq_true.
  - split; [eapply levels_only_trans; [exact Hl|apply levels_only_visits]|].
    split.
    + intros j s Hj. rewrite Hs', Hprom, (Hs j s Hj).
      case_bool_decide as Heq.
      * subst s. assert (j = S m) as -> by exact (NoDup_lookup ss j (S m) tm Hnds Hj Htm).
        rewrite decide_True by lia. lia.
      * assert (j ≠ S m) by (intros ->; congruence).
        repeat case_decide; lia.
    + intros j c Hj. rewrite Hc', (Hc j c Hj).
      rewrite bool_decide_eq_true_2 by by eapply list_elem_of_lookup_2.
      rewrite (chain_fires m σ' j c Hst Hm Hj). simpl.
      case_bool_decide; repeat case_decide; lia.
Qed.

Lemma chain_last_pass σ' :
  chain_state σ ss cs (length cs) σ' →
  pass (Z.of_nat (length cs)) σ' = (true, σ').
Proof.
  intros (Hl & _ & Hc). unfold pass. apply visits_none.
  rewrite (levels_only_chan_values Hl).
  destruct Hchain as (-> & _). apply Forall_forall.
  intros c (j & Hj)%list_elem_of_lookup_1.
  pose proof (lookup_lt_Some _ _ _ Hj).
  unfold fires. rewrite (Hc j c Hj), decide_True by done.
  destruct (Z.ltb_spec (Z.of_nat j) (Z.of_nat (length cs))); [done|lia].
Qed.

Lemma chain_relax k m σ' :
  (m + k = length cs)%nat → chain_state σ ss cs m σ' →
  ∃ σ'', relax (S k) false (Z.of_nat m) σ'
         = Some (Z.of_nat (length cs) + 1, σ'')
         ∧ chain_state σ ss cs (length cs) σ''.
Proof.
  revert m σ'. induction k as [|k IH]; intros m σ' Hk Hst;
    pose proof Hst as (Hl & _);
    rewrite relax_unfold, (chain_count σ' Hl); simpl negb; cbn [andb];
    (destruct (Z.ltb_spec (Z.of_nat m) (Z.of_nat (length cs) + 10)); [|lia]).
  - assert (m = length cs) as -> by lia.
    rewrite chain_last_pass by done. simpl. by exists σ'.
  - destruct (chain_pass m σ' Hst) as [Hflag Hnext]; [lia|].
    destruct (IH (S m) (snd (pass (Z.of_nat m) σ'))) as (σ'' & Hrun & Hfin);
      [lia|done|].
    exists σ''. rewrite Hflag. split; [|done]. rewrite <- Hrun. f_equal. lia.
Qed.


End chain.

Lemma chain_example_is_chain :
  linear_chain (fst chain_example) [0; 1; 3]%nat [2; 4]%nat.
Proof.
  split; [by vm_compute|]. split; [done|].
  split; [by_eval|]. split; [by_eval|]. split; [|split].
  - intros s Hs. assert (site_values (fst chain_example) = [0; 1; 3]%nat) as ->;
      [by vm_compute|done].
  - intros s [= <-]. by vm_compute.
  - intros [|[|j]] c [= <-].
    + exists 0%nat, 1%nat. repeat split; try done; by vm_compute.
    + exists 1%nat, 3%nat. repeat split; try done; by vm_compute.
Qed.


(** ** The single-producer invariant *)

Lemma for_each_preserves {A} (P : State → Prop) (f : A → M unit) l σ :
  (∀ x σ, x ∈ l → P σ → P (fst (f x σ))) → P σ → P (fst (for_each f l σ)).
Proof.
  revert σ. induction l as [|x l IH]; intros σ Hf HP; [done|].
  rewrite for_each_cons. unfold bind.
  pose proof (Hf x σ (list_elem_of_here _ _) HP) as Hx.
  destruct (f x σ) as [σ1 [[]|e]]; [|done]. simpl in Hx.
  apply IH; [|done]. intros y σ' Hy. apply Hf. by right.
Qed.

Lemma SiteArg_preserves (P : State → Prop) (op : SiteArg → M unit) x σ :
  (∀ l σ, op (Many l) σ = for_each op l σ) →
  (∀ s σ, s ∈ flatten x → P σ → P (fst (op (One s) σ))) →
  P σ → P (fst (op x σ)).
Proof.
  intros Hmany. revert σ.
  induction x as [s|l IH] using SiteArg_induction; intros σ Hone HP.
  - apply Hone; [by left|done].
  - rewrite Hmany. apply for_each_preserves; [|done].
    intros y σ' Hy HP'. rewrite Forall_forall in IH. apply IH; [done| |done].
    intros s σ'' Hs. apply Hone. simpl.
    apply list_elem_of_In, in_concat. exists (flatten y).
    split; [apply in_map|]; by apply list_elem_of_In.
Qed.

Lemma empty_network_consistent spec name : consistent (empty_network spec name).
Proof.
  intros c t Ht. unfold targets, chan_of, empty_network in Ht; simpl in Ht.
  rewrite lookup_total_empty in Ht. by apply not_elem_of_empty in Ht.
Qed.

Lemma consistent_sources_only σ σ' :
  site_heap σ' = site_heap σ → next_obj σ' = next_obj σ →
  (∀ c, targets σ' c = targets σ c) → consistent σ → consistent σ'.
Proof.
  intros Hs Hn Ht Hcon c t Hin. rewrite Ht in Hin.
  unfold producer, site_of. rewrite Hs, Hn. by apply Hcon.
Qed.

Lemma add_input_consistent c x σ :
  consistent σ → consistent (fst (add_input c x σ)).
Proof.
  apply (SiteArg_preserves consistent (add_input c)); [done|].
  intros s σ' _. simpl. case_bool_decide; [done|]. simpl.
  apply consistent_sources_only; try done.
  intros d. unfold targets. rewrite chan_of_update_chan.
  by destruct (decide (c = d)) as [->|].
Qed.

Lemma discard_input_consistent c x σ :
  consistent σ → consistent (fst (discard_input c x σ)).
Proof.
  apply (SiteArg_preserves consistent (discard_input c)); [done|].
  intros s σ' _. simpl. destruct (list_remove s (sources σ' c)); [|done].
  simpl. apply consistent_sources_only; try done.
  intros d. unfold targets. rewrite chan_of_update_chan.
  by destruct (decide (c = d)) as [->|].
Qed.

Lemma add_output_one_consistent c (s : addr) σ :
  (s < next_obj σ)%nat → consistent σ →
  consistent (fst (add_output c (One s) σ))
  ∧ next_obj (fst (add_output c (One s) σ)) = next_obj σ.
Proof.
  intros Hs Hcon. rewrite add_output_one.
  assert (Hclaim : producer σ s = None ∨ producer σ s = Some c →
            consistent (update_chan c (with_c_target ({[s]} ∪ targets σ c))
                          (update_site s (with_producer (Some c)) σ))).
  { intros Hfree d t. unfold targets, producer.
    rewrite chan_of_update_chan, site_of_update_chan, site_of_update_site.
    simpl. destruct (decide (c = d)) as [->|Hne]; simpl.
    - intros [->%elem_of_singleton|Ht]%elem_of_union.
      + by rewrite decide_True.
      + destruct (Hcon d t Ht) as [Hp ?]. split; [|done].
        destruct (decide (s = t)); [done|exact Hp].
    - intros Ht. destruct (Hcon d t Ht) as [Hp ?]. split; [|done].
      destruct (decide (s = t)) as [->|]; [|exact Hp].
      unfold producer in *. destruct Hfree; congruence. }
  destruct (producer σ s) as [p|] eqn:Hp.
  - destruct (decide (p = c)) as [->|Hne].
    + split; [apply Hclaim; by right|done].
    + by destruct (producer_conflict_raises s p σ) as (e & -> & _).
  - split; [apply Hclaim; by left|done].
Qed.

Lemma add_output_consistent c x σ :
  existing σ x → consistent σ → consistent (fst (add_output c x σ)).
Proof.
  intros Hex Hcon.
  apply (SiteArg_preserves
           (λ σ', consistent σ' ∧ next_obj σ' = next_obj σ)
           (add_output c) x σ); [done| |done].
  intros s σ' Hs [Hcon' Hn].
  destruct (add_output_one_consistent c s σ') as [? ?]; [|done|].
  - rewrite Hn. by eapply Forall_forall in Hex.
  - split; [done|congruence].
Qed.

Lemma discard_output_consistent c x σ :
  consistent σ → consistent (fst (discard_output c x σ)).
Proof.
  apply (SiteArg_preserves consistent (discard_output c)); [done|].
  intros s σ' _ Hcon. simpl. case_bool_decide; [|done]. simpl.
  intros d t. unfold targets, producer.
  rewrite chan_of_update_chan, site_of_update_chan, site_of_update_site.
  intros Ht. assert (t ∈ targets σ' d) as Hold.
  { destruct (decide (c = d)) as [->|]; [|done]. simpl in Ht.
    by apply elem_of_difference in Ht as [? _]. }
  destruct (Hcon d t Hold) as [Hp ?]. split; [|done].
  destruct (decide (s = t)) as [->|]; exact Hp.
Qed.

Lemma consistent_update_site a f σ :
  (∀ s, s_producer (f s) = s_producer s) →
  consistent σ → consistent (update_site a f σ).
Proof.
  intros Hf Hcon c t Ht. destruct (Hcon c t Ht) as [Hp ?]. split; [|done].
  unfold producer. rewrite site_of_update_site.
  destruct (decide (a = t)) as [->|]; [by rewrite Hf|done].
Qed.

Lemma consistent_update_net f σ : consistent σ → consistent (update_net f σ).
Proof. by apply consistent_sources_only. Qed.

Lemma consistent_set_chan_level c l σ :
  consistent σ → consistent (set_chan_level c l σ).
Proof.
  apply consistent_sources_only; try done. intros d. unfold targets.
  unfold set_chan_level. rewrite chan_of_update_chan.
  by destruct (decide (c = d)) as [->|].
Qed.

Lemma channel_created_consistent label σ :
  consistent σ → consistent (channel_created label σ).
Proof.
  intros Hcon c t. unfold targets, chan_of, channel_created; simpl.
  destruct (decide (next_obj σ = c)) as [<-|Hne].
  - rewrite lookup_total_insert_eq. simpl. intros Ht.
    by apply not_elem_of_empty in Ht.
  - rewrite lookup_total_insert_ne by done. intros Ht.
    destruct (Hcon c t Ht). split; [done|lia].
Qed.

Lemma add_input_next_obj c x σ :
  next_obj (fst (add_input c x σ)) = next_obj σ.
Proof. by destruct (add_input_frame c x σ) as (σ' & -> & _ & _ & Hn & _). Qed.

Lemma Channel_init_consistent source target label σ :
  existing σ target → consistent σ →
  consistent (fst (Channel_init source target label σ)).
Proof.
  intros Hex Hcon. rewrite Channel_init_steps.
  pose proof (add_input_consistent (next_obj σ) source _
                (channel_created_consistent label σ Hcon)) as H1.
  pose proof (add_input_next_obj (next_obj σ) source
                (channel_created label σ)) as Hn.
  destruct (add_input _ source _) as [σ1 [[]|e]]; [|done].
  simpl in H1, Hn.
  pose proof (add_output_consistent (next_obj σ) target σ1) as H2.
  destruct (add_output _ target σ1) as [σ2 [[]|e]]; simpl in *.
  - apply consistent_set_chan_level, H2; [|done].
    eapply Forall_impl; [exact Hex|]. intros s Hs. rewrite Hn.
    unfold channel_created; simpl in *. lia.
  - apply H2; [|done].
    eapply Forall_impl; [exact Hex|]. intros s Hs. rewrite Hn.
    unfold channel_created; simpl in *. lia.
Qed.

Lemma create_channel_consistent source target σ :
  existing σ target → consistent σ →
  consistent (fst (create_channel source target σ)).
Proof.
  intros Hex Hcon. unfold create_channel, bind.
  pose proof (Channel_init_consistent source target None σ Hex Hcon) as H.
  destruct (Channel_init source target None σ) as [σ1 [new|e]]; [|done].
  simpl in *. by apply consistent_update_net.
Qed.

Lemma alloc_site_consistent id σ :
  consistent σ → consistent (fst (alloc_site id σ)).
Proof.
  intros Hcon c t Ht. destruct (Hcon c t Ht) as [Hp Hlt]. simpl.
  split; [|lia]. unfold producer, site_of; simpl.
  rewrite lookup_total_insert_ne by lia. exact Hp.
Qed.

Lemma Site_init_consistent args σ :
  consistent σ → consistent (fst (Site_init args σ)).
Proof.
  intros Hcon.
  assert (H1 : ∀ id, consistent (fst (alloc_site id (fst (next_site_ix σ))))).
  { intros id. by apply alloc_site_consistent, consistent_update_net. }
  assert (H2 : ∀ id f, (∀ s, s_producer (f s) = s_producer s) →
            consistent (update_site (next_obj σ) f
                          (fst (alloc_site id (fst (next_site_ix σ)))))).
  { intros id f Hf. by apply consistent_update_site. }
  assert (H3 : ∀ id,
            consistent
              (if forallb is_site args then
                 update_site (next_obj σ)
                   (with_sites
                      (SubSet (list_to_set
                                 (map (λ a, (s_id (site_of (fst (alloc_site id (fst (next_site_ix σ)))) a), a))
                                      (site_addrs args)))))
                   (fst (alloc_site id (fst (next_site_ix σ))))
               else fst (alloc_site id (fst (next_site_ix σ))))).
  { intros id. destruct (forallb is_site args); [by apply H2|apply H1]. }
  destruct args as [|v args]; [by apply H2|].
  destruct v; try (specialize (H3 ("_s" +:+ str_of_int (n_site_ix (net σ) + 1)));
                   lazy beta iota zeta delta [Site_init bind next_site_ix alloc_site modify ret raise fst] in *;
                   by destruct (forallb is_site _)).
  destruct args as [|w args]; [by apply H2|].
  specialize (H3 ("_s" +:+ str_of_int (n_site_ix (net σ) + 1))).
  lazy beta iota zeta delta [Site_init bind next_site_ix alloc_site modify ret raise fst] in *.
  by destruct (forallb is_site _).
Qed.

Lemma Network_site_consistent args create σ :
  consistent σ → consistent (fst (Network_site args create σ)).
Proof.
  intros Hcon. destruct args as [|[] [|]]; try done. simpl.
  destruct (dict_get s (n_sites (net σ))); [done|].
  destruct create; [|done]. unfold bind.
  pose proof (Site_init_consistent [VStr s] σ Hcon) as H.
  destruct (Site_init [VStr s] σ) as [σ1 [new|e]]; [|done].
  simpl in *. by apply consistent_update_net.
Qed.

(** *** What [compute_order] leaves alone *)

Lemma next_obj_foldl {A} (f : State → A → State) l σ :
  (∀ σ x, next_obj (f σ x) = next_obj σ) → next_obj (foldl f σ l) = next_obj σ.
Proof.
  intros Hf. revert σ. induction l as [|x l IH]; intros σ; simpl; [done|].
  by rewrite IH, Hf.
Qed.

Lemma next_obj_reset_order σ : next_obj (reset_order σ) = next_obj σ.
Proof.
  unfold reset_order. rewrite next_obj_foldl.
  - apply next_obj_foldl. intros σ' s. unfold reset_site.
    by destruct (producer σ' s).
  - intros σ' c. unfold reset_channel. by rewrite next_obj_foldl.
Qed.

Lemma next_obj_visits i l d σ :
  next_obj (snd (foldl (visit i) (d, σ) l)) = next_obj σ.
Proof.
  revert d σ. induction l as [|c l IH]; intros d σ; cbn [foldl]; [done|].
  rewrite visit_eq. destruct (fires i σ c); [|apply IH].
  rewrite IH. unfold resolve, promote. by rewrite next_obj_foldl.
Qed.

Lemma next_obj_relax fuel done i σ j σ' :
  relax fuel done i σ = Some (j, σ') → next_obj σ' = next_obj σ.
Proof.
  revert done i σ. induction fuel as [|fuel IH]; intros done i σ;
    rewrite relax_unfold; destruct (negb done && _); try done;
    try by intros [= <- <-].
  intros Hrun. apply IH in Hrun. rewrite Hrun. apply next_obj_visits.
Qed.

Lemma next_obj_sort_structure σ : next_obj (sort_structure σ) = next_obj σ.
Proof. unfold sort_structure. by rewrite next_obj_foldl. Qed.

Lemma sort_sources_attrs (l : list addr) σ c :
  let σ' :=
    foldl (λ σ c,
             update_chan c
               (with_c_source (sorted_by (λ s, - site_level σ s) (sources σ c)))
               σ) σ l in
  c_id (chan_of σ' c) = c_id (chan_of σ c)
  ∧ c_label (chan_of σ' c) = c_label (chan_of σ c).
Proof.
  revert σ. induction l as [|x l IH]; intros σ; cbn [foldl]; [done|].
  cbv zeta in IH.
  match goal with |- context [foldl _ ?σ1 l] =>
    destruct (IH σ1) as [-> ->] end.
  rewrite chan_of_update_chan. by destruct (decide (x = c)) as [->|].
Qed.

(** [compute_order] changes levels and orders, nothing else: every site
    keeps its identifier, label, children and producer; every channel keeps
    its identifier, label and target set, and its sources up to their
    order; the site mapping is unchanged and the channel mapping has the
    same entries. *)
Theorem compute_order_frame (σ : State) (out : Outcome) :
  compute_order σ = Some out →
  next_obj (out_state out) = next_obj σ
  ∧ n_sites (net (out_state out)) = n_sites (net σ)
  ∧ n_channels (net (out_state out)) ≡ₚ n_channels (net σ)
  ∧ (∀ s, with_level 0 (site_of (out_state out) s) = with_level 0 (site_of σ s))
  ∧ (∀ c, c_id (chan_of (out_state out) c) = c_id (chan_of σ c)
          ∧ c_label (chan_of (out_state out) c) = c_label (chan_of σ c)
          ∧ targets (out_state out) c = targets σ c
          ∧ sources (out_state out) c ≡ₚ sources σ c).
Proof.
  intros (i & σ' & Hrun & ->)%compute_order_fuel_inv.
  rewrite evaluate_state.
  pose proof (next_obj_relax _ _ _ _ _ _ Hrun) as Hn.
  apply relax_bounds in Hrun as (_ & _ & Hl).
  destruct (reset_order_spec σ) as (Hl0 & _).
  pose proof (levels_only_trans _ _ _ Hl0 Hl) as (Hnet & Hsites & Hchans).
  destruct (sort_structure_spec σ') as (Hheap & Hns & Hnc & Hcs).
  split; [by rewrite next_obj_sort_structure, Hn, next_obj_reset_order|].
  split; [by rewrite Hns, Hnet|].
  split; [by rewrite Hnc, sorted_by_perm, Hnet|].
  split.
  - intros s. unfold site_of at 1. rewrite Hheap. apply Hsites.
  - intros c. destruct (Hcs c) as (_ & Htgt & Hsrc).
    pose proof (f_equal c_id (Hchans c)) as Hid.
    pose proof (f_equal c_label (Hchans c)) as Hlab.
    pose proof (f_equal c_target (Hchans c)) as Ht.
    pose proof (f_equal c_source (Hchans c)) as Hso. simpl in *.
    unfold sort_structure. cbv zeta.
    match goal with |- context [foldl _ ?σ1 ?l] =>
      destruct (sort_sources_attrs l σ1 c) as [-> ->] end.
    split; [exact Hid|]. split; [exact Hlab|].
    fold (sort_structure σ'). rewrite Htgt, Hsrc. unfold targets, sources.
    by rewrite Ht, Hso.
Qed.

Lemma compute_order_consistent σ out :
  consistent σ → compute_order σ = Some out → consistent (out_state out).
Proof.
  intros Hcon Hout c t.
  destruct (compute_order_frame σ out Hout) as (Hn & _ & _ & Hs & Hc).
  destruct (Hc c) as (_ & _ & -> & _). intros Ht.
  destruct (Hcon c t Ht) as [Hp ?]. rewrite Hn. split; [|done].
  pose proof (f_equal s_producer (Hs t)) as Heq. simpl in Heq.
  unfold producer. by rewrite Heq.
Qed.

(** The single-producer invariant holds in the empty network and every
    operation keeps it, whether it returns or raises: each site in a target
    set has that channel as its producer, so no site is a target of two
    channels. *)
Theorem consistent_preserved :
  (∀ spec name, consistent (empty_network spec name))
  ∧ ∀ σ, consistent σ →
      (∀ c t c', t ∈ targets σ c → t ∈ targets σ c' → c = c')
      ∧ (∀ c x, consistent (fst (add_input c x σ)))
      ∧ (∀ c x, consistent (fst (discard_input c x σ)))
      ∧ (∀ c x, existing σ x → consistent (fst (add_output c x σ)))
      ∧ (∀ c x, consistent (fst (discard_output c x σ)))
      ∧ (∀ source target label,
           existing σ target →
           consistent (fst (Channel_init source target label σ)))
      ∧ (∀ source target,
           existing σ target → consistent (fst (create_channel source target σ)))
      ∧ (∀ args, consistent (fst (Site_init args σ)))
      ∧ (∀ args create, consistent (fst (Network_site args create σ)))
      ∧ (∀ out, compute_order σ = Some out → consistent (out_state out)).
Proof.
  split; [exact empty_network_consistent|]. intros σ Hcon.
  split.
  { intros c t c' Ht Ht'. destruct (Hcon c t Ht), (Hcon c' t Ht'). congruence. }
  split; [intros; by apply add_input_consistent|].
  split; [intros; by apply discard_input_consistent|].
  split; [intros; by apply add_output_consistent|].
  split; [intros; by apply discard_output_consistent|].
  split; [intros; by apply Channel_init_consistent|].
  split; [intros; by apply create_channel_consistent|].
  split; [intros; by apply Site_init_consistent|].
  split; [intros; by apply Network_site_consistent|].
  intros out. by apply compute_order_consistent.
Qed.

(** ** Levels follow the dependencies *)

Section dependency_order.
Context (σ : State) (Hcon : consistent σ) (Hreg : registered_targets σ).

Lemma order_inv_reset : order_inv σ 0 (reset_order σ).
Proof.
  destruct (reset_order_spec σ) as (Hl & Hc & Hs). split; [done|].
  intros c Hin. rewrite Hc, decide_True by done.
  split; [lia|]. split; [lia|]. intros _ t Ht. left.
  rewrite Hs. unfold level_after_reset.
  rewrite (decide_True (P := t ∈ site_values σ)) by by eapply Hreg.
  unfold reset_level. destruct (Hcon c t Ht) as [-> _].
  by rewrite decide_False by (intros [? _]; lia).
Qed.

Lemma order_inv_mono i j σ' : i ≤ j → order_inv σ i σ' → order_inv σ j σ'.
Proof.
  intros Hij (Hl & Hinv). split; [done|]. intros c Hin.
  destruct (Hinv c Hin) as (H1 & H2 & H3). split; [done|]. split.
  - intros Hlt. destruct (H2 Hlt) as (? & ? & ?). split; [lia|done].
  - intros Heq t Ht. destruct (H3 Heq t Ht) as [?|[? ?]]; [by left|right].
    split; [lia|done].
Qed.

Lemma order_inv_visit i d σ' c0 :
  0 ≤ i → c0 ∈ chan_values σ →
  order_inv σ i σ' → order_inv σ i (snd (visit i (d, σ') c0)).
Proof.
  intros Hi Hin0 (Hl & Hinv). rewrite visit_eq.
  destruct (fires i σ' c0) eqn:Hf; [|done]. simpl.
  destruct (resolve_spec i c0 σ') as (Hl' & Hc & Hs).
  split; [by eapply levels_only_trans|].
  apply fires_iff in Hf as [Hlev Hready].
  rewrite (levels_only_sources Hl) in Hready.
  rewrite (levels_only_targets Hl) in Hs.
  destruct (Hinv c0 Hin0) as (Hcap0 & Hres0 & Hpend0).
  assert (Hblocked : ∀ s, s ∈ targets σ c0 → site_level σ' s ≤ i →
                          site_level σ' s < 1000 →
                          site_level σ' s = i + 1 ∧ chan_level σ' c0 = i).
  { intros s Hs0 Hle Hlow.
    destruct (Z.eq_dec (chan_level σ' c0) 1000) as [Heq|Hne].
    - destruct (Hpend0 Heq s Hs0) as [?|[? ?]]; lia.
    - destruct Hres0 as (? & _ & Htg); [lia|]. rewrite (Htg s Hs0) in *. lia. }
  intros c Hin. rewrite Hc.
  destruct (Hinv c Hin) as (Hcap & Hres & Hpend).
  destruct (decide (c0 = c)) as [->|Hne].
  - split; [lia|]. split.
    + intros Hlt. split; [lia|]. split.
      * intros s Hsrc. rewrite Hs. case_decide as Ht; [|by apply Hready].
        specialize (Hready s Hsrc). destruct (Hblocked s Ht); lia.
      * intros t Ht. by rewrite Hs, decide_True.
    + intros -> t Ht. right. by rewrite Hs, decide_True.
  - assert (Hother : ∀ t, t ∈ targets σ c → t ∉ targets σ c0).
    { intros t Ht Ht0. destruct (Hcon c t Ht), (Hcon c0 t Ht0). congruence. }
    split; [done|]. split.
    + intros Hlt. destruct (Hres Hlt) as (Hbound & Hsrc & Htgt).
      split; [done|]. split.
      * intros s Hin_s. rewrite Hs. case_decide as Ht; [|by apply Hsrc].
        specialize (Hsrc s Hin_s). destruct (Hblocked s Ht); lia.
      * intros t Ht. rewrite Hs, decide_False by by apply Hother.
        by apply Htgt.
    + intros Heq t Ht. rewrite Hs, decide_False by by apply Hother.
      by apply Hpend.
Qed.

Lemma order_inv_visits i l d σ' :
  0 ≤ i → Forall (λ c, c ∈ chan_values σ) l →
  order_inv σ i σ' → order_inv σ i (snd (foldl (visit i) (d, σ') l)).
Proof.
  intros Hi Hall. revert d σ'.
  induction Hall as [|c l Hc _ IH]; intros d σ' Hinv; cbn [foldl]; [done|].
  destruct (visit i (d, σ') c) as [d1 σ1] eqn:Hv. apply IH.
  change σ1 with (snd (d1, σ1)). rewrite <- Hv. by apply order_inv_visit.
Qed.

Lemma order_inv_relax fuel done i σ' j σ'' :
  0 ≤ i → order_inv σ i σ' → relax fuel done i σ' = Some (j, σ'') →
  order_inv σ j σ''.
Proof.
  revert done i σ'. induction fuel as [|fuel IH]; intros done i σ' Hi Hinv;
    rewrite relax_unfold; destruct (negb done && _); try done;
    try by intros [= <- <-].
  apply IH; [lia|]. apply (order_inv_mono i); [lia|].
  apply order_inv_visits; [done| |done].
  destruct Hinv as (Hl & _). rewrite (levels_only_chan_values Hl).
  by apply Forall_forall.
Qed.

(** When every target of a channel has this channel as producer and is a
    site of the network, [compute_order] leaves each channel of the network
    either at [1000] or at a level from [0] to [999] that is not below the
    level of any of its sources and is one below the level of each of its
    targets. *)
Theorem levels_respect_dependencies (out : Outcome) (c : addr) :
  compute_order σ = Some out → c ∈ chan_values σ →
  chan_level (out_state out) c ≠ 1000 →
  0 ≤ chan_level (out_state out) c < 1000
  ∧ (∀ s, s ∈ sources σ c →
          site_level (out_state out) s ≤ chan_level (out_state out) c)
  ∧ (∀ t, t ∈ targets σ c →
          site_level (out_state out) t = chan_level (out_state out) c + 1).
Proof.
  intros (i & σ' & Hrun & ->)%compute_order_fuel_inv Hin.
  rewrite evaluate_state.
  apply (order_inv_relax _ _ _ _ _ _ (Z.le_refl 0) order_inv_reset) in Hrun
    as (Hl & Hinv).
  destruct (Hinv c Hin) as (Hcap & Hres & _).
  rewrite sort_structure_chan_level. intros Hne.
  destruct Hres as ((? & ?) & Hsrc & Htgt); [lia|].
  split; [lia|]. split.
  - intros s Hs. rewrite sort_structure_site_level. by apply Hsrc.
  - intros t Ht. rewrite sort_structure_site_level. by apply Htgt.
Qed.

End dependency_order.

(** ** What is left unresolved, and the roots *)

Lemma relax_last_quiet fuel i σ j σ' :
  relax fuel false i σ = Some (j, σ') → j < channel_count σ + 10 →
  i < j ∧ pass (j - 1) σ' = (true, σ').
Proof.
  revert i σ. induction fuel as [|fuel IH]; intros i σ;
    rewrite relax_unfold; simpl negb; cbn [andb];
    destruct (Z.ltb_spec i (channel_count σ + 10)) as [Hlt|Hge];
    try done; try (intros [= <- <-]; lia).
  destruct (fst (pass i σ)) eqn:Hflag.
  - assert (Hp : pass i σ = (true, σ)).
    { unfold pass in *.
      destruct (quiet_visits _ _ _ _ Hflag) as (_ & Hsame & _).
      destruct (foldl (visit i) (true, σ) (chan_values σ)) as [d σ1].
      simpl in *. by subst. }
    rewrite Hp, relax_unfold. simpl. intros [= <- <-] _. split; [lia|].
    by replace (i + 1 - 1) with i by lia.
  - intros Hrun Hcap.
    rewrite <- (levels_only_channel_count (levels_only_pass i σ)) in Hcap.
    destruct (IH _ _ Hrun Hcap). split; [lia|done].
Qed.

(** No channel that could be resolved is left behind: for a network of at
    most 1000 channels, a channel left at [1000] has a source whose level
    is at least the number of iterations the loop made, so it was not ready
    in the last iteration. *)
Theorem unreachable_has_late_source (σ : State) (out : Outcome) (c : addr) :
  compute_order σ = Some out → channel_count σ ≤ 1000 →
  c ∈ chan_values σ → chan_level (out_state out) c = 1000 →
  ∃ s, s ∈ sources σ c ∧ out_steps out ≤ site_level (out_state out) s.
Proof.
  intros Hout Hsmall Hin. pose proof (compute_order_steps σ out Hout) as Hsteps.
  apply compute_order_fuel_inv in Hout as (i & σ' & Hrun & ->).
  rewrite evaluate_state, evaluate_steps in *.
  rewrite sort_structure_chan_level. intros Hlev.
  destruct (reset_order_spec σ) as (Hl0 & _).
  destruct (relax_last_quiet _ _ _ _ _ Hrun) as [Hpos Hquiet].
  { rewrite (levels_only_channel_count Hl0). lia. }
  apply relax_bounds in Hrun as (_ & _ & Hl).
  pose proof (levels_only_trans _ _ _ Hl0 Hl) as Hl'.
  assert (Hflag : fst (pass (i - 1) σ') = true) by by rewrite Hquiet.
  unfold pass in Hflag.
  destruct (quiet_visits _ _ _ _ Hflag) as (_ & _ & Hnone).
  rewrite (levels_only_chan_values Hl'), Forall_forall in Hnone.
  specialize (Hnone c Hin). unfold fires in Hnone. rewrite Hlev in Hnone.
  destruct (Z.ltb_spec 1000 (i - 1)); [lia|]. simpl in Hnone.
  apply negb_false_iff, existsb_exists in Hnone as (s & Hs & Hlate).
  exists s. rewrite sort_structure_site_level.
  apply list_elem_of_In in Hs. rewrite (levels_only_sources Hl') in Hs.
  apply Z.ltb_lt in Hlate. split; [done|lia].
Qed.

Lemma visits_untargeted i l d σ t :
  (∀ c, c ∈ l → t ∉ targets σ c) →
  site_level (snd (foldl (visit i) (d, σ) l)) t = site_level σ t.
Proof.
  revert d σ. induction l as [|c l IH]; intros d σ Hfree; cbn [foldl]; [done|].
  rewrite visit_eq. destruct (fires i σ c).
  - destruct (resolve_spec i c σ) as (Hl & _ & Hs). rewrite IH.
    + rewrite Hs, decide_False; [done|]. apply Hfree. by left.
    + intros c' Hc'. rewrite (levels_only_targets Hl). apply Hfree. by right.
  - apply IH. intros c' Hc'. apply Hfree. by right.
Qed.

Lemma relax_untargeted fuel done i σ j σ' t :
  (∀ c, c ∈ chan_values σ → t ∉ targets σ c) →
  relax fuel done i σ = Some (j, σ') → site_level σ' t = site_level σ t.
Proof.
  revert done i σ. induction fuel as [|fuel IH]; intros done i σ Hfree;
    rewrite relax_unfold; destruct (negb done && _); try done;
    try by intros [= <- <-].
  intros Hrun. apply IH in Hrun.
  - rewrite Hrun. by apply visits_untargeted.
  - pose proof (levels_only_pass i σ) as Hl.
    intros c. rewrite (levels_only_chan_values Hl), (levels_only_targets Hl).
    apply Hfree.
Qed.

(** A site of the network without producer ends at [0] when it is a source
    of a channel of the network and at [-1], orphaned, when it is not. *)
Theorem root_levels (σ : State) (out : Outcome) (r : addr) :
  consistent σ → compute_order σ = Some out →
  r ∈ site_values σ → producer σ r = None →
  site_level (out_state out) r = if decide (is_source σ r) then 0 else -1.
Proof.
  intros Hcon (i & σ' & Hrun & ->)%compute_order_fuel_inv Hreg Hroot.
  rewrite evaluate_state, sort_structure_site_level.
  destruct (reset_order_spec σ) as (Hl & _ & Hs).
  assert (Hfree : ∀ c, c ∈ chan_values (reset_order σ) →
                       r ∉ targets (reset_order σ) c).
  { intros c _. rewrite (levels_only_targets Hl). intros Ht.
    destruct (Hcon c r Ht). congruence. }
  rewrite (relax_untargeted _ _ _ _ _ _ r Hfree Hrun).
  rewrite Hs. unfold level_after_reset, reset_level.
  rewrite (decide_True (P := r ∈ site_values σ)) by done. rewrite Hroot.
  repeat case_decide; try done; exfalso; tauto.
Qed.

(** *** Instances on the example networks *)

Lemma consistent_by_eval σ :
  map_Forall (λ c ch,
                set_Forall (λ t, producer σ t = Some c ∧ (t < next_obj σ)%nat)
                           (c_target ch))
             (chan_heap σ) →
  consistent σ.
Proof.
  intros H c t Ht. unfold targets, chan_of in Ht.
  rewrite lookup_total_alt in Ht.
  destruct (chan_heap σ !! c) as [ch|] eqn:Hc; simpl in Ht.
  - exact (H c ch Hc t Ht).
  - by apply not_elem_of_empty in Ht.
Qed.

Lemma registered_targets_by_eval σ :
  Forall (λ c, set_Forall (λ t, t ∈ site_values σ) (targets σ c))
         (chan_values σ) →
  registered_targets σ.
Proof.
  intros H c t Hc Ht. rewrite Forall_forall in H. exact (H c Hc t Ht).
Qed.

Lemma chain_example_consistent : consistent (fst chain_example).
Proof. apply consistent_by_eval. by_eval. Qed.

Lemma chain_example_registered : registered_targets (fst chain_example).
Proof. apply registered_targets_by_eval. by_eval. Qed.

Lemma chain_example_run :
  (λ out, (chan_level (out_state out) 2%nat, site_level (out_state out) 0%nat))
    <$> compute_order (fst chain_example) = Some (0, 0).
Proof. by vm_compute. Qed.

Lemma cycle_example_run :
  (λ out, chan_level (out_state out) 2%nat) <$> compute_order (fst cycle_example)
  = Some 1000.
Proof. by vm_compute. Qed.

Lemma chain_example_root :
  0%nat ∈ site_values (fst chain_example) ∧ producer (fst chain_example) 0%nat = None.
Proof. split; [by_eval|by vm_compute]. Qed.

Lemma compute_order_frame_witness :
  ∃ out, compute_order (fst chain_example) = Some out
         ∧ n_sites (net (out_state out)) = n_sites (net (fst chain_example))
         ∧ targets (out_state out) 2%nat = targets (fst chain_example) 2%nat.
Proof.
  destruct (compute_order_returns (fst chain_example)) as (i & σ' & _ & Hout).
  eexists. split; [exact Hout|].
  destruct (compute_order_frame _ _ Hout) as (_ & Hsites & _ & _ & Hc).
  split; [exact Hsites|]. apply Hc.
Defined.

Lemma consistent_preserved_witness :
  consistent (fst chain_example)
  ∧ ∀ c x, consistent (fst (discard_output c x (fst chain_example))).
Proof.
  split; [exact chain_example_consistent|].
  apply (proj2 consistent_preserved (fst chain_example)
           chain_example_consistent).
Defined.

Lemma levels_respect_dependencies_witness :
  ∃ out, compute_order (fst chain_example) = Some out
    ∧ 2%nat ∈ chan_values (fst chain_example)
    ∧ chan_level (out_state out) 2%nat ≠ 1000
    ∧ ∀ t, t ∈ targets (fst chain_example) 2%nat →
           site_level (out_state out) t = chan_level (out_state out) 2%nat + 1.
Proof.
  pose proof chain_example_run as Hrun.
  destruct (compute_order (fst chain_example)) as [out|] eqn:Hout; [|done].
  injection Hrun as Hlev _. exists out. split; [done|].
  assert (Hin : 2%nat ∈ chan_values (fst chain_example)) by by_eval.
  assert (Hne : chan_level (out_state out) 2%nat ≠ 1000) by (rewrite Hlev; lia).
  split; [exact Hin|]. split; [exact Hne|].
  apply (levels_respect_dependencies (fst chain_example)
           chain_example_consistent chain_example_registered out 2%nat
           Hout Hin Hne).
Defined.

Lemma unreachable_has_late_source_witness :
  ∃ out, compute_order (fst cycle_example) = Some out
    ∧ channel_count (fst cycle_example) ≤ 1000
    ∧ 2%nat ∈ chan_values (fst cycle_example)
    ∧ chan_level (out_state out) 2%nat = 1000
    ∧ ∃ s, s ∈ sources (fst cycle_example) 2%nat
           ∧ out_steps out ≤ site_level (out_state out) s.
Proof.
  pose proof cycle_example_run as Hrun.
  destruct (compute_order (fst cycle_example)) as [out|] eqn:Hout; [|done].
  injection Hrun as Hlev. exists out. split; [done|].
  assert (Hsmall : channel_count (fst cycle_example) ≤ 1000) by by vm_compute.
  assert (Hin : 2%nat ∈ chan_values (fst cycle_example)) by by_eval.
  split; [exact Hsmall|]. split; [exact Hin|]. split; [exact Hlev|].
  exact (unreachable_has_late_source _ out 2%nat Hout Hsmall Hin Hlev).
Defined.

Lemma root_levels_witness :
  ∃ out, compute_order (fst chain_example) = Some out
    ∧ consistent (fst chain_example)
    ∧ 0%nat ∈ site_values (fst chain_example)
    ∧ producer (fst chain_example) 0%nat = None
    ∧ site_level (out_state out) 0%nat
      = if decide (is_source (fst chain_example) 0%nat) then 0 else -1.
Proof.
  destruct (compute_order_returns (fst chain_example)) as (i & σ' & _ & Hout).
  destruct chain_example_root as [Hin Hroot].
  eexists. split; [exact Hout|]. split; [exact chain_example_consistent|].
  split; [exact Hin|]. split; [exact Hroot|].
  exact (root_levels _ _ 0%nat chain_example_consistent Hout Hin Hroot).
Defined.

(** ** Inputs of a channel *)

Lemma SiteArg_flatten (op : SiteArg → M unit) x σ :
  (∀ l σ, op (Many l) σ = for_each op l σ) →
  op x σ = for_each (λ s, op (One s)) (flatten x) σ.
Proof.
  intros Hmany. revert σ.
  induction x as [s|l IH] using SiteArg_induction; intros σ.
  - symmetry. apply (for_each_one (λ s, op (One s))).
  - rewrite Hmany. simpl. induction IH as [|y l Hy _ IHl] in σ |- *; [done|].
    simpl. rewrite for_each_app. apply bind_ext; [apply Hy|].
    intros _ σ'. apply IHl.
Qed.

Lemma add_input_one self s σ :
  add_input self (One s) σ
  = (if bool_decide (s ∈ sources σ self) then σ
     else update_chan self (with_c_source (sources σ self ++ [s])) σ, Ok tt).
Proof. simpl. by case_bool_decide. Qed.

Lemma add_input_sites self l σ :
  ∃ σ' new,
    for_each (λ s, add_input self (One s)) l σ = (σ', Ok tt)
    ∧ sources σ' self = sources σ self ++ new
    ∧ (∀ s, s ∈ new ↔ s ∈ l ∧ s ∉ sources σ self)
    ∧ NoDup new
    ∧ site_heap σ' = site_heap σ ∧ net σ' = net σ ∧ next_obj σ' = next_obj σ
    ∧ with_c_source [] (chan_of σ' self) = with_c_source [] (chan_of σ self)
    ∧ (∀ c, c ≠ self → chan_of σ' c = chan_of σ c).
Proof.
  revert σ. induction l as [|x l IH]; intros σ.
  - exists σ, []. rewrite app_nil_r.
    split; [done|]. split; [done|]. split; [|split; [constructor|done]].
    intros s. rewrite !elem_of_nil. tauto.
  - rewrite for_each_cons. unfold bind. rewrite add_input_one.
    destruct (decide (x ∈ sources σ self)) as [Hin|Hout].
    + rewrite bool_decide_eq_true_2 by done.
      destruct (IH σ) as (σ' & new & Hrun & Hsrc & Hnew & Hnd & Hrest).
      exists σ', new. split; [done|]. split; [done|]. split; [|done].
      intros s. rewrite Hnew, elem_of_cons. naive_solver.
    + rewrite bool_decide_eq_false_2 by done.
      set (σ1 := update_chan self (with_c_source (sources σ self ++ [x])) σ).
      assert (Hsrc1 : sources σ1 self = sources σ self ++ [x]).
      { unfold sources, σ1. by rewrite chan_of_update_chan, decide_True. }
      destruct (IH σ1) as (σ' & new & Hrun & Hsrc & Hnew & Hnd & Hs & Hn & Ho
                           & Ht & Hc).
      exists σ', (x :: new). split; [done|].
      split; [by rewrite Hsrc, Hsrc1, <- app_assoc|]. split; [|split].
      * intros s.
        rewrite (elem_of_cons new), (elem_of_cons l), Hnew, Hsrc1, elem_of_app.
        rewrite list_elem_of_singleton.
        destruct (decide (s = x)) as [->|]; naive_solver.
      * constructor; [|done]. rewrite Hnew, Hsrc1, elem_of_app.
        rewrite list_elem_of_singleton. tauto.
      * split; [done|]. split; [done|]. split; [done|]. split.
        -- rewrite Ht. unfold σ1.
           by rewrite chan_of_update_chan, decide_True.
        -- intros c Hne. rewrite Hc by done. unfold σ1.
           by rewrite chan_of_update_chan, decide_False.
Qed.

(** [add_input] never raises. It keeps the sources the channel had, in
    their order, and appends, once each, exactly the sites of the argument
    that were not sources yet; it touches nothing else. *)
Theorem add_input_appends_new (self : addr) (x : SiteArg) (σ : State) :
  ∃ σ' new,
    add_input self x σ = (σ', Ok tt)
    ∧ sources σ' self = sources σ self ++ new
    ∧ (∀ s, s ∈ new ↔ s ∈ flatten x ∧ s ∉ sources σ self)
    ∧ NoDup new
    ∧ site_heap σ' = site_heap σ ∧ net σ' = net σ
    ∧ targets σ' self = targets σ self
    ∧ (∀ c, c ≠ self → chan_of σ' c = chan_of σ c).
Proof.
  destruct (add_input_sites self (flatten x) σ)
    as (σ' & new & Hrun & Hsrc & Hnew & Hnd & Hs & Hn & _ & Ht & Hc).
  exists σ', new. rewrite SiteArg_flatten by done.
  repeat (split; [done|]). split; [|done].
  exact (f_equal c_target Ht).
Qed.

(** *** Removing inputs *)

Lemma list_remove_None x l : list_remove x l = None ↔ x ∉ l.
Proof.
  induction l as [|y l IH]; simpl.
  - split; [intros _; apply not_elem_of_nil|done].
  - rewrite not_elem_of_cons. destruct (decide (x = y)) as [->|Hne].
    + split; [done|]. by intros [? _].
    + destruct (list_remove x l); simpl.
      * split; [done|]. intros [_ Hout]. by apply IH in Hout.
      * split; [|done]. intros _. split; [done|]. by apply IH.
Qed.

Lemma list_remove_Some x l l' :
  list_remove x l = Some l' →
  ∃ l1 l2, l = l1 ++ x :: l2 ∧ l' = l1 ++ l2 ∧ x ∉ l1.
Proof.
  revert l'. induction l as [|y l IH]; intros l'; simpl; [done|].
  destruct (decide (x = y)) as [->|Hne].
  - intros [= <-]. exists [], l. split; [done|]. split; [done|].
    apply not_elem_of_nil.
  - destruct (list_remove x l) as [l0|]; [|done]. simpl. intros [= <-].
    destruct (IH l0 eq_refl) as (l1 & l2 & -> & -> & Hout).
    exists (y :: l1), l2. split; [done|]. split; [done|].
    by apply not_elem_of_cons.
Qed.

Lemma list_remove_snoc x l : x ∉ l → list_remove x (l ++ [x]) = Some l.
Proof.
  induction l as [|y l IH]; simpl.
  - intros _. by rewrite decide_True.
  - intros [Hne Hout]%not_elem_of_cons. rewrite decide_False by done.
    by rewrite IH.
Qed.

(** [discard_input] of a site raises [ValueError] and writes nothing when
    the site is not a source; otherwise it removes the first occurrence of
    the site and keeps the other sources in their order. Discarding a site
    that was just added as a new input restores the sources. *)
Theorem discard_input_removes (self s : addr) (σ : State) :
  (s ∉ sources σ self →
   discard_input self (One s) σ
   = (σ, Raise (ValueError "list.remove(x): x not in list")))
  ∧ (s ∈ sources σ self →
     ∃ σ' before after,
       discard_input self (One s) σ = (σ', Ok tt)
       ∧ sources σ self = before ++ s :: after
       ∧ sources σ' self = before ++ after
       ∧ (s ∉ before)
       ∧ targets σ' self = targets σ self
       ∧ site_heap σ' = site_heap σ)
  ∧ (s ∉ sources σ self →
     ∃ σ', discard_input self (One s) (fst (add_input self (One s) σ))
           = (σ', Ok tt)
           ∧ sources σ' self = sources σ self).
Proof.
  split; [|split].
  - intros Hout. simpl. by apply list_remove_None in Hout as ->.
  - intros Hin. simpl.
    destruct (list_remove s (sources σ self)) as [l'|] eqn:Hrem.
    + destruct (list_remove_Some _ _ _ Hrem) as (l1 & l2 & Hl & -> & Hout).
      eexists _, l1, l2. split; [done|]. split; [done|].
      unfold sources, targets.
      by rewrite chan_of_update_chan, decide_True.
    + by apply list_remove_None in Hrem.
  - intros Hout. rewrite add_input_one, bool_decide_eq_false_2 by done.
    simpl. unfold sources at 1.
    rewrite chan_of_update_chan, decide_True by done. simpl.
    rewrite list_remove_snoc by done. eexists. split; [done|].
    unfold sources. by rewrite chan_of_update_chan, decide_True.
Qed.

Lemma discard_input_removes_witness :
  let σ := fst chain_example in
  (0%nat ∈ sources σ 2%nat)
  ∧ ∃ σ', discard_input 2%nat (One 0%nat) σ = (σ', Ok tt)
          ∧ sources σ' 2%nat = [].
Proof.
  intros σ. assert (Hin : 0%nat ∈ sources σ 2%nat) by by_eval.
  split; [exact Hin|].
  destruct (proj1 (proj2 (discard_input_removes 2%nat 0%nat σ)) Hin)
    as (σ' & before & after & Hrun & Hsrc & Hsrc' & Hout & _).
  exists σ'. split; [exact Hrun|].
  assert (Hσ : sources σ 2%nat = [0%nat]) by (vm_compute; reflexivity).
  rewrite Hσ in Hsrc. rewrite Hsrc'.
  destruct before as [|b before]; simpl in Hsrc.
  - injection Hsrc as <-. reflexivity.
  - injection Hsrc as _ Hrest. destruct before; discriminate Hrest.
Defined.

(** ** Construction and lookup *)

Lemma dict_get_set {V} k (v : V) d : dict_get k (dict_set k v d) = Some v.
Proof.
  induction d as [|[k' v'] d IH]; simpl.
  - by rewrite decide_True.
  - destruct (decide (k = k')) as [->|Hne]; simpl.
    + by rewrite decide_True.
    + by rewrite decide_False.
Qed.

Lemma dict_get_set_ne {V} k k' (v : V) d :
  k ≠ k' → dict_get k (dict_set k' v d) = dict_get k d.
Proof.
  intros Hne. induction d as [|[k0 v0] d IH]; simpl.
  - by rewrite decide_False.
  - destruct (decide (k' = k0)) as [->|Hne0]; simpl.
    + by rewrite !decide_False.
    + destruct (decide (k = k0)); [done|exact IH].
Qed.

Lemma Network_site_creates k σ :
  dict_get k (n_sites (net σ)) = None →
  Network_site [VStr k] true σ = (site_registered k σ, Ok (VSite (next_obj σ))).
Proof.
  intros Hget. simpl. rewrite Hget. unfold bind, gets, modify, ret. simpl.
  unfold site_registered, register_site, update_net, update_site, site_of.
  simpl. rewrite !lookup_total_insert_eq. simpl.
  by rewrite insert_insert_eq.
Qed.

Lemma Network_site_known k a create σ :
  dict_get k (n_sites (net σ)) = Some a →
  Network_site [VStr k] create σ = (σ, Ok (VSite a)).
Proof. intros Hget. simpl. by rewrite Hget. Qed.

(** [Network.site] returns the site registered under a known key and
    writes nothing; for an unknown key it raises [KeyError] and writes
    nothing, unless [create] is set: then it makes a leaf site labelled
    with the key and registers it under the identifier it generates, not
    under the key. The new site is found under that identifier afterwards,
    and the key itself is still unknown unless it equals the identifier. *)
Theorem Network_site_lookup_create (k : string) (σ : State) :
  (∀ a create, dict_get k (n_sites (net σ)) = Some a →
               Network_site [VStr k] create σ = (σ, Ok (VSite a)))
  ∧ (dict_get k (n_sites (net σ)) = None →
     Network_site [VStr k] false σ
     = (σ, Raise (KeyError ("Key " +:+ k +:+ " is not a recognized site."))))
  ∧ (dict_get k (n_sites (net σ)) = None →
     let new := next_obj σ in
     let id := "_s" +:+ str_of_int (n_site_ix (net σ) + 1) in
     ∃ σ', Network_site [VStr k] true σ = (σ', Ok (VSite new))
       ∧ site_of σ' new = mkSite id (Some (Some k)) (SubDict ∅) None 4000 None
       ∧ dict_get id (n_sites (net σ')) = Some new
       ∧ Network_site [VStr id] false σ' = (σ', Ok (VSite new))
       ∧ (k ≠ id → dict_get k (n_sites (net σ')) = None)
       ∧ (∀ a, a ≠ new → site_of σ' a = site_of σ a)
       ∧ chan_heap σ' = chan_heap σ).
Proof.
  split; [|split].
  - intros a create. apply Network_site_known.
  - intros Hget. simpl. by rewrite Hget.
  - intros Hget new id. exists (site_registered k σ).
    split; [by apply Network_site_creates|].
    assert (Hid : dict_get id (n_sites (net (site_registered k σ))) = Some new)
      by apply dict_get_set.
    split; [apply lookup_total_insert_eq|]. split; [exact Hid|].
    split; [|split; [|split]].
    + by apply Network_site_known.
    + intros Hne. simpl. by rewrite dict_get_set_ne.
    + intros a Hne. unfold site_of; simpl. by rewrite lookup_total_insert_ne.
    + reflexivity.
Qed.

(** A channel constructed over targets that have no producer yet is a new
    object with the next identifier, the given label or else the
    identifier, level [-1], the distinct sites of [source] as sources and
    the sites of [target] as targets, each of which now has the channel as
    producer; no other object changes and both mappings of the network are
    as before (the constructor registers nothing). *)
Theorem Channel_init_success (source target : SiteArg) (label : option string)
    (σ : State) :
  Forall (λ t, producer σ t = None) (flatten target) →
  let new := next_obj σ in
  let id := "_c" +:+ str_of_int (n_channel_ix (net σ) + 1) in
  ∃ σ' (srcs : list addr),
    Channel_init source target label σ = (σ', Ok new)
    ∧ chan_of σ' new
      = mkChannel id (default id label) srcs (list_to_set (flatten target)) (-1)
    ∧ NoDup srcs
    ∧ (∀ s, s ∈ srcs ↔ s ∈ flatten source)
    ∧ (∀ t, t ∈ flatten target → producer σ' t = Some new)
    ∧ (∀ t, t ∉ flatten target → site_of σ' t = site_of σ t)
    ∧ (∀ c, c ≠ new → chan_of σ' c = chan_of σ c)
    ∧ n_sites (net σ') = n_sites (net σ)
    ∧ n_channels (net σ') = n_channels (net σ).
Proof.
  intros Hfree new id. subst new. set (new := next_obj σ).
  rewrite Channel_init_steps. fold new.
  assert (Hcreated : chan_of (channel_created label σ) new
                     = mkChannel id (default id label) [] ∅ (-1))
    by apply lookup_total_insert_eq.
  destruct (add_input_sites new (flatten source) (channel_created label σ))
    as (σ1 & srcs & Hrun1 & Hsrc & Hnew & Hnd & Hheap & Hnet1 & _ & Hrest & Hc1).
  rewrite (SiteArg_flatten (add_input new)) by done. rewrite Hrun1.
  destruct (add_output_takes new (flatten target) σ1)
    as (σ2 & Hrun2 & Hself & Hnet2 & Hout & Hin & Hc2).
  { eapply Forall_impl; [exact Hfree|]. intros t Ht. left.
    unfold producer, site_of in *. by rewrite Hheap. }
  rewrite add_output_flatten, Hrun2.
  exists (set_chan_level new (-1) σ2), srcs. split; [done|].
  assert (H1 : chan_of σ1 new = mkChannel id (default id label) srcs ∅ (-1)).
  { unfold sources in Hsrc. rewrite Hcreated in Hsrc, Hrest. simpl in *.
    destruct (chan_of σ1 new). unfold with_c_source in Hrest. simpl in *.
    injection Hrest as -> -> -> ->. by subst. }
  split; [|split; [done|split; [|split; [|split; [|split]]]]].
  - unfold set_chan_level. rewrite chan_of_update_chan, decide_True by done.
    rewrite Hself. unfold targets. rewrite H1. unfold with_c_level; simpl.
    f_equal. set_solver.
  - intros s. rewrite Hnew. unfold sources. rewrite Hcreated. simpl.
    split; [by intros [? _]|]. intros ?. split; [done|apply not_elem_of_nil].
  - intros t Ht. unfold producer, set_chan_level.
    by rewrite site_of_update_chan, Hin.
  - intros t Ht. unfold set_chan_level.
    rewrite site_of_update_chan, Hout by done.
    unfold site_of. by rewrite Hheap.
  - intros c Hne. unfold set_chan_level.
    rewrite chan_of_update_chan, decide_False by done.
    rewrite Hc2, Hc1 by done. unfold chan_of, channel_created; simpl.
    by rewrite lookup_total_insert_ne.
  - change (net (set_chan_level new (-1) σ2)) with (net σ2).
    by rewrite Hnet2, Hnet1.
Qed.

(** [Network.channel] with one string returns the channel registered under
    that key, or raises [KeyError], and writes nothing. With two endpoints
    whose targets have no producer yet it constructs the channel and
    registers it under its identifier, where a lookup finds it
    afterwards. *)
Theorem Network_channel_lookup_create (σ : State) :
  (∀ k, ∃ m, Network_channel [VStr k] = Some m
             ∧ m σ = match dict_get k (n_channels (net σ)) with
                     | Some a => (σ, Ok (VChannel a))
                     | None =>
                         (σ, Raise (KeyError ("Key " +:+ k
                                              +:+ " is not a recognized channel.")))
                     end)
  ∧ (∀ source target s t,
       site_arg source = Some s → site_arg target = Some t →
       Forall (λ a, producer σ a = None) (flatten t) →
       let new := next_obj σ in
       let id := "_c" +:+ str_of_int (n_channel_ix (net σ) + 1) in
       ∃ m σ', Network_channel [source; target] = Some m
         ∧ m σ = (σ', Ok (VChannel new))
         ∧ c_id (chan_of σ' new) = id
         ∧ targets σ' new = list_to_set (flatten t)
         ∧ dict_get id (n_channels (net σ')) = Some new
         ∧ (∃ m', Network_channel [VStr id] = Some m'
                  ∧ m' σ' = (σ', Ok (VChannel new)))).
Proof.
  split.
  - intros k. eexists. split; [reflexivity|]. simpl.
    by destruct (dict_get k (n_channels (net σ))).
  - intros source target s t Hs Ht Hfree new id.
    destruct (Channel_init_success s t None σ Hfree)
      as (σ1 & srcs & Hinit & Hchan & _ & _ & _ & _ & _ & _ & Hnc).
    fold new id in Hinit, Hchan.
    assert (Hm : Network_channel [source; target]
                 = Some (do new <- create_channel s t; ret (VChannel new))).
    { unfold Network_channel.
      destruct source; rewrite ?Hs, ?Ht; try reflexivity; discriminate Hs. }
    eexists _, (register_channel id new σ1). split; [exact Hm|].
    assert (Hnew : chan_of (register_channel id new σ1) new = chan_of σ1 new)
      by done.
    split; [|split; [|split; [|split]]].
    + unfold bind, create_channel, bind, gets, modify, ret.
      by rewrite Hinit, Hchan.
    + by rewrite Hnew, Hchan.
    + unfold targets. by rewrite Hnew, Hchan.
    + simpl. apply dict_get_set.
    + eexists. split; [reflexivity|]. simpl.
      by rewrite dict_get_set.
Qed.

Lemma Network_channel_lookup_create_witness :
  let σ := fst chain_example in
  ∃ m σ', Network_channel [VSite 3%nat; VList [VSite 0%nat]] = Some m
    ∧ m σ = (σ', Ok (VChannel (next_obj σ)))
    ∧ dict_get ("_c" +:+ str_of_int (n_channel_ix (net σ) + 1))
               (n_channels (net σ')) = Some (next_obj σ).
Proof.
  intros σ.
  destruct (proj2 (Network_channel_lookup_create σ)
              (VSite 3%nat) (VList [VSite 0%nat])
              (One 3%nat) (Many [One 0%nat]) eq_refl eq_refl)
    as (m & σ' & Hm & Hrun & _ & _ & Hget & _).
  - constructor; [vm_compute; reflexivity|constructor].
  - exists m, σ'. split; [exact Hm|]. split; [exact Hrun|exact Hget].
Defined.

Lemma Network_site_lookup_create_witness :
  let σ := empty_network "IF0.2" None in
  ∃ σ', Network_site [VStr "x"] true σ = (σ', Ok (VSite 0%nat))
        ∧ dict_get "_s0" (n_sites (net σ')) = Some 0%nat
        ∧ dict_get "x" (n_sites (net σ')) = None.
Proof.
  intros σ.
  destruct (proj2 (proj2 (Network_site_lookup_create "x" σ)) eq_refl)
    as (σ' & Hrun & _ & Hid & _ & Hk & _).
  assert (E : "_s" +:+ str_of_int (n_site_ix (net σ) + 1) = "_s0")
    by (vm_compute; reflexivity).
  rewrite E in Hid, Hk.
  exists σ'. split; [exact Hrun|]. split; [exact Hid|].
  apply Hk. discriminate.
Defined.

Lemma Channel_init_success_witness :
  let σ := fst chain_example in
  ∃ σ' (srcs : list addr),
    Channel_init (One 3%nat) (Many [One 0%nat]) None σ
    = (σ', Ok (next_obj σ))
    ∧ c_id (chan_of σ' (next_obj σ)) = "_c2"
    ∧ (∀ s, s ∈ srcs ↔ s ∈ [3%nat])
    ∧ producer σ' 0%nat = Some (next_obj σ).
Proof.
  intros σ.
  destruct (Channel_init_success (One 3%nat) (Many [One 0%nat])
              None σ)
    as (σ' & srcs & Hrun & Hchan & _ & Hsrc & Hprod & _).
  - constructor; [vm_compute; reflexivity|constructor].
  - assert (E : "_c" +:+ str_of_int (n_channel_ix (net σ) + 1) = "_c2")
      by (vm_compute; reflexivity).
    rewrite E in Hchan.
    exists σ', srcs. split; [exact Hrun|].
    split; [exact (f_equal c_id Hchan)|]. split; [exact Hsrc|].
    apply Hprod. apply list_elem_of_here.
Defined.

(** *** The final sort *)

Lemma StronglySorted_ext {A} (R R' : A → A → Prop) l :
  (∀ a b, R' a b → R a b) → StronglySorted R' l → StronglySorted R l.
Proof.
  intros HR. induction 1 as [|x l _ IH Hx]; constructor; [done|].
  eapply Forall_impl; [exact Hx|]. intros b. apply HR.
Qed.

Lemma insert_by_sorted {A} (key : A → Z) x l :
  StronglySorted (λ a b, key a ≤ key b) l →
  StronglySorted (λ a b, key a ≤ key b) (insert_by key x l).
Proof.
  induction 1 as [|y l Hl IH Hy]; simpl; [by repeat constructor|].
  destruct (Z.leb_spec (key x) (key y)) as [Hle|Hgt].
  - constructor; [by constructor|]. constructor; [done|].
    eapply Forall_impl; [exact Hy|]. simpl. lia.
  - constructor; [done|]. rewrite insert_by_perm.
    constructor; [lia|done].
Qed.

Lemma sorted_by_sorted {A} (key : A → Z) l :
  StronglySorted (λ a b, key a ≤ key b) (sorted_by key l).
Proof.
  induction l as [|x l IH]; simpl; [constructor|by apply insert_by_sorted].
Qed.

Lemma insert_by_stable {A} (key : A → Z) (k : Z) x l :
  filter (λ a, key a = k) (insert_by key x l)
  = filter (λ a, key a = k) (x :: l).
Proof.
  induction l as [|y l IH]; simpl; [done|].
  destruct (Z.leb_spec (key x) (key y)) as [Hle|Hgt]; [done|].
  rewrite (filter_cons _ y (insert_by key x l)), IH, !filter_cons.
  repeat case_decide; try done; lia.
Qed.

Lemma sorted_by_stable {A} (key : A → Z) (k : Z) l :
  filter (λ a, key a = k) (sorted_by key l) = filter (λ a, key a = k) l.
Proof.
  induction l as [|x l IH]; simpl; [done|].
  by rewrite insert_by_stable, !filter_cons, IH.
Qed.

Lemma sort_sources_sorted (l : list addr) σ c :
  let σ' :=
    foldl (λ σ c,
             update_chan c
               (with_c_source (sorted_by (λ s, - site_level σ s) (sources σ c)))
               σ) σ l in
  c ∈ l ∨ StronglySorted (λ a b, site_level σ b ≤ site_level σ a) (sources σ c) →
  StronglySorted (λ a b, site_level σ b ≤ site_level σ a) (sources σ' c).
Proof.
  revert σ. induction l as [|x l IH]; intros σ; cbn [foldl]; cbv zeta.
  - intros [Hin|Hs]; [by apply elem_of_nil in Hin|done].
  - intros Hc. cbv zeta in IH.
    set (σ1 := update_chan x _ σ).
    assert (Hlev : ∀ s, site_level σ1 s = site_level σ s).
    { intros s. unfold site_level, σ1. by rewrite site_of_update_chan. }
    eapply StronglySorted_ext; [|apply (IH σ1)].
    + intros a b. simpl. by rewrite !Hlev.
    + destruct (decide (x = c)) as [->|Hne].
      * right. unfold sources, σ1. rewrite chan_of_update_chan, decide_True by done.
        simpl. eapply StronglySorted_ext;
          [|apply (sorted_by_sorted (λ s, - site_level σ s))].
        intros a b. simpl. rewrite !Hlev. lia.
      * destruct Hc as [Hin|Hs].
        -- left. apply elem_of_cons in Hin as [->|Hin]; [done|exact Hin].
        -- right. unfold sources, σ1.
           rewrite chan_of_update_chan, decide_False by done.
           eapply StronglySorted_ext; [|exact Hs].
           intros a b. simpl. by rewrite !Hlev.
Qed.

(** [compute_order] leaves the channel mapping in ascending order of level,
    with the channels of one level in the order they had before, and the
    sources of every channel of the network in descending order of
    level. *)
Theorem compute_order_sorted (σ : State) (out : Outcome) :
  compute_order σ = Some out →
  let σ' := out_state out in
  StronglySorted (λ kv kv', chan_level σ' (snd kv) ≤ chan_level σ' (snd kv'))
                 (n_channels (net σ'))
  ∧ (∀ k, filter (λ kv, chan_level σ' (snd kv) = k) (n_channels (net σ'))
          = filter (λ kv, chan_level σ' (snd kv) = k) (n_channels (net σ)))
  ∧ (∀ c, c ∈ chan_values σ' →
          StronglySorted (λ s s', site_level σ' s' ≤ site_level σ' s)
                         (sources σ' c)).
Proof.
  intros (i & σ1 & Hrun & ->)%compute_order_fuel_inv.
  cbv zeta. rewrite evaluate_state.
  apply relax_bounds in Hrun as (_ & _ & Hl).
  destruct (reset_order_spec σ) as (Hl0 & _).
  pose proof (levels_only_trans _ _ _ Hl0 Hl) as (Hnet & _ & _).
  destruct (sort_structure_spec σ1) as (_ & _ & Hnc & _).
  rewrite Hnc, <- Hnet. split; [|split].
  - eapply StronglySorted_ext;
      [|apply (sorted_by_sorted (λ kv, chan_level σ1 (snd kv)))].
    intros a b. simpl. by rewrite !sort_structure_chan_level.
  - intros k.
    etrans; [|etrans; [apply (sorted_by_stable
                                (λ kv, chan_level σ1 (snd kv)) k)|]];
      apply list_filter_iff; intros kv; by rewrite sort_structure_chan_level.
  - intros c Hc.
    eapply StronglySorted_ext;
      [|unfold sort_structure; cbv zeta; apply sort_sources_sorted; left].
    + intros a b Hab. rewrite !sort_structure_site_level. exact Hab.
    + revert Hc. unfold chan_values. rewrite Hnc. unfold sort_structure.
      cbv zeta. done.
Qed.

Lemma compute_order_sorted_witness :
  ∃ out, compute_order (fst chain_example) = Some out
    ∧ StronglySorted
        (λ kv kv', chan_level (out_state out) (snd kv)
                   ≤ chan_level (out_state out) (snd kv'))
        (n_channels (net (out_state out))).
Proof.
  destruct (compute_order_returns (fst chain_example)) as (i & σ' & _ & Hout).
  eexists. split; [exact Hout|].
  exact (proj1 (compute_order_sorted _ _ Hout)).
Defined.

(** *** The loop counter and the warnings *)

(** The loop of [compute_order] makes at least one iteration and at most
    one more than there are channels, on every network; so the test
    [i > len(self._channels) + 1] never holds, the warning about a failed
    structure is never printed, and whatever is printed is a warning about
    orphaned sites or about unreachable channels. *)
Theorem loop_iterations_bounded (σ : State) (out : Outcome) :
  compute_order σ = Some out →
  1 ≤ out_steps out ≤ channel_count σ + 1
  ∧ (FailedStructure ∉ out_printed out)
  ∧ ∀ w, w ∈ out_printed out →
         ∃ t, w = OrphanedSites t ∨ w = UnreachableChannels t.
Proof.
  intros Hout.
  pose proof (compute_order_steps σ out Hout) as Hsteps.
  pose proof (failed_structure_never_printed σ out Hout) as Hnever.
  split; [|split; [done|]].
  - split; [|done].
    apply compute_order_fuel_inv in Hout as (i & σ' & Hrun & ->).
    rewrite evaluate_steps in *.
    destruct (reset_order_spec σ) as (Hl0 & _).
    destruct (relax_last_quiet _ _ _ _ _ Hrun) as [Hpos _]; [|lia].
    rewrite (levels_only_channel_count Hl0). lia.
  - intros w Hw. destruct w as [|t|t]; [done|by exists t; left|by exists t; right].
Qed.

Lemma loop_iterations_bounded_witness :
  ∃ out, compute_order (fst cycle_example) = Some out
         ∧ 1 ≤ out_steps out ≤ channel_count (fst cycle_example) + 1.
Proof.
  destruct (compute_order_returns (fst cycle_example)) as (i & σ' & _ & Hout).
  eexists. split; [exact Hout|].
  exact (proj1 (loop_iterations_bounded _ _ Hout)).
Defined.

Lemma visits_not_orphaned i l d σ s :
  0 ≤ i → site_level σ s ≠ -1 →
  site_level (snd (foldl (visit i) (d, σ) l)) s ≠ -1.
Proof.
  intros Hi. revert d σ.
  induction l as [|c l IH]; intros d σ Hs; cbn [foldl]; [done|].
  rewrite visit_eq. destruct (fires i σ c); [|by apply IH].
  apply IH. destruct (resolve_spec i c σ) as (_ & _ & ->).
  case_decide; [lia|done].
Qed.

Lemma relax_not_orphaned fuel done i σ j σ' s :
  0 ≤ i → site_level σ s ≠ -1 →
  relax fuel done i σ = Some (j, σ') → site_level σ' s ≠ -1.
Proof.
  revert done i σ. induction fuel as [|fuel IH]; intros done i σ Hi Hs;
    rewrite relax_unfold; destruct (negb done && _); try done;
    try by intros [= <- <-].
  intros Hrun. unfold pass in Hrun.
  pose proof (visits_not_orphaned i (chan_values σ) true σ s Hi Hs) as Hs'.
  destruct (foldl (visit i) (true, σ) (chan_values σ)) as [d σ1].
  eapply IH; [|exact Hs'|exact Hrun]. lia.
Qed.

Lemma evaluate_orphans i σ :
  ((∃ t, OrphanedSites t ∈ out_printed (evaluate i σ)) →
   ∃ s, s ∈ site_values σ ∧ site_level σ s = -1)
  ∧ (out_raised (evaluate i σ) = None →
     (∃ s, s ∈ site_values σ ∧ site_level σ s = -1) →
     ∃ t, OrphanedSites t ∈ out_printed (evaluate i σ)).
Proof.
  assert (Hany : existsb (is_orphaned σ) (site_values σ) = true
                 ↔ ∃ s, s ∈ site_values σ ∧ site_level σ s = -1).
  { rewrite existsb_exists. unfold is_orphaned.
    split; intros (s & Hs & Hlev); exists s.
    - split; [by apply list_elem_of_In|by apply Z.eqb_eq].
    - split; [by apply list_elem_of_In|by apply Z.eqb_eq]. }
  unfold evaluate.
  destruct (report _ _ Site_repr _ _) as [w2|e] eqn:H2.
  - assert (Hw2 : (∃ t, OrphanedSites t ∈ w2)
                  ↔ existsb (is_orphaned σ) (site_values σ) = true).
    { revert H2. unfold report. destruct (existsb _ _).
      - destruct (map_M _ _ _) as [σ1 [rs|e]]; [|done]. intros [= <-].
        split; [done|]. intros _. eexists. by apply list_elem_of_singleton.
      - intros [= <-]. split; [|done]. intros [t Ht].
        by apply elem_of_nil in Ht. }
    destruct (report _ _ Channel_repr _ _) as [w3|e] eqn:H3; simpl.
    + split.
      * intros [t Ht]. apply Hany, Hw2.
        rewrite !elem_of_app in Ht. destruct Ht as [Ht|[Ht|Ht]].
        -- destruct (_ <? _); [|by apply elem_of_nil in Ht].
           by apply list_elem_of_singleton in Ht.
        -- by exists t.
        -- by destruct (report_items _ _ _ _ _ _ H3 _ Ht).
      * intros _ [t Ht]%Hany%Hw2. exists t. rewrite !elem_of_app. auto.
    + split; [|done].
      intros [t Ht]. apply Hany, Hw2.
      rewrite !elem_of_app in Ht. destruct Ht as [Ht|Ht]; [|by exists t].
      destruct (_ <? _); [|by apply elem_of_nil in Ht].
      by apply list_elem_of_singleton in Ht.
  - simpl. split; [|done]. intros [t Ht].
    destruct (_ <? _); [|by apply elem_of_nil in Ht].
    by apply list_elem_of_singleton in Ht.
Qed.

(** In a network where every target of a channel has that channel as its
    producer, the sites that [compute_order] leaves at [-1] are exactly the
    sites of the network that have no producer and are a source of no
    channel of the network. The warning about orphaned sites is printed
    only when there is such a site, and it is printed when there is one
    and no rendering raises. *)
Theorem orphans_are_unused_roots (σ : State) (out : Outcome) :
  consistent σ → compute_order σ = Some out →
  let orphan s := s ∈ site_values σ ∧ producer σ s = None ∧ ¬ is_source σ s in
  (∀ s, s ∈ site_values σ → site_level (out_state out) s = -1 ↔ orphan s)
  ∧ ((∃ t, OrphanedSites t ∈ out_printed out) → ∃ s, orphan s)
  ∧ (out_raised out = None → (∃ s, orphan s) →
     ∃ t, OrphanedSites t ∈ out_printed out).
Proof.
  intros Hcon (i & σ' & Hrun & ->)%compute_order_fuel_inv orphan.
  rewrite evaluate_state.
  destruct (reset_order_spec σ) as (Hl0 & _ & Hs0).
  assert (Hlev : ∀ s, s ∈ site_values σ →
                      site_level (sort_structure σ') s = -1 ↔ orphan s).
  { intros s Hreg. rewrite sort_structure_site_level.
    pose proof (Hs0 s) as Hreset. unfold level_after_reset, reset_level in Hreset.
    rewrite (decide_True (P := s ∈ site_values σ)) in Hreset by done.
    destruct (producer σ s) as [c|] eqn:Hp.
    - split; [|intros (_ & ? & _); congruence]. intros Hlev. exfalso.
      revert Hlev.
      eapply relax_not_orphaned; [| |exact Hrun]; [lia|].
      rewrite Hreset. case_decide; [lia|done].
    - assert (Hfree : ∀ c, c ∈ chan_values (reset_order σ) →
                           s ∉ targets (reset_order σ) c).
      { intros c _. rewrite (levels_only_targets Hl0). intros Ht.
        destruct (Hcon c s Ht). congruence. }
      rewrite (relax_untargeted _ _ _ _ _ _ s Hfree Hrun), Hreset.
      unfold orphan. case_decide; split; try done; try lia; tauto. }
  assert (Hsv : site_values (sort_structure σ') = site_values σ).
  { apply relax_bounds in Hrun as (_ & _ & Hl).
    pose proof (levels_only_trans _ _ _ Hl0 Hl) as (Hnet & _ & _).
    unfold site_values.
    destruct (sort_structure_spec σ') as (_ & -> & _). by rewrite Hnet. }
  split; [exact Hlev|].
  destruct (evaluate_orphans i (sort_structure σ')) as [Hp1 Hp2].
  rewrite Hsv in Hp1, Hp2.
  split.
  - intros Hpr. destruct (Hp1 Hpr) as (s & Hs & Hl). exists s. by apply Hlev.
  - intros Hok (s & Hs). apply (Hp2 Hok). exists s.
    split; [apply Hs|]. apply Hlev; [apply Hs|done].
Qed.

Lemma orphans_are_unused_roots_witness :
  ∃ out, compute_order (fst chain_example) = Some out
         ∧ ((∃ t, OrphanedSites t ∈ out_printed out) →
            ∃ s, s ∈ site_values (fst chain_example)
                 ∧ producer (fst chain_example) s = None
                 ∧ ¬ is_source (fst chain_example) s).
Proof.
  destruct (compute_order_returns (fst chain_example)) as (i & σ' & _ & Hout).
  eexists. split; [exact Hout|].
  exact (proj1 (proj2 (orphans_are_unused_roots _ _ chain_example_consistent
                         Hout))).
Defined.

(** *** Site construction *)

(** [Site.__init__] draws the next identifier before it looks at its
    arguments, so a call that raises for invalid arguments has consumed an
    identifier all the same. It accepts no argument, one string, or one or
    more sites, and raises [AttributeError] otherwise. In every case it
    registers nothing in the network and changes no other site and no
    channel; a site it returns has the drawn identifier, no producer and
    level [4000]. *)
Theorem Site_init_effects (args : list PyVal) (σ : State) :
  let new := next_obj σ in
  let σ' := fst (Site_init args σ) in
  let valid :=
    match args with
    | [] | [VStr _] => true
    | _ => forallb is_site args
    end in
  snd (Site_init args σ)
  = (if valid then Ok new
     else Raise (AttributeError "Invalid arguments for Site initialization."))
  ∧ n_site_ix (net σ') = n_site_ix (net σ) + 1
  ∧ n_sites (net σ') = n_sites (net σ)
  ∧ n_channels (net σ') = n_channels (net σ)
  ∧ chan_heap σ' = chan_heap σ
  ∧ (∀ a, a ≠ new → site_of σ' a = site_of σ a)
  ∧ (valid = true →
     s_id (site_of σ' new) = "_s" +:+ str_of_int (n_site_ix (net σ) + 1)
     ∧ producer σ' new = None ∧ site_level σ' new = 4000).
Proof.
  intros new σ' valid.
  assert (Hshape :
    (valid = false
     ∧ Site_init args σ
       = (do id <- next_site_ix; do self <- alloc_site id;
          raise (AttributeError "Invalid arguments for Site initialization.")) σ)
    ∨ (valid = true
       ∧ ∃ f : State → Site → Site,
           (∀ σ0 s, s_id (f σ0 s) = s_id s ∧ s_producer (f σ0 s) = s_producer s
                    ∧ s_level (f σ0 s) = s_level s)
           ∧ Site_init args σ
             = (do id <- next_site_ix; do self <- alloc_site id;
                do_ modify (λ σ0, update_site self (f σ0) σ0); ret self) σ)).
  { subst valid. destruct args as [|v args].
    - right. split; [done|]. by exists (λ _, with_label None).
    - destruct (forallb is_site (v :: args)) eqn:Hall.
      + right.
        assert (Hv : ∃ a, v = VSite a).
        { destruct v; try discriminate Hall. by eexists. }
        destruct Hv as [a ->]. split; [by destruct args|].
        eexists (λ σ0, with_sites _). split; [done|].
        by rewrite (Site_init_group σ (VSite a :: args)).
      + destruct v as [|l| | | |]; try (left; split; [by destruct args|];
          unfold Site_init, bind; simpl; simpl in Hall; by rewrite ?Hall).
        destruct args as [|w args].
        * right. split; [done|]. by exists (λ _, with_label (Some l)).
        * left. split; [done|]. done. }
  subst σ'. destruct Hshape as [[Hv ->]|[Hv (f & Hf & ->)]]; rewrite Hv.
  - unfold bind, next_site_ix, alloc_site, raise; simpl.
    split; [done|]. split; [done|]. split; [done|].
    split; [done|]. split; [done|]. split; [|done].
    intros a Ha. unfold site_of; simpl. by rewrite lookup_total_insert_ne.
  - unfold bind, next_site_ix, alloc_site, modify, ret; simpl.
    fold new. split; [done|]. split; [done|]. split; [done|].
    split; [done|]. split; [done|]. split.
    + intros a Ha. rewrite site_of_update_site, decide_False by done.
      unfold site_of; simpl. by rewrite lookup_total_insert_ne.
    + intros _. unfold producer, site_level.
      rewrite site_of_update_site, decide_True by done.
      match goal with |- context [f ?σ0 ?s] =>
        destruct (Hf σ0 s) as (-> & -> & ->) end.
      unfold site_of; simpl. by rewrite lookup_total_insert_eq.
Qed.

Lemma Site_init_effects_witness :
  let σ := empty_network "IF0.2" None in
  n_site_ix (net (fst (Site_init [VInt 123] σ))) = 0
  ∧ producer (fst (Site_init [VStr "Site A"] σ)) 0%nat = None.
Proof.
  intros σ. split.
  - exact (proj1 (proj2 (Site_init_effects [VInt 123] σ))).
  - apply (proj2 (proj2 (proj2 (proj2 (proj2 (proj2
             (Site_init_effects [VStr "Site A"] σ))))))).
    reflexivity.
Defined.

(** A group of sites, whatever its members, has no [label]: its label
    accessor, and with it [str] and [repr], raises [AttributeError]. Its
    children are held as a set of tuples, so [site] raises for every
    identifier, and [sites] for every non-empty list of them. *)
Theorem group_accessors_raise (args : list PyVal) (σ : State) :
  args ≠ [] → forallb is_site args = true →
  let new := next_obj σ in
  ∃ σ', Site_init args σ = (σ', Ok new)
    ∧ s_sites (site_of σ' new)
      = SubSet (list_to_set (map (λ a, (s_id (site_of σ' a), a))
                                 (site_addrs args)))
    ∧ (∃ msg, Site_str new σ' = (σ', Raise (AttributeError msg)))
    ∧ (∃ msg, Site_repr new σ' = (σ', Raise (AttributeError msg)))
    ∧ (∀ id, ∃ msg, Site_site new id σ' = (σ', Raise (AttributeError msg)))
    ∧ (∀ id ids, ∃ msg,
         Site_sites new (id :: ids) σ' = (σ', Raise (AttributeError msg))).
Proof.
  intros Hne Hall new. rewrite Site_init_group by done.
  eexists; split; [reflexivity|].
  match goal with |- context [site_of ?s new] => set (σ' := s) end.
  assert (Hlabel : s_label (site_of σ' new) = None).
  { unfold σ'. simpl. rewrite site_of_update_site, decide_True by done.
    by rewrite site_of_new. }
  assert (Hsites : ∀ id, ∃ msg,
                     Site_site new id σ' = (σ', Raise (AttributeError msg))).
  { intros id. unfold Site_site, σ'. simpl.
    rewrite site_of_update_site, decide_True by done. simpl. eauto. }
  split; [|split; [|split; [|split]]].
  - unfold σ'. simpl. rewrite site_of_update_site, decide_True by done.
    simpl. do 2 f_equal. apply map_ext. intros a.
    rewrite site_of_update_site. case_decide as Heq; [|done].
    unfold with_sites; simpl. by rewrite <- Heq.
  - unfold Site_str, Site_label. rewrite Hlabel. eauto.
  - unfold Site_repr, Site_label. rewrite Hlabel. eauto.
  - exact Hsites.
  - intros id ids. destruct (Hsites id) as [msg Hmsg]. exists msg.
    simpl. unfold bind. by rewrite Hmsg.
Qed.

Lemma group_accessors_raise_witness :
  let σ := fst chain_example in
  ∃ σ', Site_init [VSite 0%nat; VSite 1%nat] σ = (σ', Ok (next_obj σ))
        ∧ ∃ msg, Site_site (next_obj σ) "_s0" σ'
                 = (σ', Raise (AttributeError msg)).
Proof.
  intros σ.
  destruct (group_accessors_raise [VSite 0%nat; VSite 1%nat] σ)
    as (σ' & Hrun & _ & _ & _ & Hsite & _); [discriminate|reflexivity|].
  exists σ'. split; [exact Hrun|apply Hsite].
Defined.

(** *** Two runs in succession *)

Lemma existsb_perm {A} (f : A → bool) l l' :
  l ≡ₚ l' → existsb f l = existsb f l'.
Proof.
  intros Hp. apply eq_true_iff_eq. rewrite !existsb_exists.
  split; intros (x & Hin & Hx); exists x; (split; [|done]);
    apply list_elem_of_In; apply list_elem_of_In in Hin.
  - by rewrite <- Hp.
  - by rewrite Hp.
Qed.

Lemma same_graph_count σ σ' :
  same_graph σ σ' → channel_count σ' = channel_count σ.
Proof.
  intros (_ & Hp & _). apply Permutation_length in Hp.
  unfold channel_count, chan_values, dict_values in *.
  rewrite !length_map in Hp. lia.
Qed.

Lemma same_graph_levels_only σa σb σa' σb' :
  same_graph σa σb → levels_only σa σa' → levels_only σb σb' →
  same_graph σa' σb'.
Proof.
  intros (Hs & Hc & Hp & Hst) Ha Hb. split; [|split; [|split]].
  - by rewrite (levels_only_site_values Ha), (levels_only_site_values Hb).
  - by rewrite (levels_only_chan_values Ha), (levels_only_chan_values Hb).
  - intros s. by rewrite (levels_only_producer Ha), (levels_only_producer Hb).
  - intros c. rewrite (levels_only_targets Ha), (levels_only_targets Hb),
      (levels_only_sources Ha), (levels_only_sources Hb). apply Hst.
Qed.

Lemma fires_same i σa σb c :
  same_graph σa σb → same_levels σa σb → fires i σb c = fires i σa c.
Proof.
  intros (_ & _ & _ & Hst) (Hs & Hc). unfold fires. rewrite Hc.
  destruct (Hst c) as (_ & Hsrc). rewrite (existsb_perm _ _ _ Hsrc).
  f_equal. f_equal. apply existsb_ext. intros s. by rewrite Hs.
Qed.

Lemma promoted_by_same i σa σb t :
  same_graph σa σb → same_levels σa σb →
  promoted_by i σb (chan_values σb) t = promoted_by i σa (chan_values σa) t.
Proof.
  intros Hg Hl. unfold promoted_by.
  destruct Hg as (Hs & Hc & Hp & Hst).
  rewrite (existsb_perm _ _ _ Hc). apply existsb_ext. intros c.
  rewrite (fires_same i σa σb c) by done. by destruct (Hst c) as (-> & _).
Qed.

(** A step of the loop does the same to two stores that hold the same
    graph with the same levels, whatever the order of their channels and
    sources. *)
Lemma pass_same i σa σb :
  same_graph σa σb → same_levels σa σb →
  targets_late i σa (chan_values σa) →
  fst (pass i σb) = fst (pass i σa)
  ∧ same_levels (snd (pass i σa)) (snd (pass i σb)).
Proof.
  intros Hg Hl Hlate. pose proof Hg as (Hs & Hc & Hp & Hst).
  pose proof Hl as (Hsl & Hcl).
  assert (Hlate' : targets_late i σb (chan_values σb)).
  { intros c t Hin Hf Ht. rewrite (fires_same i σa σb c) in Hf by done.
    destruct (Hst c) as (Htg & _). rewrite Htg in Ht. rewrite Hsl.
    apply (Hlate c); [by rewrite <- Hc|done..]. }
  destruct (visits_parallel i (chan_values σa) true σa Hlate)
    as (_ & Hca & Hsa & Hda).
  destruct (visits_parallel i (chan_values σb) true σb Hlate')
    as (_ & Hcb & Hsb & Hdb).
  cbv zeta in *. unfold pass. split; [|split].
  - rewrite Hda, Hdb. f_equal. f_equal. rewrite (existsb_perm _ _ _ Hc).
    apply existsb_ext. intros c. by apply fires_same.
  - intros s. rewrite Hsa, Hsb, Hsl. by rewrite (promoted_by_same i σa σb s).
  - intros c. rewrite Hca, Hcb, Hcl, (fires_same i σa σb c) by done.
    assert (bool_decide (c ∈ chan_values σb)
            = bool_decide (c ∈ chan_values σa)) as ->; [|done].
    apply bool_decide_ext. by rewrite Hc.
Qed.

Lemma visits_unvisited i l d σ c :
  c ∉ l → chan_level (snd (foldl (visit i) (d, σ) l)) c = chan_level σ c.
Proof.
  revert d σ. induction l as [|x l IH]; intros d σ Hc; cbn [foldl]; [done|].
  apply not_elem_of_cons in Hc as [Hne Hc].
  rewrite visit_eq. destruct (fires i σ x); [|by apply IH].
  rewrite IH by done. destruct (resolve_spec i x σ) as (_ & -> & _).
  by rewrite decide_False.
Qed.

Lemma relax_unvisited fuel done i σ j σ' c :
  c ∉ chan_values σ → relax fuel done i σ = Some (j, σ') →
  chan_level σ' c = chan_level σ c.
Proof.
  revert done i σ. induction fuel as [|fuel IH]; intros done i σ Hc;
    rewrite relax_unfold; destruct (negb done && _); try done;
    try by intros [= <- <-].
  intros Hrun. apply IH in Hrun.
  - rewrite Hrun. by apply visits_unvisited.
  - by rewrite (levels_only_chan_values (levels_only_pass i σ)).
Qed.

Lemma is_source_same σa σb s :
  same_graph σa σb → is_source σb s ↔ is_source σa s.
Proof.
  intros (_ & Hc & _ & Hst). unfold is_source.
  rewrite !Exists_exists. split; intros (c & Hin & Hs); exists c.
  - destruct (Hst c) as (_ & Hsrc). split; [by rewrite <- Hc|by rewrite <- Hsrc].
  - destruct (Hst c) as (_ & Hsrc). split; [by rewrite Hc|by rewrite Hsrc].
Qed.

Section idempotence.
Context (σ : State) (Hcon : consistent σ) (Hreg : registered_targets σ).
Context (Hsrc : registered_sources σ) (Hsmall : channel_count σ ≤ 990).

Lemma order_inv_targets_late i σ' :
  order_inv σ i σ' → i < 1000 → targets_late i σ' (chan_values σ').
Proof.
  intros (Hl & Hinv) Hi c t Hin Hf Ht.
  rewrite (levels_only_chan_values Hl) in Hin.
  rewrite (levels_only_targets Hl) in Ht.
  apply fires_level in Hf.
  destruct (Hinv c Hin) as (Hcap & Hres & Hpend).
  destruct (Z.eq_dec (chan_level σ' c) 1000) as [Heq|Hne].
  - destruct (Hpend Heq t Ht) as [?|[? ?]]; lia.
  - destruct Hres as (_ & _ & Htg); [lia|]. rewrite (Htg t Ht). lia.
Qed.

(** The loop makes the same steps on two stores that hold the graph of
    [σ] with the same levels. *)
Lemma relax_same fuel done i σa σb j σa' :
  0 ≤ i → order_inv σ i σa → same_graph σa σb → same_levels σa σb →
  relax fuel done i σa = Some (j, σa') →
  ∃ σb', relax fuel done i σb = Some (j, σb')
         ∧ levels_only σb σb' ∧ same_levels σa' σb'.
Proof.
  revert done i σa σb.
  induction fuel as [|fuel IH]; intros done i σa σb Hi Hinv Hg Hl;
    rewrite (relax_unfold _ done i σa), (relax_unfold _ done i σb),
      (same_graph_count σa σb Hg);
    destruct (negb done && _) eqn:Hcond.
  - intros Hnone. discriminate Hnone.
  - intros [= <- <-]. exists σb. split; [done|].
    split; [apply levels_only_refl|done].
  - intros Hrun.
    assert (Hlt : i < 1000).
    { apply andb_true_iff in Hcond as [_ Hlt]. apply Z.ltb_lt in Hlt.
      destruct Hinv as (Hlo & _).
      rewrite (levels_only_channel_count Hlo) in Hlt. lia. }
    destruct (pass_same i σa σb Hg Hl) as [Hflag Hlev];
      [by apply order_inv_targets_late|].
    destruct (IH (fst (pass i σa)) (i + 1) (snd (pass i σa)) (snd (pass i σb)))
      as (σb' & Hrun' & Hlo' & Hl'); [lia| | |done|done|].
    + apply (order_inv_mono σ i); [lia|]. unfold pass.
      apply order_inv_visits; [done..| |done].
      destruct Hinv as (Hlo & _). rewrite (levels_only_chan_values Hlo).
      by apply Forall_forall.
    + eapply same_graph_levels_only; [exact Hg|apply levels_only_pass..].
    + exists σb'. rewrite Hflag. split; [done|]. split; [|done].
      eapply levels_only_trans; [apply levels_only_pass|done].
  - intros [= <- <-]. exists σb. split; [done|].
    split; [apply levels_only_refl|done].
Qed.

End idempotence.

Lemma reset_same σ σ1 :
  same_graph σ σ1 → registered_sources σ →
  (∀ b, b ∉ site_values σ → site_level σ1 b = site_level σ b) →
  (∀ d, d ∉ chan_values σ → chan_level σ1 d = chan_level σ d) →
  same_levels (reset_order σ) (reset_order σ1).
Proof.
  intros Hg Hsrc Hsites Hchans. pose proof Hg as (Hs & Hc & Hp & _).
  destruct (reset_order_spec σ) as (_ & Hc0 & Hs0).
  destruct (reset_order_spec σ1) as (_ & Hc1 & Hs1).
  split.
  - intros b. rewrite Hs0, Hs1. unfold level_after_reset, reset_level.
    rewrite Hs, Hp.
    destruct (decide (b ∈ site_values σ)) as [Hin|Hout].
    + apply decide_ext. by rewrite (is_source_same σ σ1 b Hg).
    + rewrite (Hsites b Hout).
      apply decide_ext. by rewrite (is_source_same σ σ1 b Hg).
  - intros d. rewrite Hc0, Hc1.
    destruct (decide (d ∈ chan_values σ)) as [Hin|Hout].
    + rewrite decide_True; [done|]. by rewrite Hc.
    + rewrite decide_False; [by apply Hchans|]. by rewrite Hc.
Qed.


Lemma registered_sources_by_eval σ :
  Forall (λ c, Forall (λ s, s ∈ site_values σ) (sources σ c)) (chan_values σ) →
  registered_sources σ.
Proof.
  intros H c s Hc Hs. rewrite Forall_forall in H.
  specialize (H c Hc). rewrite Forall_forall in H. exact (H s Hs).
Qed.

Lemma chain_example_sources : registered_sources (fst chain_example).
Proof. apply registered_sources_by_eval. by_eval. Qed.

Lemma chain_example_small : channel_count (fst chain_example) ≤ 990.
Proof. by vm_compute. Qed.



(** *** Linear chains up to the sentinel *)

(** When one channel of a list without repetitions passes the test of a
    step, and no other channel of the list passes it before or after this
    channel is resolved, the visits of the step resolve this channel and
    nothing else. *)
Lemma visits_one i l d σ km :
  NoDup l → km ∈ l → fires i σ km = true →
  (∀ c, c ∈ l → c ≠ km → fires i σ c = false) →
  (∀ c, c ∈ l → c ≠ km → fires i (resolve i km σ) c = false) →
  foldl (visit i) (d, σ) l = (false, resolve i km σ).
Proof.
  intros Hnd Hin Hkm Hbefore Hafter.
  apply list_elem_of_split in Hin as (l1 & l2 & ->).
  apply NoDup_app in Hnd as (_ & Hl1 & Hnd2).
  apply NoDup_cons in Hnd2 as [Hl2 _].
  rewrite foldl_app, (visits_none i l1 d σ).
  - cbn [foldl]. rewrite visit_eq, Hkm. apply visits_none.
    apply Forall_forall. intros c Hc. apply Hafter.
    + apply elem_of_app; right; by right.
    + intros ->; done.
  - apply Forall_forall. intros c Hc. apply Hbefore.
    + apply elem_of_app. by left.
    + intros ->. by apply (Hl1 km); [|left].
Qed.

Section chain_to_sentinel.
Context (σ : State) (ss cs : list addr) (Hchain : linear_chain σ ss cs).
Context (Hbound : (length ss ≤ 1002)%nat).

Lemma sentinel_chain_reset :
  (1 ≤ length cs)%nat → chain_state σ ss cs 0 (reset_order σ).
Proof.
  intros Hne. destruct (reset_order_spec σ) as (Hl & Hc & Hs).
  destruct Hchain as (Hvals & Hlen & Hnd & _ & Hreg & Hroot & Hlink).
  split; [done|]. split.
  - intros j s Hj. rewrite Hs. unfold level_after_reset.
    rewrite (decide_True (P := s ∈ site_values σ))
      by (eapply Hreg, list_elem_of_lookup_2, Hj).
    unfold reset_level. destruct j as [|j].
    + rewrite (Hroot s Hj). rewrite decide_True; [done|]. split; [done|].
      destruct (lookup_lt_is_Some_2 cs 0%nat) as [c Hc0]; [lia|].
      destruct (Hlink _ _ Hc0) as (s' & t & Hs' & _ & Hsrc & _).
      assert (s' = s) as -> by congruence.
      unfold is_source. apply Exists_exists. exists c. split.
      * rewrite Hvals. by eapply list_elem_of_lookup_2.
      * rewrite Hsrc. by left.
    + destruct (lookup_lt_is_Some_2 cs j) as [c Hcj].
      { apply lookup_lt_Some in Hj. lia. }
      destruct (Hlink _ _ Hcj) as (s' & t & _ & Ht & _ & _ & Hprod).
      assert (t = s) as -> by congruence. rewrite Hprod.
      rewrite decide_False by (intros [? _]; lia).
      by rewrite decide_False by lia.
  - intros j c Hj. rewrite Hc, decide_True.
    + by rewrite decide_False by lia.
    + rewrite Hvals. by eapply list_elem_of_lookup_2.
Qed.

Lemma sentinel_chain_fires m σ' j c :
  chain_state σ ss cs m σ' → (m < length cs)%nat → cs !! j = Some c →
  fires (Z.of_nat m) σ' c = bool_decide (j = m).
Proof.
  intros (Hl & Hs & Hc) Hm Hj.
  destruct Hchain as (_ & Hlen & _).
  destruct (chain_channel σ ss cs Hchain j c Hj) as (s & t & Hsj & _ & Hsrc & _).
  pose proof (lookup_lt_Some _ _ _ Hj) as Hjlt.
  apply eq_true_iff_eq. rewrite fires_iff, bool_decide_eq_true.
  rewrite (levels_only_sources Hl), Hsrc, (Hc j c Hj).
  split.
  - intros [Hlev Hready].
    specialize (Hready s (list_elem_of_here _ _)). rewrite (Hs j s Hsj) in Hready.
    repeat case_decide; lia.
  - intros ->. rewrite decide_False by lia. split; [lia|].
    intros s' ->%list_elem_of_singleton. rewrite (Hs m s Hsj).
    rewrite decide_True by lia. lia.
Qed.

Lemma sentinel_chain_pass m σ' :
  chain_state σ ss cs m σ' → (m < length cs)%nat →
  fst (pass (Z.of_nat m) σ') = false
  ∧ chain_state σ ss cs (S m) (snd (pass (Z.of_nat m) σ')).
Proof.
  intros Hst Hm. pose proof Hst as (Hl & Hs & Hc).
  pose proof Hchain as (Hvals & Hlen & Hnds & Hndc & _).
  assert (Hcs : chan_values σ' = cs) by by rewrite (levels_only_chan_values Hl).
  destruct (lookup_lt_is_Some_2 cs m Hm) as [km Hkm].
  destruct (chain_channel σ ss cs Hchain m km Hkm)
    as (sm & tm & Hsm & Htm & _ & Htgt & _).
  assert (Hpass : pass (Z.of_nat m) σ' = (false, resolve (Z.of_nat m) km σ')).
  { unfold pass. rewrite Hcs. apply visits_one; [done|..].
    - by eapply list_elem_of_lookup_2.
    - rewrite (sentinel_chain_fires m σ' m km) by done.
      by apply bool_decide_eq_true.
    - intros c (j & Hj)%list_elem_of_lookup_1 Hne.
      rewrite (sentinel_chain_fires m σ' j c) by done.
      apply bool_decide_eq_false. intros ->. congruence.
    - intros c (j & Hj)%list_elem_of_lookup_1 Hne.
      assert (Hjm : j ≠ m) by (intros ->; congruence).
      destruct (chain_channel σ ss cs Hchain j c Hj)
        as (sj & tj & Hsj & _ & Hsrc & _).
      destruct (resolve_spec (Z.of_nat m) km σ') as (Hl' & Hc' & Hs').
      apply not_true_is_false. rewrite fires_iff.
      rewrite (levels_only_sources Hl'), (levels_only_sources Hl), Hsrc.
      rewrite Hc', decide_False by done. rewrite (Hc j c Hj).
      intros [Hlev Hready].
      specialize (Hready sj (list_elem_of_here _ _)).
      rewrite Hs', (levels_only_targets Hl), Htgt, (Hs j sj Hsj) in Hready.
      pose proof (lookup_lt_Some _ _ _ Hj).
      repeat case_decide; lia. }
  rewrite Hpass. split; [done|]. simpl.
  destruct (resolve_spec (Z.of_nat m) km σ') as (Hl' & Hc' & Hs').
  split; [by eapply levels_only_trans|]. split.
  - intros j s Hj. rewrite Hs', (levels_only_targets Hl), Htgt, (Hs j s Hj).
    destruct (decide (s ∈ ({[tm]} : gset addr))) as [Heq|Hne].
    + apply elem_of_singleton in Heq as ->.
      assert (j = S m) as -> by exact (NoDup_lookup ss j (S m) tm Hnds Hj Htm).
      rewrite decide_True by lia. lia.
    + assert (j ≠ S m).
      { intros ->. apply Hne, elem_of_singleton. congruence. }
      repeat case_decide; lia.
  - intros j c Hj. rewrite Hc', (Hc j c Hj).
    destruct (decide (km = c)) as [<-|Hne].
    + assert (j = m) as -> by exact (NoDup_lookup cs j m km Hndc Hj Hkm).
      rewrite decide_True by lia. done.
    + assert (j ≠ m) by (intros ->; congruence).
      repeat case_decide; lia.
Qed.

Lemma sentinel_chain_last_pass σ' :
  chain_state σ ss cs (length cs) σ' →
  pass (Z.of_nat (length cs)) σ' = (true, σ').
Proof.
  intros (Hl & _ & Hc). unfold pass. apply visits_none.
  rewrite (levels_only_chan_values Hl).
  destruct Hchain as (-> & _). apply Forall_forall.
  intros c (j & Hj)%list_elem_of_lookup_1.
  pose proof (lookup_lt_Some _ _ _ Hj).
  unfold fires. rewrite (Hc j c Hj), decide_True by done.
  destruct (Z.ltb_spec (Z.of_nat j) (Z.of_nat (length cs))); [done|lia].
Qed.

Lemma sentinel_chain_relax k m σ' :
  (m + k = length cs)%nat → chain_state σ ss cs m σ' →
  ∃ σ'', relax (S k) false (Z.of_nat m) σ'
         = Some (Z.of_nat (length cs) + 1, σ'')
         ∧ chain_state σ ss cs (length cs) σ''.
Proof.
  revert m σ'. induction k as [|k IH]; intros m σ' Hk Hst;
    pose proof Hst as (Hl & _);
    rewrite relax_unfold, (chain_count σ ss cs Hchain σ' Hl);
    simpl negb; cbn [andb];
    (destruct (Z.ltb_spec (Z.of_nat m) (Z.of_nat (length cs) + 10)); [|lia]).
  - assert (m = length cs) as -> by lia.
    rewrite sentinel_chain_last_pass by done. simpl. by exists σ'.
  - destruct (sentinel_chain_pass m σ' Hst) as [Hflag Hnext]; [lia|].
    destruct (IH (S m) (snd (pass (Z.of_nat m) σ'))) as (σ'' & Hrun & Hfin);
      [lia|done|].
    exists σ''. rewrite Hflag. split; [|done]. rewrite <- Hrun. f_equal. lia.
Qed.


End chain_to_sentinel.


